(** * AMBiT: the MBPT summation engine and the Brueckner decorator

    A shallow embedding of
      - [HartreeFock/OrbitalInfo.h],
      - [MBPT/ValenceMBPTCalculator.cpp] (integrals fetched from stored tables),
      - [MBPT/ValenceCalculator.cpp] (integrals computed on the wavefunctions),
      - [MBPT/BruecknerDecorator.cpp],
      - [HartreeFock/Orbital.cpp] ([Norm] and [NumNodes]),
      - [Universal/ExpLattice.cpp],
      - [SolutionID::operator<] and [SpinorODEDecorator],
    and the properties of the perturbation sums, of the sigma map and of
    these functions.

    Conventions.
      - A C++ [double] is an IEEE 754 binary64 value: [spec_float] with
        precision 53 and maximal exponent 1024, rounded to nearest even.
      - A C++ [int] is a [Z]; signed arithmetic is assumed not to overflow
        (it is undefined behaviour in the source).  [unsigned int]
        arithmetic is reduced modulo 2^32 where the source computes it.
      - Collaborators that live outside these files (3j and 6j symbols,
        stored integrals, the Coulomb integrator, the wrapped operator, the
        sigma potential) are fields of records passed to the functions.
      - Debug logging ([DebugOptions.LogMBPT()]) only writes to the log
        streams and is left out. *)

From Stdlib Require Import ZArith Bool List Lia String Ascii.
From Stdlib Require Import Floats.SpecFloat.
From stdpp Require Import base option list gmap strings pretty sorting.

Local Open Scope Z_scope.

(** ** Doubles *)

Module Double.

Definition prec : Z := 53.
Definition emax : Z := 1024.

Definition double : Type := spec_float.

Definition add : double -> double -> double := SFadd prec emax.
Definition sub : double -> double -> double := SFsub prec emax.
Definition mul : double -> double -> double := SFmul prec emax.
Definition div : double -> double -> double := SFdiv prec emax.
Definition opp : double -> double := SFopp.
Definition fabs : double -> double := SFabs.

(** [double(n)] for an integer [n]. *)
Definition of_Z (n : Z) : double := binary_normalize prec emax n 0 false.

Definition zero : double := S754_zero false.
Definition one : double := Eval vm_compute in of_Z 1.
Definition two : double := Eval vm_compute in of_Z 2.
Definition half : double := Eval vm_compute in binary_normalize prec emax 1 (-1) false.

(** [!x] on a double: true for both zeros, false for everything else
    (a NaN is not equal to zero). *)
Definition is_zero (x : double) : bool :=
  match x with S754_zero _ => true | _ => false end.

(** [if(x)] on a double. *)
Definition truthy (x : double) : bool := negb (is_zero x).

Definition is_finite (x : double) : bool :=
  match x with S754_zero _ | S754_finite _ _ _ => true | _ => false end.

(** [(unsigned int)x]: the integer part, reduced modulo 2^32 (the source is
    undefined outside the range of the target type). *)
Definition to_uint (x : double) : Z :=
  match x with
  | S754_finite false m e =>
      (match e with
       | Z0 => Zpos m
       | Zpos p => Z.shiftl (Zpos m) e
       | Zneg p => Z.shiftr (Zpos m) (Zpos p)
       end) mod 2 ^ 32
  | _ => 0
  end.

(** [-x] when [b], else [x]. *)
Definition cond_opp (b : bool) (x : double) : double := if b then opp x else x.

#[global] Instance double_inhabited : Inhabited double := populate zero.

#[global] Instance double_eq_dec : EqDecision double.
Proof. solve_decision. Defined.

End Double.

Import Double.

Declare Scope double_scope.
Delimit Scope double_scope with D.
Infix "+" := Double.add : double_scope.
Infix "-" := Double.sub : double_scope.
Infix "*" := Double.mul : double_scope.
Infix "/" := Double.div : double_scope.
Notation "- x" := (Double.opp x) : double_scope.



(** ** Integers and loops *)

(** Reduction of an integer to the range of [unsigned int]. *)
Definition uint32 (n : Z) : Z := n mod 2 ^ 32.

(** [n % 2] as a condition: C++ [%] truncates, so the remainder of an odd
    negative number is [-1], which is true as well. *)
Definition rem2_true (n : Z) : bool := negb (Z.rem n 2 =? 0).

(** The loop [for (k = k0; k <= kmax; k += 2) s = body(k, s)] (also written
    as a [while] in the source).  [while_step2] runs at most [fuel] rounds;
    [loop_step2] gives it one round more than the loop can take. *)
Fixpoint while_step2 {S : Type} (fuel : nat) (k kmax : Z) (body : Z -> S -> S) (s : S) : S :=
  match fuel with
  | O => s
  | Datatypes.S fuel' =>
      if k <=? kmax then while_step2 fuel' (k + 2) kmax body (body k s) else s
  end.

Definition loop_step2 {S : Type} (k kmax : Z) (body : Z -> S -> S) (s : S) : S :=
  while_step2 (Z.to_nat (kmax - k + 2)) k kmax body s.

(** The values of [k] the loop goes through, in order. *)
Fixpoint range_step2_fuel (fuel : nat) (k kmax : Z) : list Z :=
  match fuel with
  | O => []
  | Datatypes.S fuel' =>
      if k <=? kmax then k :: range_step2_fuel fuel' (k + 2) kmax else []
  end.

Definition range_step2 (k kmax : Z) : list Z :=
  range_step2_fuel (Z.to_nat (kmax - k + 2)) k kmax.

(** ** Orbital labels ([HartreeFock/OrbitalInfo.h]) *)

Record OrbitalInfo : Type := mkOrbitalInfo { pqn : Z; kappa : Z }.

#[global] Instance OrbitalInfo_eq_dec : EqDecision OrbitalInfo.
Proof. solve_decision. Defined.

Definition PQN (s : OrbitalInfo) : Z := pqn s.
Definition Kappa (s : OrbitalInfo) : Z := kappa s.

Definition L (s : OrbitalInfo) : Z :=
  if 0 <? kappa s then kappa s else - kappa s - 1.

Definition J (s : OrbitalInfo) : double :=
  (fabs (of_Z (kappa s)) - half)%D.

Definition L_Prime (s : OrbitalInfo) : Z :=
  if kappa s <? 0 then - kappa s else kappa s - 1.

Definition TwoJ (s : OrbitalInfo) : Z := 2 * Z.abs (kappa s) - 1.

Definition MaxNumElectrons (s : OrbitalInfo) : Z := 2 * Z.abs (kappa s).

(** ** Orbitals

    [Orbital::Orbital(int kappa, unsigned int pqn, double energy, unsigned
    int size)]: the quantum numbers, the energy and the two radial
    components [f] and [g] sampled on the lattice. *)
Record Orbital : Type := mkOrbital {
  o_kappa : Z;
  o_pqn : Z;
  o_energy : double;
  o_f : list double;
  o_g : list double
}.

(** [OrbitalInfo(const Orbital* s)]. *)
Definition info_of (s : Orbital) : OrbitalInfo :=
  {| pqn := o_pqn s; kappa := o_kappa s |}.

Definition Energy (s : Orbital) : double := o_energy s.
Definition size (s : Orbital) : nat := length (o_f s).

(** [OrbitalMap]: the entries [(it->first, it->second)] in iteration order. *)
Abbreviation OrbitalMap := (list (OrbitalInfo * Orbital)).

(** ** The numerical services ([Universal/MathConstant.h]) *)

Record MathConstant : Type := mkMathConstant {
  (** [Electron3j(twoj1, twoj2, k)], the projections left at their defaults. *)
  Electron3j : Z -> Z -> Z -> double;
  (** [Electron3j(twoj1, twoj2, k, twoq1, twoq2)]. *)
  Electron3j_q : Z -> Z -> Z -> Z -> Z -> double;
  Wigner6j : double -> double -> double -> double -> double -> double -> double
}.

(** Modelled from the spec: [MathConstant::minus_one_to_the_power] is defined
    outside these files.  The sign of a term follows the parity of the power:
    [-1] for an odd power, [1] for an even one. *)
Definition minus_one_to_the_power (power : Z) : Z :=
  if rem2_true power then -1 else 1.

(** ** Events

    The two-body sums also return, in order, which orbitals their loops
    visited and which radial integrals they asked for, so that pruning can
    be stated. *)
Inductive Event : Type :=
  | EvVisit (s : OrbitalInfo)
      (** a loop over orbitals reached this state *)
  | EvTwoElectronIntegral (k : Z) (s1 s2 s3 s4 : OrbitalInfo)
      (** [two_body->GetTwoElectronIntegral(k, s1, s2, s3, s4)] *)
  | EvCoulombIntegrate (k : Z) (s1 s2 : OrbitalInfo)
      (** [I.FastCoulombIntegrate] on the density of [s1] and [s2] *)
  | EvIsotopeShiftIntegral (s1 s2 : OrbitalInfo)
      (** [SI.IsotopeShiftIntegral(s1, s2)] *).

#[global] Instance Event_eq_dec : EqDecision Event.
Proof. solve_decision. Defined.

Definition is_integral_event (e : Event) : bool :=
  match e with
  | EvVisit _ => false
  | _ => true
  end.

Definition Acc : Type := double * list Event.

Definition visit (s : OrbitalInfo) (st : Acc) : Acc := (st.1, st.2 ++ [EvVisit s]).
Definition request (e : Event) (st : Acc) : Acc := (st.1, st.2 ++ [e]).
Definition accumulate (x : double) (st : Acc) : Acc := ((st.1 + x)%D, st.2).

(** ** [MBPT/ValenceMBPTCalculator.cpp] *)

Module ValenceMBPT.

(** The members of the calculator and of its base class [MBPTCalculator]
    that the sums read. *)
Record Calculator : Type := mkCalculator {
  constants : MathConstant;
  (** [one_body->GetMatrixElement(s1, s2)] *)
  GetMatrixElement : OrbitalInfo -> OrbitalInfo -> double;
  (** [two_body->GetTwoElectronIntegral(k, s1, s2, s3, s4)] *)
  GetTwoElectronIntegral : Z -> OrbitalInfo -> OrbitalInfo -> OrbitalInfo -> OrbitalInfo -> double;
  excited : OrbitalMap;
  high : OrbitalMap;
  ValenceEnergies : gmap Z double;
  delta : double;
  (** [InQSpace(s)] of the base class *)
  InQSpace : OrbitalInfo -> bool;
  (** [kmin(s1, s2)] and [kmax(s1, s2)] of the base class *)
  kmin : OrbitalInfo -> OrbitalInfo -> Z;
  kmax : OrbitalInfo -> OrbitalInfo -> Z
}.

Section Sums.

Variable C : Calculator.

(** Modelled from the spec: the two-argument [InQSpace(s1, s2)] is a member of
    [MBPTCalculator], outside these files.  A pair passes when at least one of
    the two intermediate lines is in Q-space. *)
Definition InQSpace2 (s1 s2 : OrbitalInfo) : bool :=
  InQSpace C s1 || InQSpace C s2.

Definition CalculateOneElectronSub_step (sa sb : OrbitalInfo) (ValenceEnergy : double)
    (energy : double) (it_alpha : OrbitalInfo * Orbital) : double :=
  let salpha := it_alpha.1 in
  let Ealpha := Energy it_alpha.2 in
  if InQSpace C salpha && (Kappa sa =? Kappa salpha) then
    let term := (GetMatrixElement C sa salpha * GetMatrixElement C salpha sb)%D in
    (energy + term / (ValenceEnergy - Ealpha + delta C))%D
  else energy.

(** [CalculateOneElectronSub] (lines 55-83).
    [ValenceEnergies.find(kappa)->second] has no value when the channel is
    absent: the result is [None] then. *)
Definition CalculateOneElectronSub (sa sb : OrbitalInfo) : option double :=
  ValenceEnergy ← ValenceEnergies C !! Kappa sa;
  Some (fold_left (CalculateOneElectronSub_step sa sb ValenceEnergy) (high C) zero).

(** [GetOneElectronSubtraction] (lines 32-38). *)
Definition GetOneElectronSubtraction (s1 s2 : OrbitalInfo) : option double :=
  if negb (Kappa s1 =? Kappa s2) then Some zero
  else CalculateOneElectronSub s1 s2.

(** The body of the [k2] loop (lines 144-161). *)
Definition valence_k2_step (k : Z) (sa sb sc sd salpha sbeta : OrbitalInfo)
    (coeff_alphabeta : double) (k1 : Z) (coeff_ab R1 : double) (k2 : Z) (st : Acc) : Acc :=
  let coeff := (Electron3j (constants C) (TwoJ salpha) (TwoJ sc) k2 *
                Electron3j (constants C) (TwoJ sbeta) (TwoJ sd) k2)%D in
  let coeff :=
    if truthy coeff then
      (coeff * Wigner6j (constants C) (J sc) (J sa) (of_Z k) (of_Z k1) (of_Z k2) (J salpha)
             * Wigner6j (constants C) (J sd) (J sb) (of_Z k) (of_Z k1) (of_Z k2) (J sbeta))%D
    else coeff in
  if truthy coeff then
    let coeff := (coeff * coeff_ab * coeff_alphabeta)%D in
    let coeff := if rem2_true (k1 + k2) then (- coeff)%D else coeff in
    let R2 := GetTwoElectronIntegral C k2 salpha sbeta sc sd in
    accumulate (R1 * R2 * coeff)%D
      (request (EvTwoElectronIntegral k2 salpha sbeta sc sd) st)
  else st.

(** The body of the [k1] loop (lines 132-165). *)
Definition valence_k1_step (k : Z) (sa sb sc sd salpha sbeta : OrbitalInfo)
    (coeff_alphabeta : double) (k1 : Z) (st : Acc) : Acc :=
  let coeff_ab := (Electron3j (constants C) (TwoJ sa) (TwoJ salpha) k1 *
                   Electron3j (constants C) (TwoJ sb) (TwoJ sbeta) k1)%D in
  if truthy coeff_ab then
    let R1 := GetTwoElectronIntegral C k1 sa sb salpha sbeta in
    loop_step2 (kmin C salpha sc) (kmax C salpha sc)
      (valence_k2_step k sa sb sc sd salpha sbeta coeff_alphabeta k1 coeff_ab R1)
      (request (EvTwoElectronIntegral k1 sa sb salpha sbeta) st)
  else st.

(** The selection rules on an intermediate pair (lines 115-117). *)
Definition valence_pair_allowed (sa sb sc sd salpha sbeta : OrbitalInfo) : bool :=
  InQSpace2 salpha sbeta &&
  (Z.rem (L sa + L salpha) 2 =? Z.rem (L sb + L sbeta) 2) &&
  (Z.rem (L salpha + L sc) 2 =? Z.rem (L sbeta + L sd) 2).

(** [coeff_alphabeta] before its sign is applied (lines 119-122). *)
Definition valence_pair_weight (k : Z) (salpha sbeta : OrbitalInfo)
    (coeff_ac coeff_bd ValenceEnergy Ealpha Ebeta : double) : double :=
  let coeff_alphabeta :=
    of_Z (uint32 (MaxNumElectrons salpha * MaxNumElectrons sbeta * uint32 (2 * k + 1))) in
  let coeff_alphabeta := (coeff_alphabeta / (coeff_ac * coeff_bd))%D in
  (coeff_alphabeta / (ValenceEnergy - Ealpha - Ebeta + delta C))%D.

(** [exponent + k + 1], computed in [unsigned int] (lines 124-125). *)
Definition valence_pair_power (k : Z) (sa sb sc sd salpha sbeta : OrbitalInfo) : Z :=
  let exponent :=
    Z.quot (TwoJ sa + TwoJ sb + TwoJ sc + TwoJ sd + TwoJ salpha + TwoJ sbeta) 2 in
  uint32 (exponent + k + 1).

(** The body of the loop over [it_beta] (lines 112-168). *)
Definition valence_pair_step (k : Z) (sa sb sc sd : OrbitalInfo)
    (coeff_ac coeff_bd ValenceEnergy : double) (it_alpha : OrbitalInfo * Orbital)
    (st : Acc) (it_beta : OrbitalInfo * Orbital) : Acc :=
  let salpha := it_alpha.1 in
  let Ealpha := Energy it_alpha.2 in
  let sbeta := it_beta.1 in
  let Ebeta := Energy it_beta.2 in
  let st := visit sbeta st in
  if valence_pair_allowed sa sb sc sd salpha sbeta then
    let coeff_alphabeta :=
      valence_pair_weight k salpha sbeta coeff_ac coeff_bd ValenceEnergy Ealpha Ebeta in
    let coeff_alphabeta :=
      (coeff_alphabeta *
       of_Z (minus_one_to_the_power (valence_pair_power k sa sb sc sd salpha sbeta)))%D in
    loop_step2 (kmin C sa salpha) (kmax C sa salpha)
      (valence_k1_step k sa sb sc sd salpha sbeta coeff_alphabeta) st
  else st.

(** The body of the loop over [it_alpha] (lines 106-170). *)
Definition valence_alpha_step (k : Z) (sa sb sc sd : OrbitalInfo)
    (coeff_ac coeff_bd ValenceEnergy : double)
    (st : Acc) (it_alpha : OrbitalInfo * Orbital) : Acc :=
  fold_left (valence_pair_step k sa sb sc sd coeff_ac coeff_bd ValenceEnergy it_alpha)
    (excited C) (visit it_alpha.1 st).

(** [CalculateTwoElectronValence] (lines 85-176). *)
Definition CalculateTwoElectronValence (k : Z) (sa sb sc sd : OrbitalInfo) : option Acc :=
  let energy := zero in
  let coeff_ac := Electron3j (constants C) (TwoJ sa) (TwoJ sc) k in
  let coeff_bd := Electron3j (constants C) (TwoJ sb) (TwoJ sd) k in
  if is_zero coeff_ac || is_zero coeff_bd then Some (energy, [])
  else
    Va ← ValenceEnergies C !! Kappa sa;
    Vb ← ValenceEnergies C !! Kappa sb;
    let ValenceEnergy := (Va + Vb)%D in
    Some (fold_left (valence_alpha_step k sa sb sc sd coeff_ac coeff_bd ValenceEnergy)
            (excited C) (energy, [])).

Definition GetTwoElectronValence (k : Z) (s1 s2 s3 s4 : OrbitalInfo) : option Acc :=
  CalculateTwoElectronValence k s1 s2 s3 s4.

Definition GetTwoElectronBoxValence (k : Z) (s1 s2 s3 s4 : OrbitalInfo) : option Acc :=
  CalculateTwoElectronValence k s1 s2 s3 s4.

(** One term of the subtraction sum:
    [energy += R1 * <..|..> / (Ex - Ealpha + delta)]. *)
Definition sub_term (Ex Ealpha R1 element : double) (energy : double) : double :=
  (energy + R1 * element / (Ex - Ealpha + delta C))%D.

(** The body of the loop of [CalculateTwoElectronSub] (lines 195-225). *)
Definition CalculateTwoElectronSub_step (k : Z) (sa sb sc sd : OrbitalInfo)
    (Ea Eb Ec Ed : double) (energy : double) (it_alpha : OrbitalInfo * Orbital) : double :=
  let salpha := it_alpha.1 in
  let Ealpha := Energy it_alpha.2 in
  if InQSpace C salpha then
    let energy :=
      if Kappa sa =? Kappa salpha then
        let R1 := GetTwoElectronIntegral C k salpha sb sc sd in
        sub_term Ea Ealpha R1 (GetMatrixElement C sa salpha) energy
      else energy in
    let energy :=
      if Kappa sc =? Kappa salpha then
        let R1 := GetTwoElectronIntegral C k sa sb salpha sd in
        sub_term Ec Ealpha R1 (GetMatrixElement C salpha sc) energy
      else energy in
    let energy :=
      if Kappa sb =? Kappa salpha then
        let R1 := GetTwoElectronIntegral C k sa salpha sc sd in
        sub_term Eb Ealpha R1 (GetMatrixElement C sb salpha) energy
      else energy in
    if Kappa sd =? Kappa salpha then
      let R1 := GetTwoElectronIntegral C k sa sb sc salpha in
      sub_term Ed Ealpha R1 (GetMatrixElement C salpha sd) energy
    else energy
  else energy.

(** [CalculateTwoElectronSub] (lines 178-231). *)
Definition CalculateTwoElectronSub (k : Z) (sa sb sc sd : OrbitalInfo) : option double :=
  Ea ← ValenceEnergies C !! Kappa sa;
  Eb ← ValenceEnergies C !! Kappa sb;
  Ec ← ValenceEnergies C !! Kappa sc;
  Ed ← ValenceEnergies C !! Kappa sd;
  Some (fold_left (CalculateTwoElectronSub_step k sa sb sc sd Ea Eb Ec Ed) (high C) zero).

Definition GetTwoElectronSubtraction (k : Z) (s1 s2 s3 s4 : OrbitalInfo) : option double :=
  CalculateTwoElectronSub k s1 s2 s3 s4.

End Sums.

End ValenceMBPT.

(** ** [MBPT/ValenceCalculator.cpp] *)

Module ValenceDirect.

Definition MAX_K : Z := 12.

(** The collaborators of the calculator: the core, the lattice, the excited
    states, and the two integrators built on the lattice. *)
Record Calculator : Type := mkCalculator {
  constants : MathConstant;
  (** [core->GetNuclearInverseMass()] *)
  NuclearInverseMass : double;
  (** [core->GetConstHFPotential().size()] *)
  HFPotentialSize : nat;
  (** [lattice->dR()] *)
  dR : list double;
  (** the states of [excited], in the order of its iterator *)
  excited : list Orbital;
  ValenceEnergies : gmap Z double;
  delta : double;
  (** [I.FastCoulombIntegrate(density, pot, k, limit)]: the new contents of [pot] *)
  FastCoulombIntegrate : list double -> list double -> Z -> nat -> list double;
  (** [SI.HamiltonianMatrixElement(s1, s2, *core)] *)
  HamiltonianMatrixElement : Orbital -> Orbital -> double;
  (** [SI.IsotopeShiftIntegral(s1, s2)] *)
  IsotopeShiftIntegral : Orbital -> Orbital -> double
}.

(** The local variables a two-body sum works on: the two scratch vectors,
    the accumulated energy, and the events so far. *)
Record Work : Type := mkWork {
  density : list double;
  pot : list double;
  energy : double;
  log : list Event
}.

Definition init_Work (MaxStateSize : nat) : Work :=
  {| density := replicate MaxStateSize zero;
     pot := replicate MaxStateSize zero;
     energy := zero;
     log := [] |}.

Definition set_density (d : list double) (w : Work) : Work :=
  {| density := d; pot := pot w; energy := energy w; log := log w |}.
Definition set_pot (p : list double) (w : Work) : Work :=
  {| density := density w; pot := p; energy := energy w; log := log w |}.
Definition add_energy (x : double) (w : Work) : Work :=
  {| density := density w; pot := pot w; energy := (energy w + x)%D; log := log w |}.
Definition emit (e : Event) (w : Work) : Work :=
  {| density := density w; pot := pot w; energy := energy w; log := log w ++ [e] |}.

(** Modelled from the spec: [Orbital::L()] and [Orbital::J()] are declared
    outside these files; an orbital has the orbital and total angular momenta
    of its label, [J = |kappa| - 1/2]. *)
Definition oL (s : Orbital) : Z := L (info_of s).
Definition oJ (s : Orbital) : double := J (info_of s).

(** [(unsigned int)(s.J() * 2.)]; for [kappa = 0] the source converts [-1.]
    to [unsigned int], which is undefined: the model gives 0. *)
Definition twoJ_of (s : Orbital) : Z := to_uint (oJ s * two)%D.

(** [s1.f[i] * s2.f[i] + s1.g[i] * s2.g[i]] *)
Definition overlap_at (s1 s2 : Orbital) (i : nat) : double :=
  ((o_f s1 !!! i) * (o_f s2 !!! i) + (o_g s1 !!! i) * (o_g s2 !!! i))%D.

(** [mmin(s1.size(), s2.size())] *)
Definition mmin (i j : nat) : nat := if (i <? j)%nat then i else j.

(** [for(i=0; i<mmin(s1.size(), s2.size()); i++) density[i] = ...].  A write
    past the end of the vector, undefined in the source, changes nothing. *)
Definition fill_density (s1 s2 : Orbital) (d : list double) : list double :=
  fold_left (fun d i => <[i := overlap_at s1 s2 i]> d)
    (seq 0 (mmin (size s1) (size s2))) d.

(** [for(i=0; i<mmin(s1.size(), s2.size()); i++) R = R + pot[i] * (...) * dR[i]],
    from [R = 0.]. *)
Definition contract (dR pot : list double) (s1 s2 : Orbital) : double :=
  fold_left (fun R i => (R + (pot !!! i) * overlap_at s1 s2 i * (dR !!! i))%D)
    (seq 0 (mmin (size s1) (size s2))) zero.

Section Sums.

Variable C : Calculator.

(** The Coulomb part of a radial integral: the density of [(s1, s2)] is
    integrated into [pot], which is then contracted with [(s3, s4)]. *)
Definition coulomb_potential (k : Z) (s1 s2 : Orbital) (w : Work) : Work :=
  let w := set_density (fill_density s1 s2 (density w)) w in
  let w := set_pot (FastCoulombIntegrate C (density w) (pot w) k
                      (mmin (size s1) (size s2))) w in
  emit (EvCoulombIntegrate k (info_of s1) (info_of s2)) w.

(** The body of the loop of [CalculateOneElectronValence1] (lines 55-64). *)
Definition CalculateOneElectronValence1_step (si sf : Orbital) (ValenceEnergy : double)
    (energy : double) (s4 : Orbital) : double :=
  if (5 <=? o_pqn s4) && (o_kappa s4 =? o_kappa si) then
    let term := (HamiltonianMatrixElement C s4 si * HamiltonianMatrixElement C s4 sf)%D in
    let term := (term / (ValenceEnergy - Energy s4 + delta C))%D in
    (energy + term)%D
  else energy.

(** [CalculateOneElectronValence1] (lines 42-70). *)
Definition CalculateOneElectronValence1 (si sf : Orbital) : option double :=
  ValenceEnergy ← ValenceEnergies C !! o_kappa si;
  Some (fold_left (CalculateOneElectronValence1_step si sf ValenceEnergy) (excited C) zero).

(** [GetOneElectronValence] (lines 14-22). *)
Definition GetOneElectronValence (s1 s2 : Orbital) : option double :=
  if negb (o_kappa s1 =? o_kappa s2) then Some zero
  else CalculateOneElectronValence1 s1 s2.

(** [R2] with its isotope-shift term, and the events of its evaluation
    (lines 174-187). *)
Definition valence1_R2 (sc sd s3 s4 : Orbital) (k2 : Z) (w : Work) : double * Work :=
  let w := coulomb_potential k2 s4 sd w in
  let R2 := contract (dR C) (pot w) s3 sc in
  if truthy (NuclearInverseMass C) && (k2 =? 1) then
    ((R2 - NuclearInverseMass C * IsotopeShiftIntegral C s3 sc * IsotopeShiftIntegral C s4 sd)%D,
     emit (EvIsotopeShiftIntegral (info_of s4) (info_of sd))
       (emit (EvIsotopeShiftIntegral (info_of s3) (info_of sc)) w))
  else (R2, w).

(** [R1] with its isotope-shift term, and the events of its evaluation
    (lines 144-157). *)
Definition valence1_R1 (sa sb s3 s4 : Orbital) (k1 : Z) (w : Work) : double * Work :=
  let w := coulomb_potential k1 sb s4 w in
  let R1 := contract (dR C) (pot w) sa s3 in
  if truthy (NuclearInverseMass C) && (k1 =? 1) then
    ((R1 - NuclearInverseMass C * IsotopeShiftIntegral C s3 sa * IsotopeShiftIntegral C s4 sb)%D,
     emit (EvIsotopeShiftIntegral (info_of s4) (info_of sb))
       (emit (EvIsotopeShiftIntegral (info_of s3) (info_of sa)) w))
  else (R1, w).

(** The body of the [k2] loop (lines 160-191). *)
Definition valence1_k2_step (k : Z) (sa sb sc sd s3 s4 : Orbital)
    (coeff_34 : double) (k1 : Z) (coeff_ab R1 : double) (k2 : Z) (w : Work) : Work :=
  let coeff := (Electron3j_q (constants C) (twoJ_of s3) (twoJ_of sc) k2 1 (-1) *
                Electron3j_q (constants C) (twoJ_of s4) (twoJ_of sd) k2 1 (-1))%D in
  let coeff :=
    if truthy coeff then
      (coeff * Wigner6j (constants C) (oJ sc) (oJ sa) (of_Z k) (of_Z k1) (of_Z k2) (oJ s3)
             * Wigner6j (constants C) (oJ sd) (oJ sb) (of_Z k) (of_Z k1) (of_Z k2) (oJ s4))%D
    else coeff in
  if truthy coeff then
    let coeff := (coeff * coeff_ab * coeff_34)%D in
    let coeff := if rem2_true (k1 + k2) then (- coeff)%D else coeff in
    let '(R2, w) := valence1_R2 sc sd s3 s4 k2 w in
    add_energy (R1 * R2 * coeff)%D w
  else w.

(** The body of the [k1] loop (lines 137-193). *)
Definition valence1_k1_step (k : Z) (sa sb sc sd s3 s4 : Orbital)
    (coeff_34 : double) (k1 : Z) (w : Work) : Work :=
  let coeff_ab := (Electron3j_q (constants C) (twoJ_of sa) (twoJ_of s3) k1 1 (-1) *
                   Electron3j_q (constants C) (twoJ_of sb) (twoJ_of s4) k1 1 (-1))%D in
  if truthy coeff_ab then
    let '(R1, w) := valence1_R1 sa sb s3 s4 k1 w in
    let start_k2 := Z.rem (oL s3 + oL sc) 2 in
    loop_step2 start_k2 MAX_K
      (valence1_k2_step k sa sb sc sd s3 s4 coeff_34 k1 coeff_ab R1) w
  else w.

(** [coeff_34] as the test [(s3.PQN() >= 5 || s4.PQN() >= 5) && coeff_34]
    sees it (lines 122-126). *)
Definition valence1_coeff_34 (k : Z) (sa sb sc sd s3 s4 : Orbital) : double :=
  let coeff_34 := (of_Z (uint32 (twoJ_of s3 + 1)) * of_Z (uint32 (twoJ_of s4 + 1))
                   * (two * of_Z k + one))%D in
  let coeff_34 :=
    if negb (Z.rem (oL sa + oL s3) 2 =? Z.rem (oL sb + oL s4) 2) then zero else coeff_34 in
  if negb (Z.rem (oL s3 + oL sc) 2 =? Z.rem (oL sd + oL s4) 2) then zero else coeff_34.

Definition valence1_pair_allowed (k : Z) (sa sb sc sd s3 s4 : Orbital) : bool :=
  ((5 <=? o_pqn s3) || (5 <=? o_pqn s4)) && truthy (valence1_coeff_34 k sa sb sc sd s3 s4).

(** [coeff_34] after the two divisions, before its sign is applied
    (lines 130-131). *)
Definition valence1_pair_weight (k : Z) (sa sb sc sd s3 s4 : Orbital)
    (coeff_ac coeff_bd ValenceEnergy : double) : double :=
  let coeff_34 := (valence1_coeff_34 k sa sb sc sd s3 s4 / (coeff_ac * coeff_bd))%D in
  (coeff_34 / (ValenceEnergy - Energy s3 - Energy s4 + delta C))%D.

(** [exponent + k + 1], computed in [unsigned int] (lines 132-133). *)
Definition valence1_pair_power (k : Z) (sa sb sc sd s3 s4 : Orbital) : Z :=
  let exponent :=
    Z.quot (uint32 (twoJ_of sa + twoJ_of sb + twoJ_of sc + twoJ_of sd
                    + twoJ_of s3 + twoJ_of s4)) 2 in
  uint32 (exponent + k + 1).

(** The body of the loop over [it4] (lines 111-195). *)
Definition valence1_pair_step (k : Z) (sa sb sc sd : Orbital)
    (coeff_ac coeff_bd ValenceEnergy : double) (s3 : Orbital)
    (w : Work) (s4 : Orbital) : Work :=
  let w := emit (EvVisit (info_of s4)) w in
  if valence1_pair_allowed k sa sb sc sd s3 s4 then
    let coeff_34 := valence1_pair_weight k sa sb sc sd s3 s4 coeff_ac coeff_bd ValenceEnergy in
    let coeff_34 :=
      if rem2_true (valence1_pair_power k sa sb sc sd s3 s4)
      then (- coeff_34)%D else coeff_34 in
    let start_k1 := Z.rem (oL sa + oL s3) 2 in
    loop_step2 start_k1 MAX_K (valence1_k1_step k sa sb sc sd s3 s4 coeff_34) w
  else w.

(** The body of the loop over [it3] (lines 106-197). *)
Definition valence1_s3_step (k : Z) (sa sb sc sd : Orbital)
    (coeff_ac coeff_bd ValenceEnergy : double) (w : Work) (s3 : Orbital) : Work :=
  fold_left (valence1_pair_step k sa sb sc sd coeff_ac coeff_bd ValenceEnergy s3)
    (excited C) (emit (EvVisit (info_of s3)) w).

(** [CalculateTwoElectronValence1] (lines 72-203); [MaxStateSize] is the
    member the callers set before the call. *)
Definition CalculateTwoElectronValence1 (MaxStateSize : nat)
    (sa sb sc sd : Orbital) (k : Z) : option Work :=
  let w := init_Work MaxStateSize in
  let coeff_ac := Electron3j_q (constants C) (twoJ_of sa) (twoJ_of sc) k 1 (-1) in
  let coeff_bd := Electron3j_q (constants C) (twoJ_of sb) (twoJ_of sd) k 1 (-1) in
  if is_zero coeff_ac || is_zero coeff_bd then Some w
  else
    Va ← ValenceEnergies C !! o_kappa sa;
    Vb ← ValenceEnergies C !! o_kappa sb;
    let ValenceEnergy := (Va + Vb)%D in
    Some (fold_left (valence1_s3_step k sa sb sc sd coeff_ac coeff_bd ValenceEnergy)
            (excited C) w).

(** [SMS_bd] and [SMS_ac]: the isotope-shift factor of the outer multipole. *)
Definition valence2_SMS (k : Z) (s1 s2 : Orbital) (w : Work) : double * Work :=
  if truthy (NuclearInverseMass C) && (k =? 1) then
    ((NuclearInverseMass C * IsotopeShiftIntegral C s1 s2)%D,
     emit (EvIsotopeShiftIntegral (info_of s1) (info_of s2)) w)
  else (zero, w).

(** One hole-line term of the subtraction sum: [R1] is the contraction of [pot]
    with [(c1, c2)], corrected by [SMS * IsotopeShiftIntegral(i1, i2)] with
    the sign [minus] when [SMS] is not zero, and the term is
    [R1 * <sx|H|s3> / (ValenceEnergies[sx.Kappa()] - s3.Energy() + delta)]. *)
Definition valence2_term (SMS : double) (minus : bool) (c1 c2 i1 i2 sx s3 : Orbital)
    (w : Work) : option Work :=
  let R1 := contract (dR C) (pot w) c1 c2 in
  let '(R1, w) :=
    if truthy SMS then
      ((if minus then R1 - SMS * IsotopeShiftIntegral C i1 i2
        else R1 + SMS * IsotopeShiftIntegral C i1 i2)%D,
       emit (EvIsotopeShiftIntegral (info_of i1) (info_of i2)) w)
    else (R1, w) in
  Ex ← ValenceEnergies C !! o_kappa sx;
  Some (add_energy (R1 * HamiltonianMatrixElement C sx s3 / (Ex - Energy s3 + delta C))%D w).

(** The body of either loop over [it3]: the hole line is attached to [sx]
    (whose partner in the contraction is [sz]) or to [sz] (whose partner is
    [sx]). *)
Definition valence2_step (SMS : double) (sx sz : Orbital)
    (w : Work) (s3 : Orbital) : option Work :=
  let w := emit (EvVisit (info_of s3)) w in
  w ← (if (5 <=? o_pqn s3) && (o_kappa s3 =? o_kappa sx)
       then valence2_term SMS true s3 sz s3 sz sx s3 w else Some w);
  if (5 <=? o_pqn s3) && (o_kappa s3 =? o_kappa sz)
  then valence2_term SMS false sx s3 s3 sx sz s3 w else Some w.

(** A loop whose body can fail. *)
Fixpoint fold_left_opt {A B : Type} (f : A -> B -> option A) (l : list B) (a : A) : option A :=
  match l with
  | [] => Some a
  | b :: l' => a' ← f a b; fold_left_opt f l' a'
  end.

(** [CalculateTwoElectronValence2] (lines 205-316). *)
Definition CalculateTwoElectronValence2 (MaxStateSize : nat)
    (sa sb sc sd : Orbital) (k : Z) : option Work :=
  let w := init_Work MaxStateSize in
  (* Hole line is attached to sa or sc *)
  let w := coulomb_potential k sb sd w in
  let '(SMS_bd, w) := valence2_SMS k sb sd w in
  w ← fold_left_opt (valence2_step SMS_bd sa sc) (excited C) w;
  (* Hole line is attached to sb or sd *)
  let w := coulomb_potential k sa sc w in
  let '(SMS_ac, w) := valence2_SMS k sa sc w in
  fold_left_opt (valence2_step SMS_ac sb sd) (excited C) w.

(** [GetTwoElectronValence]: the energy and the events of both sums. *)
Definition GetTwoElectronValence (s1 s2 s3 s4 : Orbital) (k : Z) : option Acc :=
  let MaxStateSize := HFPotentialSize C in
  let term := zero in
  w1 ← CalculateTwoElectronValence1 MaxStateSize s1 s2 s3 s4 k;
  let term := (term + energy w1)%D in
  w2 ← CalculateTwoElectronValence2 MaxStateSize s1 s2 s3 s4 k;
  let term := (term + energy w2)%D in
  Some (term, log w1 ++ log w2).

Definition GetTwoElectronBoxValence (s1 s2 s3 s4 : Orbital) (k : Z) : option Acc :=
  let MaxStateSize := HFPotentialSize C in
  w ← CalculateTwoElectronValence1 MaxStateSize s1 s2 s3 s4 k;
  Some (energy w, log w).

End Sums.

End ValenceDirect.

(** ** Spinor functions

    Modelled from the spec: [SpinorFunction] ([Universal/SpinorFunction.h])
    is outside these files.  A spinor function has an angular channel [kappa]
    and four sampled components of one common length; a fresh one is empty;
    [resize] truncates or pads with zeros (a wavefunction shorter than the
    potential is zero-padded); [+=] and [-=] first grow the left side to the
    length of the right side and then combine the components pointwise over
    the length of the right side; [*=] scales every sample. *)
Record SpinorFunction : Type := mkSpinorFunction {
  sf_kappa : Z;
  sf_f : list double;
  sf_g : list double;
  sf_dfdr : list double;
  sf_dgdr : list double
}.

Definition sf_size (s : SpinorFunction) : nat := length (sf_f s).

Definition SpinorFunction_empty (kappa : Z) : SpinorFunction :=
  {| sf_kappa := kappa; sf_f := []; sf_g := []; sf_dfdr := []; sf_dgdr := [] |}.

Definition sf_resize (n : nat) (s : SpinorFunction) : SpinorFunction :=
  {| sf_kappa := sf_kappa s;
     sf_f := resize n zero (sf_f s);
     sf_g := resize n zero (sf_g s);
     sf_dfdr := resize n zero (sf_dfdr s);
     sf_dgdr := resize n zero (sf_dgdr s) |}.

(** [l[i] = op(l[i], other[i])] for every [i] below the length of [other],
    [l] being padded with zeros where it is shorter. *)
Fixpoint combine_onto (op : double -> double -> double) (l other : list double) : list double :=
  match l, other with
  | x :: l', y :: other' => op x y :: combine_onto op l' other'
  | [], y :: other' => op zero y :: combine_onto op [] other'
  | _, [] => l
  end.

Definition sf_combine (op : double -> double -> double) (s other : SpinorFunction) : SpinorFunction :=
  {| sf_kappa := sf_kappa s;
     sf_f := combine_onto op (sf_f s) (sf_f other);
     sf_g := combine_onto op (sf_g s) (sf_g other);
     sf_dfdr := combine_onto op (sf_dfdr s) (sf_dfdr other);
     sf_dgdr := combine_onto op (sf_dgdr s) (sf_dgdr other) |}.

Definition sf_add : SpinorFunction -> SpinorFunction -> SpinorFunction := sf_combine add.
Definition sf_sub : SpinorFunction -> SpinorFunction -> SpinorFunction := sf_combine sub.

Definition sf_scale (c : double) (s : SpinorFunction) : SpinorFunction :=
  {| sf_kappa := sf_kappa s;
     sf_f := (fun x => (x * c)%D) <$> sf_f s;
     sf_g := (fun x => (x * c)%D) <$> sf_g s;
     sf_dfdr := (fun x => (x * c)%D) <$> sf_dfdr s;
     sf_dgdr := (fun x => (x * c)%D) <$> sf_dgdr s |}.

(** The number of lattice points a spinor function has samples on, over
    its four components. *)
Definition sf_extent (s : SpinorFunction) : nat :=
  Nat.max (Nat.max (length (sf_f s)) (length (sf_g s)))
    (Nat.max (length (sf_dfdr s)) (length (sf_dgdr s))).

(** ** [MBPT/BruecknerDecorator.cpp] *)

Module Brueckner.

(** Modelled from the spec: [itoa] is declared [extern] in [Include.h] and
    defined elsewhere.  The file of a channel is named
    [{identifier}.{kappa}.sigma], with [kappa] written in decimal. *)
Definition itoa (value : Z) : string := pretty value.

Definition sigma_filename (identifier : string) (kappa : Z) : string :=
  identifier +:+ "." +:+ itoa kappa +:+ ".sigma".

(** The lattice: only its current size matters here. *)
Record Lattice : Type := mkLattice {
  NumPoints : nat;
  lattice_r : list double;
  lattice_dr : list double
}.

Definition lattice_size (lat : Lattice) : nat := NumPoints lat.

(** A wavefunction handed to [SetODEParameters]: a spinor function with its
    principal quantum number and energy. *)
Record SingleParticleWavefunction : Type := mkSingleParticleWavefunction {
  spw_spinor : SpinorFunction;
  spw_pqn : Z;
  spw_energy : double
}.

(** The classes the decorator works with, all defined outside this file:
    the sigma potential, the wrapped Hartree-Fock operator, the calculator
    of second-order sigmas, and the interpolator. *)
Record Collaborators : Type := mkCollaborators {
  SigmaPotential : Type;
  HFOperator : Type;
  BruecknerSigmaCalculator : Type;
  OrbitalManager : Type;
  HartreeY : Type;
  (** [new SigmaPotential(size, matrix_size)] *)
  SigmaPotential_new : nat -> nat -> SigmaPotential;
  (** [sigma->IncludeLower(use_fg, use_gg)] *)
  IncludeLower : bool -> bool -> SigmaPotential -> SigmaPotential;
  (** [sigma->size()] *)
  SigmaPotential_size : SigmaPotential -> nat;
  (** [sigma->ApplyTo(s, lattice)] *)
  SigmaPotential_ApplyTo : SigmaPotential -> SpinorFunction -> Lattice -> SpinorFunction;
  (** [new BruecknerSigmaCalculator(orbitals, hf, hartreeY)] *)
  BruecknerSigmaCalculator_new : OrbitalManager -> HFOperator -> HartreeY -> BruecknerSigmaCalculator;
  (** [calculator->GetSecondOrderSigma(kappa, *sigma)]: the new contents of [sigma] *)
  GetSecondOrderSigma : BruecknerSigmaCalculator -> Z -> SigmaPotential -> SigmaPotential;
  (** the wrapped operator *)
  wrapped_SetODEParameters : SingleParticleWavefunction -> HFOperator -> HFOperator;
  wrapped_GetExchange : HFOperator -> option SingleParticleWavefunction -> SpinorFunction;
  wrapped_GetODEFunction : HFOperator -> nat -> SpinorFunction -> double * double -> double * double;
  wrapped_GetODECoefficients : HFOperator -> nat -> SpinorFunction ->
    (double * double) * (double * double) * (double * double) ->
    (double * double) * (double * double) * (double * double);
  wrapped_GetODEJacobian : HFOperator -> nat -> SpinorFunction ->
    ((double * double) * (double * double)) * (double * double) ->
    ((double * double) * (double * double)) * (double * double);
  wrapped_ApplyTo : HFOperator -> SpinorFunction -> SpinorFunction;
  (** [interp.GetDerivative(y, dydr, order)] on the lattice: the new [dydr] *)
  GetDerivative : Lattice -> list double -> list double -> Z -> list double;
  (** [physicalConstant->GetAlpha()] *)
  GetAlpha : double
}.

(** What the environment answers when a fresh [SigmaPotential] is asked to
    [Read(filename)]: the loaded potential when it returns [true], nothing
    when it returns [false]. *)
Definition FileReader (X : Collaborators) : Type := string -> option (SigmaPotential X).

(** What the decorator asks of its collaborators, in order. *)
Inductive Effect (X : Collaborators) : Type :=
  | EvGetSecondOrderSigma (kappa : Z)
  | EvRead (filename : string)
  | EvWrite (filename : string) (sigma : SigmaPotential X).
Arguments EvGetSecondOrderSigma {X} _.
Arguments EvRead {X} _.
Arguments EvWrite {X} _ _.

(** The members of the decorator. *)
Record Decorator (X : Collaborators) : Type := mkDecorator {
  wrapped : HFOperator X;
  lattice : Lattice;
  sigmas : gmap Z (SigmaPotential X);
  lambda : double;
  use_fg : bool;
  use_gg : bool;
  include_nonlocal : bool;
  currentExchangePotential : SpinorFunction
}.
Arguments wrapped {X} _.
Arguments lattice {X} _.
Arguments sigmas {X} _.
Arguments lambda {X} _.
Arguments use_fg {X} _.
Arguments use_gg {X} _.
Arguments include_nonlocal {X} _.
Arguments currentExchangePotential {X} _.

Section Decorator.

Context {X : Collaborators}.

Definition set_sigmas (m : gmap Z (SigmaPotential X)) (d : Decorator X) : Decorator X :=
  {| wrapped := wrapped d; lattice := lattice d; sigmas := m; lambda := lambda d;
     use_fg := use_fg d; use_gg := use_gg d; include_nonlocal := include_nonlocal d;
     currentExchangePotential := currentExchangePotential d |}.

Definition set_currentExchangePotential (s : SpinorFunction) (d : Decorator X) : Decorator X :=
  {| wrapped := wrapped d; lattice := lattice d; sigmas := sigmas d; lambda := lambda d;
     use_fg := use_fg d; use_gg := use_gg d; include_nonlocal := include_nonlocal d;
     currentExchangePotential := s |}.

Definition set_wrapped (w : HFOperator X) (d : Decorator X) : Decorator X :=
  {| wrapped := w; lattice := lattice d; sigmas := sigmas d; lambda := lambda d;
     use_fg := use_fg d; use_gg := use_gg d; include_nonlocal := include_nonlocal d;
     currentExchangePotential := currentExchangePotential d |}.

(** [CalculateSigma(kappa, brueckner_calculator)] *)
Definition CalculateSigma (kappa : Z) (brueckner_calculator : BruecknerSigmaCalculator X)
    (d : Decorator X) : Decorator X * list (Effect X) :=
  match sigmas d !! kappa with
  | None =>
      let sigma := SigmaPotential_new X (lattice_size (lattice d)) 100 in
      let sigma := IncludeLower X (use_fg d) (use_gg d) sigma in
      let sigma := GetSecondOrderSigma X brueckner_calculator kappa sigma in
      (set_sigmas (<[kappa := sigma]> (sigmas d)) d, [EvGetSecondOrderSigma kappa])
  | Some _ => (d, [])
  end.

(** [CalculateSigma(kappa, orbitals, hartreeY, bare_hf)] *)
Definition CalculateSigma_from (kappa : Z) (orbitals : OrbitalManager X) (hartreeY : HartreeY X)
    (bare_hf : option (HFOperator X)) (d : Decorator X) : Decorator X * list (Effect X) :=
  match sigmas d !! kappa with
  | None =>
      let calculator :=
        match bare_hf with
        | Some hf => BruecknerSigmaCalculator_new X orbitals hf hartreeY
        | None => BruecknerSigmaCalculator_new X orbitals (wrapped d) hartreeY
        end in
      CalculateSigma kappa calculator d
  | Some _ => (d, [])
  end.

(** [Read(identifier, kappa)]: a [void] function. *)
Definition Read (reader : FileReader X) (identifier : string) (kappa : Z)
    (d : Decorator X) : Decorator X * list (Effect X) :=
  let filename := sigma_filename identifier kappa in
  match reader filename with
  | Some sigma => (set_sigmas (<[kappa := sigma]> (sigmas d)) d, [EvRead filename])
  | None => (d, [EvRead filename])
  end.

(** [Write(identifier, kappa) const] *)
Definition Write_one (identifier : string) (kappa : Z) (d : Decorator X) : list (Effect X) :=
  match sigmas d !! kappa with
  | Some sigma => [EvWrite (sigma_filename identifier kappa) sigma]
  | None => []
  end.

(** The entries of a [std::map<int, _>] in the order of its iterator:
    by increasing key. *)
Definition key_le {V : Type} (p q : Z * V) : Prop := p.1 <= q.1.

#[global] Instance key_le_dec {V : Type} (p q : Z * V) : Decision (key_le p q) :=
  Z_le_dec p.1 q.1.

Definition entries_in_order {V : Type} (m : gmap Z V) : list (Z * V) :=
  merge_sort key_le (map_to_list m).

(** [Write(identifier) const] *)
Definition Write (identifier : string) (d : Decorator X) : list (Effect X) :=
  (fun pair => EvWrite (sigma_filename identifier pair.1) pair.2) <$> entries_in_order (sigmas d).

(** [Alert()] *)
Definition Alert (d : Decorator X) : Decorator X :=
  if (lattice_size (lattice d) <? sf_size (currentExchangePotential d))%nat
  then set_currentExchangePotential
         (sf_resize (lattice_size (lattice d)) (currentExchangePotential d)) d
  else d.

(** [CalculateExtraNonlocal(s, include_derivative) const] *)
Definition CalculateExtraNonlocal (d : Decorator X) (s : SpinorFunction)
    (include_derivative : bool) : SpinorFunction :=
  let ret := SpinorFunction_empty (sf_kappa s) in
  match sigmas d !! sf_kappa s with
  | Some sigma =>
      let ret :=
        if (sf_size s <? SigmaPotential_size X sigma)%nat then
          let bigger_s := sf_resize (SigmaPotential_size X sigma) s in
          SigmaPotential_ApplyTo X sigma bigger_s (lattice d)
        else SigmaPotential_ApplyTo X sigma s (lattice d) in
      let ret := sf_scale (- lambda d)%D ret in
      if include_derivative then
        let dfdr := GetDerivative X (lattice d) (sf_f ret) (sf_dfdr ret) 6 in
        let dgdr := GetDerivative X (lattice d) (sf_g ret) (sf_dgdr ret) 6 in
        {| sf_kappa := sf_kappa ret; sf_f := sf_f ret; sf_g := sf_g ret;
           sf_dfdr := dfdr; sf_dgdr := dgdr |}
      else ret
  | None => ret
  end.

(** [SetODEParameters(approximation)] *)
Definition SetODEParameters (approximation : SingleParticleWavefunction)
    (d : Decorator X) : Decorator X :=
  let d := set_wrapped (wrapped_SetODEParameters X approximation (wrapped d)) d in
  set_currentExchangePotential (CalculateExtraNonlocal d (spw_spinor approximation) true) d.

(** [GetExchange(approximation) const] *)
Definition GetExchange (d : Decorator X) (approximation : option SingleParticleWavefunction)
    : SpinorFunction :=
  let ret := wrapped_GetExchange X (wrapped d) approximation in
  match approximation with
  | None => sf_add ret (currentExchangePotential d)
  | Some a => sf_add ret (CalculateExtraNonlocal d (spw_spinor a) true)
  end.

(** Whether the extra term is added at [latticepoint]. *)
Definition injects (d : Decorator X) (latticepoint : nat) : bool :=
  include_nonlocal d && (latticepoint <? sf_size (currentExchangePotential d))%nat.

(** [GetODEFunction(latticepoint, fg, w) const] *)
Definition GetODEFunction (d : Decorator X) (latticepoint : nat) (fg : SpinorFunction)
    (w : double * double) : double * double :=
  let w := wrapped_GetODEFunction X (wrapped d) latticepoint fg w in
  if injects d latticepoint then
    let alpha := GetAlpha X in
    ((w.1 + alpha * (sf_g (currentExchangePotential d) !!! latticepoint))%D,
     (w.2 - alpha * (sf_f (currentExchangePotential d) !!! latticepoint))%D)
  else w.

(** [GetODECoefficients(latticepoint, fg, w_f, w_g, w_const) const] *)
Definition GetODECoefficients (d : Decorator X) (latticepoint : nat) (fg : SpinorFunction)
    (w : (double * double) * (double * double) * (double * double))
    : (double * double) * (double * double) * (double * double) :=
  let '(w_f, w_g, w_const) := wrapped_GetODECoefficients X (wrapped d) latticepoint fg w in
  if injects d latticepoint then
    let alpha := GetAlpha X in
    (w_f, w_g,
     ((w_const.1 + alpha * (sf_g (currentExchangePotential d) !!! latticepoint))%D,
      (w_const.2 - alpha * (sf_f (currentExchangePotential d) !!! latticepoint))%D))
  else (w_f, w_g, w_const).

(** [GetODEJacobian(latticepoint, fg, jacobian, dwdr) const] *)
Definition GetODEJacobian (d : Decorator X) (latticepoint : nat) (fg : SpinorFunction)
    (jd : ((double * double) * (double * double)) * (double * double))
    : ((double * double) * (double * double)) * (double * double) :=
  let '(jacobian, dwdr) := wrapped_GetODEJacobian X (wrapped d) latticepoint fg jd in
  if injects d latticepoint then
    let alpha := GetAlpha X in
    (jacobian,
     ((dwdr.1 + alpha * (sf_dgdr (currentExchangePotential d) !!! latticepoint))%D,
      (dwdr.2 - alpha * (sf_dfdr (currentExchangePotential d) !!! latticepoint))%D))
  else (jacobian, dwdr).

(** [ApplyTo(a) const] *)
Definition ApplyTo (d : Decorator X) (a : SpinorFunction) : SpinorFunction :=
  let ta := wrapped_ApplyTo X (wrapped d) a in
  sf_sub ta (CalculateExtraNonlocal d a false).

End Decorator.

End Brueckner.

(** ** Reference notions, in the words of the specification *)

(** [k] is consistent with the triangle rule for the pair of lines
    [(s1, s2)] and with the parity of their L sum:
    [|j1 - j2| <= k <= j1 + j2] and [L1 + L2 + k] even. *)
Definition triangle_allowed (s1 s2 : OrbitalInfo) (k : Z) : Prop :=
  Z.abs (TwoJ s1 - TwoJ s2) <= 2 * k <= TwoJ s1 + TwoJ s2 /\
  Z.even (L s1 + L s2 + k) = true.

(** The selection rules on an intermediate pair: the two L sums on either
    side have equal parity, and at least one intermediate line is in
    Q-space. *)
Definition pair_passes (inQ_alpha inQ_beta : bool) (La Lb Lc Ld Lalpha Lbeta : Z) : Prop :=
  (inQ_alpha = true \/ inQ_beta = true) /\
  Z.even (La + Lalpha) = Z.even (Lb + Lbeta) /\
  Z.even (Lalpha + Lc) = Z.even (Lbeta + Ld).

(** The values of an internal multipole that the direct sum goes through
    for the pair of lines [(s1, s2)]. *)
Definition direct_k_values (s1 s2 : Orbital) : list Z :=
  range_step2 (Z.rem (ValenceDirect.oL s1 + ValenceDirect.oL s2) 2) ValenceDirect.MAX_K.

(** The values of an internal multipole that the stored-integral sum goes
    through for the pair of lines [(s1, s2)]. *)
Definition stored_k_values (C : ValenceMBPT.Calculator) (s1 s2 : OrbitalInfo) : list Z :=
  range_step2 (ValenceMBPT.kmin C s1 s2) (ValenceMBPT.kmax C s1 s2).

(** The parity that decides the first sign of a term: half the sum of the
    six [TwoJ], plus the outer multipole, plus one. *)
Definition six_line_power (k : Z) (sa sb sc sd salpha sbeta : OrbitalInfo) : Z :=
  (TwoJ sa + TwoJ sb + TwoJ sc + TwoJ sd + TwoJ salpha + TwoJ sbeta) / 2 + k + 1.

(** A term with its two signs: negated when [six_line_power] is odd, and
    negated once more when [k1 + k2] is odd. *)
Definition signed (k : Z) (sa sb sc sd salpha sbeta : OrbitalInfo) (k1 k2 : Z)
    (magnitude : double) : double :=
  cond_opp (Z.odd (k1 + k2))
    (cond_opp (Z.odd (six_line_power k sa sb sc sd salpha sbeta)) magnitude).

Module StoredReference.

Section Reference.

Variable C : ValenceMBPT.Calculator.

(** The product of the two 3j coefficients of [k1]. *)
Definition coeff_ab (sa sb salpha sbeta : OrbitalInfo) (k1 : Z) : double :=
  (Electron3j (ValenceMBPT.constants C) (TwoJ sa) (TwoJ salpha) k1 *
   Electron3j (ValenceMBPT.constants C) (TwoJ sb) (TwoJ sbeta) k1)%D.

(** The product of the two 3j coefficients of [k2] and, when it is not zero,
    of the two 6j coefficients. *)
Definition angular (k : Z) (sa sb sc sd salpha sbeta : OrbitalInfo) (k1 k2 : Z) : double :=
  let coeff := (Electron3j (ValenceMBPT.constants C) (TwoJ salpha) (TwoJ sc) k2 *
                Electron3j (ValenceMBPT.constants C) (TwoJ sbeta) (TwoJ sd) k2)%D in
  if truthy coeff then
    (coeff * Wigner6j (ValenceMBPT.constants C) (J sc) (J sa) (of_Z k) (of_Z k1) (of_Z k2) (J salpha)
           * Wigner6j (ValenceMBPT.constants C) (J sd) (J sb) (of_Z k) (of_Z k1) (of_Z k2) (J sbeta))%D
  else coeff.

(** The term [R1 * R2 * coeff] with both sign factors taken as [+1]. *)
Definition magnitude (k : Z) (sa sb sc sd salpha sbeta : OrbitalInfo)
    (weight : double) (k1 k2 : Z) : double :=
  (ValenceMBPT.GetTwoElectronIntegral C k1 sa sb salpha sbeta
   * ValenceMBPT.GetTwoElectronIntegral C k2 salpha sbeta sc sd
   * (angular k sa sb sc sd salpha sbeta k1 k2 * coeff_ab sa sb salpha sbeta k1
      * (weight * one)))%D.

(** The body of the loop over [it_beta], every accumulated term written as
    a signed magnitude. *)
Definition pair_step (k : Z) (sa sb sc sd : OrbitalInfo)
    (coeff_ac coeff_bd ValenceEnergy : double) (it_alpha : OrbitalInfo * Orbital)
    (st : Acc) (it_beta : OrbitalInfo * Orbital) : Acc :=
  let salpha := it_alpha.1 in
  let sbeta := it_beta.1 in
  let weight := ValenceMBPT.valence_pair_weight C k salpha sbeta coeff_ac coeff_bd
                  ValenceEnergy (Energy it_alpha.2) (Energy it_beta.2) in
  let st := visit sbeta st in
  if ValenceMBPT.valence_pair_allowed C sa sb sc sd salpha sbeta then
    fold_left (fun st k1 =>
      if truthy (coeff_ab sa sb salpha sbeta k1) then
        fold_left (fun st k2 =>
          if truthy (angular k sa sb sc sd salpha sbeta k1 k2) then
            accumulate
              (signed k sa sb sc sd salpha sbeta k1 k2
                 (magnitude k sa sb sc sd salpha sbeta weight k1 k2))
              (request (EvTwoElectronIntegral k2 salpha sbeta sc sd) st)
          else st)
          (stored_k_values C salpha sc)
          (request (EvTwoElectronIntegral k1 sa sb salpha sbeta) st)
      else st)
      (stored_k_values C sa salpha) st
  else st.

(** The whole sum, with that body. *)
Definition CalculateTwoElectronValence (k : Z) (sa sb sc sd : OrbitalInfo) : option Acc :=
  let coeff_ac := Electron3j (ValenceMBPT.constants C) (TwoJ sa) (TwoJ sc) k in
  let coeff_bd := Electron3j (ValenceMBPT.constants C) (TwoJ sb) (TwoJ sd) k in
  if is_zero coeff_ac || is_zero coeff_bd then Some (zero, [])
  else
    Va ← ValenceMBPT.ValenceEnergies C !! Kappa sa;
    Vb ← ValenceMBPT.ValenceEnergies C !! Kappa sb;
    Some (fold_left
            (fun st it_alpha =>
               fold_left (pair_step k sa sb sc sd coeff_ac coeff_bd (Va + Vb)%D it_alpha)
                 (ValenceMBPT.excited C) (visit it_alpha.1 st))
            (ValenceMBPT.excited C) (zero, [])).

End Reference.

End StoredReference.

Module DirectReference.

Section Reference.

Variable D : ValenceDirect.Calculator.

Definition coeff_ab (sa sb s3 s4 : Orbital) (k1 : Z) : double :=
  (Electron3j_q (ValenceDirect.constants D)
     (ValenceDirect.twoJ_of sa) (ValenceDirect.twoJ_of s3) k1 1 (-1) *
   Electron3j_q (ValenceDirect.constants D)
     (ValenceDirect.twoJ_of sb) (ValenceDirect.twoJ_of s4) k1 1 (-1))%D.

Definition angular (k : Z) (sa sb sc sd s3 s4 : Orbital) (k1 k2 : Z) : double :=
  let coeff := (Electron3j_q (ValenceDirect.constants D)
                  (ValenceDirect.twoJ_of s3) (ValenceDirect.twoJ_of sc) k2 1 (-1) *
                Electron3j_q (ValenceDirect.constants D)
                  (ValenceDirect.twoJ_of s4) (ValenceDirect.twoJ_of sd) k2 1 (-1))%D in
  if truthy coeff then
    (coeff * Wigner6j (ValenceDirect.constants D) (ValenceDirect.oJ sc) (ValenceDirect.oJ sa)
               (of_Z k) (of_Z k1) (of_Z k2) (ValenceDirect.oJ s3)
           * Wigner6j (ValenceDirect.constants D) (ValenceDirect.oJ sd) (ValenceDirect.oJ sb)
               (of_Z k) (of_Z k1) (of_Z k2) (ValenceDirect.oJ s4))%D
  else coeff.

(** The term [R1 * R2 * coeff] with both sign factors taken as [+1]. *)
Definition magnitude (k : Z) (sa sb sc sd s3 s4 : Orbital)
    (weight : double) (k1 k2 : Z) (R1 R2 : double) : double :=
  (R1 * R2 * (angular k sa sb sc sd s3 s4 k1 k2 * coeff_ab sa sb s3 s4 k1 * weight))%D.

(** The body of the loop over [it4], every accumulated term written as a
    signed magnitude. *)
Definition pair_step (k : Z) (sa sb sc sd : Orbital)
    (coeff_ac coeff_bd ValenceEnergy : double) (s3 : Orbital)
    (w : ValenceDirect.Work) (s4 : Orbital) : ValenceDirect.Work :=
  let weight := ValenceDirect.valence1_pair_weight D k sa sb sc sd s3 s4
                  coeff_ac coeff_bd ValenceEnergy in
  let w := ValenceDirect.emit (EvVisit (info_of s4)) w in
  if ValenceDirect.valence1_pair_allowed k sa sb sc sd s3 s4 then
    fold_left (fun w k1 =>
      if truthy (coeff_ab sa sb s3 s4 k1) then
        let '(R1, w) := ValenceDirect.valence1_R1 D sa sb s3 s4 k1 w in
        fold_left (fun w k2 =>
          if truthy (angular k sa sb sc sd s3 s4 k1 k2) then
            let '(R2, w) := ValenceDirect.valence1_R2 D sc sd s3 s4 k2 w in
            ValenceDirect.add_energy
              (signed k (info_of sa) (info_of sb) (info_of sc) (info_of sd)
                 (info_of s3) (info_of s4) k1 k2
                 (magnitude k sa sb sc sd s3 s4 weight k1 k2 R1 R2)) w
          else w)
          (direct_k_values s3 sc) w
      else w)
      (direct_k_values sa s3) w
  else w.

(** The whole sum, with that body. *)
Definition CalculateTwoElectronValence1 (MaxStateSize : nat)
    (sa sb sc sd : Orbital) (k : Z) : option ValenceDirect.Work :=
  let coeff_ac := Electron3j_q (ValenceDirect.constants D)
                    (ValenceDirect.twoJ_of sa) (ValenceDirect.twoJ_of sc) k 1 (-1) in
  let coeff_bd := Electron3j_q (ValenceDirect.constants D)
                    (ValenceDirect.twoJ_of sb) (ValenceDirect.twoJ_of sd) k 1 (-1) in
  if is_zero coeff_ac || is_zero coeff_bd then Some (ValenceDirect.init_Work MaxStateSize)
  else
    Va ← ValenceDirect.ValenceEnergies D !! o_kappa sa;
    Vb ← ValenceDirect.ValenceEnergies D !! o_kappa sb;
    Some (fold_left
            (fun w s3 =>
               fold_left (pair_step k sa sb sc sd coeff_ac coeff_bd (Va + Vb)%D s3)
                 (ValenceDirect.excited D) (ValenceDirect.emit (EvVisit (info_of s3)) w))
            (ValenceDirect.excited D) (ValenceDirect.init_Work MaxStateSize)).

End Reference.

End DirectReference.

(** The one-body correction as the specification writes it: the sum, over
    the Q-space intermediate orbitals of the kappa of [s1], of
    [<s1|alpha> <alpha|s2> / (ValenceEnergy - E_alpha + delta)], added up in
    the order of the orbitals. *)
Definition sum_of (terms : list double) : double := fold_left add terms zero.

Definition stored_one_body_terms (C : ValenceMBPT.Calculator) (s1 s2 : OrbitalInfo)
    (ValenceEnergy : double) : list double :=
  List.map
    (fun it : OrbitalInfo * Orbital =>
       (ValenceMBPT.GetMatrixElement C s1 it.1 * ValenceMBPT.GetMatrixElement C it.1 s2
        / (ValenceEnergy - Energy it.2 + ValenceMBPT.delta C))%D)
    (List.filter
       (fun it : OrbitalInfo * Orbital =>
          ValenceMBPT.InQSpace C it.1 && (Kappa s1 =? Kappa it.1))
       (ValenceMBPT.high C)).

(** On the wavefunctions the matrix elements are those of the Hamiltonian,
    asked for with the intermediate orbital first, and Q-space is
    [PQN >= 5]. *)
Definition direct_one_body_terms (D : ValenceDirect.Calculator) (s1 s2 : Orbital)
    (ValenceEnergy : double) : list double :=
  List.map
    (fun alpha : Orbital =>
       (ValenceDirect.HamiltonianMatrixElement D alpha s1
        * ValenceDirect.HamiltonianMatrixElement D alpha s2
        / (ValenceEnergy - Energy alpha + ValenceDirect.delta D))%D)
    (List.filter
       (fun alpha : Orbital => (5 <=? o_pqn alpha) && (o_kappa alpha =? o_kappa s1))
       (ValenceDirect.excited D)).

(** The same terms with the first matrix element written [<s1|H|alpha>]. *)
Definition direct_one_body_terms_sym (D : ValenceDirect.Calculator) (s1 s2 : Orbital)
    (ValenceEnergy : double) : list double :=
  List.map
    (fun alpha : Orbital =>
       (ValenceDirect.HamiltonianMatrixElement D s1 alpha
        * ValenceDirect.HamiltonianMatrixElement D alpha s2
        / (ValenceEnergy - Energy alpha + ValenceDirect.delta D))%D)
    (List.filter
       (fun alpha : Orbital => (5 <=? o_pqn alpha) && (o_kappa alpha =? o_kappa s1))
       (ValenceDirect.excited D)).

(** A radial integral [R] of multipole [k] with the isotope-shift rule of
    the specification: when the nuclear inverse mass is not zero and [k] is
    1, the cross term is taken off [R]; otherwise [R] is used as it is. *)
Definition isotope_shifted (NuclearInverseMass : double) (k : Z) (R cross : double) : double :=
  if truthy NuclearInverseMass && (k =? 1) then (R - cross)%D else R.

(** The same calculator with another isotope-shift integral. *)
Definition with_IsotopeShiftIntegral (isi : Orbital -> Orbital -> double)
    (D : ValenceDirect.Calculator) : ValenceDirect.Calculator :=
  {| ValenceDirect.constants := ValenceDirect.constants D;
     ValenceDirect.NuclearInverseMass := ValenceDirect.NuclearInverseMass D;
     ValenceDirect.HFPotentialSize := ValenceDirect.HFPotentialSize D;
     ValenceDirect.dR := ValenceDirect.dR D;
     ValenceDirect.excited := ValenceDirect.excited D;
     ValenceDirect.ValenceEnergies := ValenceDirect.ValenceEnergies D;
     ValenceDirect.delta := ValenceDirect.delta D;
     ValenceDirect.FastCoulombIntegrate := ValenceDirect.FastCoulombIntegrate D;
     ValenceDirect.HamiltonianMatrixElement := ValenceDirect.HamiltonianMatrixElement D;
     ValenceDirect.IsotopeShiftIntegral := isi |}.

(** The angular quantum numbers for which [(unsigned int)(J * 2.)] has been
    checked against [TwoJ]. *)
Definition small_kappa (s : Orbital) : Prop := 1 <= Z.abs (o_kappa s) <= 1024.

(** The check itself: [(unsigned int)(J * 2.)] against [2 |kappa| - 1]. *)
Definition twoJ_checked (kap : Z) : bool :=
  to_uint ((fabs (of_Z kap) - half) * two)%D =? 2 * Z.abs kap - 1.

(** ** Small systems to evaluate the definitions on *)

Module Examples.

(** A table of angular coefficients: 1 inside the triangle, 0 outside. *)
Definition in_triangle (twoj1 twoj2 k : Z) : double :=
  if (Z.abs (twoj1 - twoj2) <=? 2 * k) && (2 * k <=? twoj1 + twoj2) then one else zero.

Definition toy_constants : MathConstant :=
  {| Electron3j := in_triangle;
     Electron3j_q := fun twoj1 twoj2 k _ _ => in_triangle twoj1 twoj2 k;
     Wigner6j := fun _ _ _ _ _ _ => one |}.

Definition orbital (n kap : Z) (e : double) (samples : list double) : Orbital :=
  {| o_kappa := kap; o_pqn := n; o_energy := e; o_f := samples; o_g := samples |}.

Definition entry (s : Orbital) : OrbitalInfo * Orbital := (info_of s, s).

Definition s_5s : Orbital := orbital 5 (-1) (of_Z (-2)) [one; one].
Definition s_6s : Orbital := orbital 6 (-1) (of_Z (-1)) [one; one].
Definition s_6p : Orbital := orbital 6 1 (of_Z (-1)) [one; one].
Definition s_3d : Orbital := orbital 3 (-3) (of_Z (-3)) [one; one].
Definition s_7i : Orbital := orbital 7 (-7) (of_Z (-1)) [one; one].
Definition s_8k : Orbital := orbital 8 (-8) (of_Z (-1)) [one; one].

Definition toy_kmin (s1 s2 : OrbitalInfo) : Z :=
  let k0 := Z.abs (TwoJ s1 - TwoJ s2) / 2 in
  if Z.even (L s1 + L s2 + k0) then k0 else k0 + 1.

Definition toy_kmax (s1 s2 : OrbitalInfo) : Z :=
  let k0 := (TwoJ s1 + TwoJ s2) / 2 in
  if Z.even (L s1 + L s2 + k0) then k0 else k0 - 1.

Definition toy_energies : gmap Z double :=
  {[ (-1) := of_Z (-2); 1 := of_Z (-2); (-7) := of_Z (-2) ]}.

Definition toy_stored : ValenceMBPT.Calculator :=
  {| ValenceMBPT.constants := toy_constants;
     ValenceMBPT.GetMatrixElement := fun _ _ => one;
     ValenceMBPT.GetTwoElectronIntegral := fun _ _ _ _ _ => one;
     ValenceMBPT.excited := [entry s_3d; entry s_6s; entry s_6p];
     ValenceMBPT.high := [entry s_6s; entry s_6p];
     ValenceMBPT.ValenceEnergies := toy_energies;
     ValenceMBPT.delta := half;
     ValenceMBPT.InQSpace := fun s => 5 <=? pqn s;
     ValenceMBPT.kmin := toy_kmin;
     ValenceMBPT.kmax := toy_kmax |}.

Definition toy_direct_with (states : list Orbital) (mass : double) : ValenceDirect.Calculator :=
  {| ValenceDirect.constants := toy_constants;
     ValenceDirect.NuclearInverseMass := mass;
     ValenceDirect.HFPotentialSize := 2;
     ValenceDirect.dR := [one; one];
     ValenceDirect.excited := states;
     ValenceDirect.ValenceEnergies := toy_energies;
     ValenceDirect.delta := half;
     ValenceDirect.FastCoulombIntegrate := fun density _ _ _ => density;
     ValenceDirect.HamiltonianMatrixElement := fun _ _ => one;
     ValenceDirect.IsotopeShiftIntegral := fun _ _ => one |}.

Definition toy_direct : ValenceDirect.Calculator :=
  toy_direct_with [s_3d; s_6s; s_6p] zero.

(** Collaborators of the decorator: a sigma potential is stood for by a list
    of factors, one per lattice point, that it multiplies a function by; the
    wrapped operator leaves everything as it is. *)
Definition toy_sigma_apply (sigma : list double) (s : SpinorFunction) : SpinorFunction :=
  {| sf_kappa := sf_kappa s;
     sf_f := zip_with mul (sf_f s) sigma;
     sf_g := zip_with mul (sf_g s) sigma;
     sf_dfdr := zip_with mul (sf_dfdr s) sigma;
     sf_dgdr := zip_with mul (sf_dgdr s) sigma |}.

Definition toy_collaborators : Brueckner.Collaborators :=
  {| Brueckner.SigmaPotential := list double;
     Brueckner.HFOperator := unit;
     Brueckner.BruecknerSigmaCalculator := unit;
     Brueckner.OrbitalManager := unit;
     Brueckner.HartreeY := unit;
     Brueckner.SigmaPotential_new := fun n _ => replicate n zero;
     Brueckner.IncludeLower := fun _ _ sigma => sigma;
     Brueckner.SigmaPotential_size := fun sigma => length sigma;
     Brueckner.SigmaPotential_ApplyTo := fun sigma s _ => toy_sigma_apply sigma s;
     Brueckner.BruecknerSigmaCalculator_new := fun _ _ _ => tt;
     Brueckner.GetSecondOrderSigma := fun _ kap sigma => (fun _ => of_Z kap) <$> sigma;
     Brueckner.wrapped_SetODEParameters := fun _ hf => hf;
     Brueckner.wrapped_GetExchange := fun _ _ => SpinorFunction_empty 0;
     Brueckner.wrapped_GetODEFunction := fun _ _ _ w => w;
     Brueckner.wrapped_GetODECoefficients := fun _ _ _ w => w;
     Brueckner.wrapped_GetODEJacobian := fun _ _ _ jd => jd;
     Brueckner.wrapped_ApplyTo := fun _ a => a;
     Brueckner.GetDerivative := fun _ _ dydr _ => dydr;
     Brueckner.GetAlpha := one |}.

Definition toy_lattice : Brueckner.Lattice :=
  {| Brueckner.NumPoints := 3; Brueckner.lattice_r := [one; two; of_Z 3];
     Brueckner.lattice_dr := [one; one; one] |}.

(** A decorator as its constructor leaves it ([lambda = 1], no sigma),
    wrapped around the toy operator. *)
Definition toy_decorator : Brueckner.Decorator toy_collaborators :=
  {| Brueckner.wrapped := tt : Brueckner.HFOperator toy_collaborators;
     Brueckner.lattice := toy_lattice;
     Brueckner.sigmas := ∅;
     Brueckner.lambda := one;
     Brueckner.use_fg := false;
     Brueckner.use_gg := false;
     Brueckner.include_nonlocal := true;
     Brueckner.currentExchangePotential := SpinorFunction_empty 0 |}.

(** The same decorator with a sigma stored for [kappa = -1]. *)
Definition toy_decorator_s : Brueckner.Decorator toy_collaborators :=
  Brueckner.set_sigmas
    ({[ (-1) := [two; two; two] ]} : gmap Z (Brueckner.SigmaPotential toy_collaborators))
    toy_decorator.

Definition toy_spinor (kap : Z) (samples : list double) : SpinorFunction :=
  {| sf_kappa := kap; sf_f := samples; sf_g := samples;
     sf_dfdr := samples; sf_dgdr := samples |}.

(** Two environments: in one the file of channel [-1] holds the potential the
    decorator already has, in the other no file can be read. *)
Definition reader_with_file : Brueckner.FileReader toy_collaborators :=
  fun filename => if String.eqb filename "Cs.-1.sigma" then Some [two; two; two] else None.

Definition reader_without_file : Brueckner.FileReader toy_collaborators :=
  fun _ => None.

End Examples.

(** ** The subtraction sum with its isotope-shift rule, term by term

    The sum written from the rule: every hole-line term is built from a
    radial integral to which the cross term has been applied.  [shifted] is
    the rule with the test the sum makes (the factor of the outer pair is not
    zero), [shifted_as_stated] the rule with the condition of the
    specification alone; they are compared among the properties. *)

Module SubtractionReference.

Section Reference.

Variable D : ValenceDirect.Calculator.

(** Whether the radial integrals of the hole-line terms are modified: the
    nuclear inverse mass is not zero, the outer [k] is 1, and the factor
    [NuclearInverseMass * IsotopeShiftIntegral(outer1, outer2)] is not
    zero. *)
Definition shift_applies (k : Z) (outer1 outer2 : Orbital) : bool :=
  truthy (ValenceDirect.NuclearInverseMass D) && (k =? 1) &&
  truthy (ValenceDirect.NuclearInverseMass D
          * ValenceDirect.IsotopeShiftIntegral D outer1 outer2)%D.

(** The radial integral [R] of a hole-line term under the isotope-shift rule:
    where it applies, the cross term, the product of the nuclear inverse mass
    and the isotope-shift integrals of the outer pair and of the pair
    [(i1, i2)], is taken off [R] ([minus]) or added to it; otherwise [R] is
    used as it is. *)
Definition shifted (k : Z) (outer1 outer2 : Orbital) (minus : bool) (R : double)
    (i1 i2 : Orbital) : double :=
  let cross := (ValenceDirect.NuclearInverseMass D
                * ValenceDirect.IsotopeShiftIntegral D outer1 outer2
                * ValenceDirect.IsotopeShiftIntegral D i1 i2)%D in
  if shift_applies k outer1 outer2
  then (if minus then R - cross else R + cross)%D
  else R.

(** The rule as the specification words it: the radial integral is modified
    by the cross term when the nuclear inverse mass is not zero and the
    multipole is 1, and used as it is otherwise. *)
Definition rule_applies (k : Z) : bool :=
  truthy (ValenceDirect.NuclearInverseMass D) && (k =? 1).

Definition shifted_as_stated (k : Z) (outer1 outer2 : Orbital) (minus : bool) (R : double)
    (i1 i2 : Orbital) : double :=
  let cross := (ValenceDirect.NuclearInverseMass D
                * ValenceDirect.IsotopeShiftIntegral D outer1 outer2
                * ValenceDirect.IsotopeShiftIntegral D i1 i2)%D in
  if rule_applies k
  then (if minus then R - cross else R + cross)%D
  else R.

(** One hole-line term: the shifted radial integral of [(c1, c2)] times
    [<sx|H|s3> / (ValenceEnergies[sx.Kappa()] - s3.Energy() + delta)]. *)
Definition term (k : Z) (outer1 outer2 : Orbital) (minus : bool)
    (c1 c2 i1 i2 sx s3 : Orbital) (w : ValenceDirect.Work) : option ValenceDirect.Work :=
  let R := shifted k outer1 outer2 minus
             (ValenceDirect.contract (ValenceDirect.dR D) (ValenceDirect.pot w) c1 c2) i1 i2 in
  let w := if shift_applies k outer1 outer2
           then ValenceDirect.emit (EvIsotopeShiftIntegral (info_of i1) (info_of i2)) w
           else w in
  Ex ← ValenceDirect.ValenceEnergies D !! o_kappa sx;
  Some (ValenceDirect.add_energy
          (R * ValenceDirect.HamiltonianMatrixElement D sx s3
           / (Ex - Energy s3 + ValenceDirect.delta D))%D w).

(** The terms of one excited orbital [s3]: the hole line attached to [sx],
    with the cross term taken off, and the hole line attached to [sz], with
    the cross term added. *)
Definition step (k : Z) (outer1 outer2 sx sz : Orbital)
    (w : ValenceDirect.Work) (s3 : Orbital) : option ValenceDirect.Work :=
  let w := ValenceDirect.emit (EvVisit (info_of s3)) w in
  w ← (if (5 <=? o_pqn s3) && (o_kappa s3 =? o_kappa sx)
       then term k outer1 outer2 true s3 sz s3 sz sx s3 w else Some w);
  if (5 <=? o_pqn s3) && (o_kappa s3 =? o_kappa sz)
  then term k outer1 outer2 false sx s3 s3 sx sz s3 w else Some w.

(** One half of the sum: the Coulomb potential of the outer pair, its
    isotope-shift integral when the mass is not zero and [k] is 1, and the
    terms of every excited orbital. *)
Definition half_sum (k : Z) (outer1 outer2 sx sz : Orbital)
    (w : ValenceDirect.Work) : option ValenceDirect.Work :=
  let w := ValenceDirect.coulomb_potential D k outer1 outer2 w in
  let w := if truthy (ValenceDirect.NuclearInverseMass D) && (k =? 1)
           then ValenceDirect.emit
                  (EvIsotopeShiftIntegral (info_of outer1) (info_of outer2)) w
           else w in
  ValenceDirect.fold_left_opt (step k outer1 outer2 sx sz) (ValenceDirect.excited D) w.

(** The whole subtraction sum. *)
Definition CalculateTwoElectronValence2 (MaxStateSize : nat)
    (sa sb sc sd : Orbital) (k : Z) : option ValenceDirect.Work :=
  w ← half_sum k sb sd sa sc (ValenceDirect.init_Work MaxStateSize);
  half_sum k sa sc sb sd w.

End Reference.

End SubtractionReference.

(** ** A pair of intermediate orbitals at the two valence energies

    Two channels with the valence energies [-0.1] and [-0.2], one excited
    orbital in each channel exactly at the valence energy of its channel,
    and [delta = 2^-55]. *)

Module DegeneratePair.

Definition Va : double := Eval vm_compute in (of_Z (-1) / of_Z 10)%D.
Definition Vb : double := Eval vm_compute in (of_Z (-2) / of_Z 10)%D.





End DegeneratePair.

(** ** Notions used to state further properties of the sums *)

Definition is_visit_event (e : Event) : bool :=
  match e with
  | EvVisit _ => true
  | _ => false
  end.

(** The visits of a double loop over the same orbitals: each outer orbital,
    followed by every inner one. *)
Definition pair_visits (l : list OrbitalInfo) : list Event :=
  flat_map (fun a => EvVisit a :: List.map EvVisit l) l.

(** The same calculator with another map of high orbitals. *)
Definition with_high (h : OrbitalMap) (C : ValenceMBPT.Calculator) : ValenceMBPT.Calculator :=
  {| ValenceMBPT.constants := ValenceMBPT.constants C;
     ValenceMBPT.GetMatrixElement := ValenceMBPT.GetMatrixElement C;
     ValenceMBPT.GetTwoElectronIntegral := ValenceMBPT.GetTwoElectronIntegral C;
     ValenceMBPT.excited := ValenceMBPT.excited C;
     ValenceMBPT.high := h;
     ValenceMBPT.ValenceEnergies := ValenceMBPT.ValenceEnergies C;
     ValenceMBPT.delta := ValenceMBPT.delta C;
     ValenceMBPT.InQSpace := ValenceMBPT.InQSpace C;
     ValenceMBPT.kmin := ValenceMBPT.kmin C;
     ValenceMBPT.kmax := ValenceMBPT.kmax C |}.

(** Whether an entry of [high] passes one of the tests of the loop of
    [CalculateTwoElectronSub]: it is in Q-space and has the kappa of one of
    the four outer lines. *)
Definition sub_contributes (C : ValenceMBPT.Calculator) (sa sb sc sd : OrbitalInfo)
    (it : OrbitalInfo * Orbital) : bool :=
  ValenceMBPT.InQSpace C it.1 &&
  ((Kappa sa =? Kappa it.1) || (Kappa sc =? Kappa it.1) ||
   (Kappa sb =? Kappa it.1) || (Kappa sd =? Kappa it.1)).

(** The same calculator with another nuclear inverse mass. *)
Definition with_NuclearInverseMass (m : double)
    (D : ValenceDirect.Calculator) : ValenceDirect.Calculator :=
  {| ValenceDirect.constants := ValenceDirect.constants D;
     ValenceDirect.NuclearInverseMass := m;
     ValenceDirect.HFPotentialSize := ValenceDirect.HFPotentialSize D;
     ValenceDirect.dR := ValenceDirect.dR D;
     ValenceDirect.excited := ValenceDirect.excited D;
     ValenceDirect.ValenceEnergies := ValenceDirect.ValenceEnergies D;
     ValenceDirect.delta := ValenceDirect.delta D;
     ValenceDirect.FastCoulombIntegrate := ValenceDirect.FastCoulombIntegrate D;
     ValenceDirect.HamiltonianMatrixElement := ValenceDirect.HamiltonianMatrixElement D;
     ValenceDirect.IsotopeShiftIntegral := ValenceDirect.IsotopeShiftIntegral D |}.

(** ** Notions used to state further properties of the decorator *)

(** [Read(identifier, kappa)] for each [kappa] of a list, in order. *)
Definition Read_all {X : Brueckner.Collaborators} (reader : Brueckner.FileReader X)
    (identifier : string) (kappas : list Z) (d : Brueckner.Decorator X) : Brueckner.Decorator X :=
  fold_left (fun d kappa => (Brueckner.Read reader identifier kappa d).1) kappas d.

(** The files after a sequence of effects that started without any: a file
    reads back as the potential last written to it, and cannot be read when
    nothing was written to it. *)
Fixpoint reader_of_writes {X : Brueckner.Collaborators} (effects : list (Brueckner.Effect X))
    : Brueckner.FileReader X :=
  fun filename =>
    match effects with
    | [] => None
    | e :: effects' =>
        match reader_of_writes effects' filename with
        | Some sigma => Some sigma
        | None =>
            match e with
            | Brueckner.EvWrite f sigma => if String.eqb f filename then Some sigma else None
            | _ => None
            end
        end
    end.

(** ** Comparisons of doubles

    [x < y], [x > y] and [x == y] on doubles: false as soon as an operand is
    a NaN; the two zeros are equal. *)
Definition double_lt (x y : double) : bool := SFltb x y.
Definition double_gt (x y : double) : bool := SFltb y x.
Definition double_eq (x y : double) : bool := SFeqb x y.

Definition is_nan (x : double) : bool :=
  match x with S754_nan => true | _ => false end.

(** ** [HartreeFock/Orbital.cpp]

    The functions of [Orbital] that work on the samples of the large and
    small components.  An access outside a vector, which is undefined in the
    source, makes the result [None].  The vectors are shorter than 2^32, so
    that an [unsigned int] index never wraps while it stays inside them. *)

Module OrbitalFunctions.

(** The literals [1.e-2], [1.e-7], [4.] and [3.]: a decimal literal is the
    double nearest to it, which the correctly rounded quotient gives. *)
Definition c_1em2 : double := Eval vm_compute in (of_Z 1 / of_Z 100)%D.
Definition c_1em7 : double := Eval vm_compute in (of_Z 1 / of_Z 10000000)%D.
Definition four : double := Eval vm_compute in of_Z 4.
Definition three : double := Eval vm_compute in of_Z 3.

(** The same orbital with other samples. *)
Definition with_samples (f g : list double) (s : Orbital) : Orbital :=
  {| o_kappa := o_kappa s; o_pqn := o_pqn s; o_energy := o_energy s; o_f := f; o_g := g |}.

(** [f[i]*f[i] + g[i]*g[i]] *)
Definition Norm_density (s : Orbital) (i : nat) : option double :=
  fi ← o_f s !! i;
  gi ← o_g s !! i;
  Some (fi * fi + gi * gi)%D.

(** The loop [for(i=0; i<Size()-2; i+=2)] of [Norm] (lines 89-92), from the
    index [i] on; [bound] is [Size()-2] as the [unsigned int] it is.  Every
    round reads [f[i+1]], so that no more than [Size()] rounds can be run:
    [fuel] is never what ends the loop. *)
Fixpoint Norm_simpson (fuel : nat) (s : Orbital) (dR : list double) (bound : Z)
    (i : nat) (norm : double) : option (double * nat) :=
  if Z.of_nat i <? bound then
    match fuel with
    | O => None
    | Datatypes.S fuel' =>
        a ← Norm_density s i;
        da ← dR !! i;
        let norm := (norm + four * a * da)%D in
        b ← Norm_density s (Datatypes.S i);
        db ← dR !! Datatypes.S i;
        let norm := (norm + two * b * db)%D in
        Norm_simpson fuel' s dR bound (Datatypes.S (Datatypes.S i)) norm
    end
  else Some (norm, i).

(** The body of the loop [while(i<Size())] of [Norm] (lines 96-99). *)
Definition Norm_tail_step (s : Orbital) (dR : list double) (norm : double) (i : nat)
    : option double :=
  a ← Norm_density s i;
  da ← dR !! i;
  Some (norm + a * da)%D.

(** [Norm(lattice)] (lines 82-102); [dR] is [lattice->dR()]. *)
Definition Norm (s : Orbital) (dR : list double) : option double :=
  f0 ← o_f s !! 0%nat;
  g0 ← o_g s !! 0%nat;
  d0 ← dR !! 0%nat;
  let norm := (f0 * f0 * g0 * g0 * d0)%D in
  '(norm, i) ← Norm_simpson (size s) s dR (uint32 (Z.of_nat (size s) - 2)) 0 norm;
  let norm := (norm / three)%D in
  ValenceDirect.fold_left_opt (Norm_tail_step s dR) (seq i (size s - i)) norm.

(** The first loop of [NumNodes] (lines 202-211): the state is
    [(fmax, i_fmax, i)]. *)
Definition NumNodes_max_step (st : double * nat * nat) (x : double) : double * nat * nat :=
  let '(fmax, i_fmax, i) := st in
  if double_gt (fabs x) fmax then (fabs x, i, Datatypes.S i)
  else (fmax, i_fmax, Datatypes.S i).

Definition NumNodes_max (f : list double) : double * nat * nat :=
  fold_left NumNodes_max_step f (zero, 0%nat, 0%nat).

(** [while(fabs(f[end]) < 1.e-2 * fmax) end--;] (lines 215-216).  When
    [end] is 0 the decrement wraps to the largest [unsigned int], which is
    outside the vector. *)
Fixpoint NumNodes_end (f : list double) (threshold : double) (end_ : nat) : option nat :=
  match f !! end_ with
  | None => None
  | Some x =>
      if double_lt (fabs x) threshold then
        match end_ with
        | O => None
        | Datatypes.S end' => NumNodes_end f threshold end'
        end
      else Some end_
  end.

(** [while(fabs(prev) < 1.e-7 * fmax) prev = f[i++];] (lines 221-222);
    [rest] holds the samples from the index [i] on. *)
Fixpoint NumNodes_start (rest : list double) (threshold prev : double) (i : nat)
    : option (double * nat) :=
  if double_lt (fabs prev) threshold then
    match rest with
    | [] => None
    | x :: rest' => NumNodes_start rest' threshold x (Datatypes.S i)
    end
  else Some (prev, i).

(** The body of the loop [while(i < end)] (lines 224-229): the state is
    [(zeros, prev)]. *)
Definition NumNodes_count_step (f : list double) (st : nat * double) (i : nat)
    : option (nat * double) :=
  x ← f !! i;
  Some (if double_lt (x * st.2)%D zero then Datatypes.S st.1 else st.1, x).

(** [NumNodes()] (lines 194-231). *)
Definition NumNodes (s : Orbital) : option nat :=
  let f := o_f s in
  let fmax := (NumNodes_max f).1.1 in
  end_ ← match length f with
         | O => None
         | Datatypes.S n => NumNodes_end f (c_1em2 * fmax)%D n
         end;
  prev ← f !! 0%nat;
  '(prev, i) ← NumNodes_start f (c_1em7 * fmax)%D prev 0;
  st ← ValenceDirect.fold_left_opt (NumNodes_count_step f) (seq i (end_ - i)) (0%nat, prev);
  Some st.1.

End OrbitalFunctions.

(** ** [Universal/ExpLattice.cpp] *)

Module ExpLattice.

(** The members of the lattice; [r] and [dr] are the two arrays of
    [NumPoints] doubles. *)
Record ExpLattice : Type := mkExpLattice {
  beta : double;
  NumPoints : nat;
  rmin : double;
  h : double;
  r : list double;
  dr : list double
}.

Definition set_point (i : nat) (r_i dr_i : double) (lat : ExpLattice) : ExpLattice :=
  {| beta := beta lat; NumPoints := NumPoints lat; rmin := rmin lat; h := h lat;
     r := <[i := r_i]> (r lat); dr := <[i := dr_i]> (dr lat) |}.

Section Functions.

(** [exp] of [<math.h>]. *)
Variable exp : double -> double.

(** [lattice_to_real(i)] (lines 43-51). *)
Definition lattice_to_real (lat : ExpLattice) (i : nat) : double :=
  let x := (h lat * of_Z (Z.of_nat i))%D in
  (rmin lat * exp x)%D.

(** [calculate_dr(r_point)] (lines 53-56). *)
Definition calculate_dr (lat : ExpLattice) (r_point : double) : double :=
  (r_point * h lat)%D.

(** [ExpLattice(numpoints, r_min, H)] (lines 21-36).  The two arrays come
    from [malloc]; their contents before the loop, indeterminate in the
    source, are zeros here. *)
Definition ExpLattice_new (numpoints : nat) (r_min H : double) : ExpLattice :=
  let lat := {| beta := zero; NumPoints := numpoints; rmin := r_min; h := H;
                r := replicate numpoints zero; dr := replicate numpoints zero |} in
  fold_left
    (fun lat i =>
       let r_i := lattice_to_real lat i in
       set_point i r_i (calculate_dr lat r_i) lat)
    (seq 0 numpoints) lat.

(** [ExpLattice(const ExpLattice& other)] (lines 4-19); reading past the end
    of an array of [other], undefined in the source, gives a zero. *)
Definition ExpLattice_copy (other : ExpLattice) : ExpLattice :=
  let lat := {| beta := beta other; NumPoints := NumPoints other; rmin := rmin other;
                h := h other;
                r := replicate (NumPoints other) zero;
                dr := replicate (NumPoints other) zero |} in
  fold_left (fun lat i => set_point i (r other !!! i) (dr other !!! i) lat)
    (seq 0 (NumPoints other)) lat.

End Functions.

(** [operator==] (lines 38-41). *)
Definition operator_eq (lat other : ExpLattice) : bool :=
  double_eq (h lat) (h other) && double_eq (rmin lat) (rmin other).

End ExpLattice.

(** ** [SolutionID] ([Universal/Solution.h], defined in the solution file) *)

Module Solution.

(** [mParity] is a [ParityType::Enum], compared as the integer it is. *)
Record SolutionID : Type := mkSolutionID {
  mJ : double;
  mParity : Z;
  mID : Z
}.

(** [SolutionID::operator<] (lines 119-141). *)
Definition operator_lt (this other : SolutionID) : bool :=
  if double_lt (mJ this) (mJ other) then true
  else if double_eq (mJ this) (mJ other) then
    if mParity this <? mParity other then true
    else if mParity this =? mParity other then
      if mID this <? mID other then true else false
    else false
  else false.

End Solution.

(** ** [SpinorODEDecorator] (declared with [SpinorODE] after the calculator)

    A [SpinorODE] is either an object of a class that is not a decorator,
    whose methods are given, or a [SpinorODEDecorator] around another one,
    with its own [include_nonlocal]. *)

Module SpinorODEDecorator.

Record Undecorated : Type := mkUndecorated {
  ODE : Type;
  ODE_IncludeExchange : bool -> ODE -> ODE;
  ODE_SetODEParameters : Orbital -> ODE -> ODE;
  ODE_GetExchange : ODE -> option Orbital -> SpinorFunction;
  ODE_GetODEFunction : ODE -> nat -> SpinorFunction -> double * double -> double * double
}.

Inductive SpinorODE (X : Undecorated) : Type :=
  | Plain (object : ODE X)
  | Decorator (include_nonlocal : bool) (wrapped : SpinorODE X).
Arguments Plain {X} _.
Arguments Decorator {X} _ _.

Section Methods.

Context {X : Undecorated}.

(** [IncludeExchange(include_exchange)] (lines 340-343). *)
Fixpoint IncludeExchange (include_exchange : bool) (o : SpinorODE X) : SpinorODE X :=
  match o with
  | Plain object => Plain (ODE_IncludeExchange X include_exchange object)
  | Decorator _ wrapped => Decorator include_exchange (IncludeExchange include_exchange wrapped)
  end.

(** [SetODEParameters(approximation)] (lines 330-332). *)
Fixpoint SetODEParameters (approximation : Orbital) (o : SpinorODE X) : SpinorODE X :=
  match o with
  | Plain object => Plain (ODE_SetODEParameters X approximation object)
  | Decorator flag wrapped => Decorator flag (SetODEParameters approximation wrapped)
  end.

(** [GetExchange(approximation)] (lines 335-337). *)
Fixpoint GetExchange (o : SpinorODE X) (approximation : option Orbital) : SpinorFunction :=
  match o with
  | Plain object => ODE_GetExchange X object approximation
  | Decorator _ wrapped => GetExchange wrapped approximation
  end.

(** [GetODEFunction(latticepoint, fg, w)] (lines 348-350). *)
Fixpoint GetODEFunction (o : SpinorODE X) (latticepoint : nat) (fg : SpinorFunction)
    (w : double * double) : double * double :=
  match o with
  | Plain object => ODE_GetODEFunction X object latticepoint fg w
  | Decorator _ wrapped => GetODEFunction wrapped latticepoint fg w
  end.

(** The flags of the decorators, outermost first, and the object they wrap. *)
Fixpoint flags (o : SpinorODE X) : list bool :=
  match o with
  | Plain _ => []
  | Decorator flag wrapped => flag :: flags wrapped
  end.

Fixpoint innermost (o : SpinorODE X) : ODE X :=
  match o with
  | Plain object => object
  | Decorator _ wrapped => innermost wrapped
  end.

End Methods.

End SpinorODEDecorator.

(** * Properties *)

(** ** Doubles *)

Section DoubleFacts.

Lemma opp_involutive (x : double) : opp (opp x) = x.
Proof. destruct x as [s|s| |s m e]; simpl; try rewrite negb_involutive; reflexivity. Qed.

Lemma cond_opp_cond_opp (b1 b2 : bool) (x : double) :
  cond_opp b1 (cond_opp b2 x) = cond_opp (xorb b1 b2) x.
Proof. destruct b1, b2; simpl; try rewrite opp_involutive; reflexivity. Qed.

Lemma binary_round_aux_negb (s : bool) (m e : Z) (l : location) :
  binary_round_aux prec emax (negb s) m e l = opp (binary_round_aux prec emax s m e l).
Proof.
  unfold binary_round_aux.
  destruct (shr_fexp prec emax m e l) as [mrs' e'].
  destruct (shr_fexp prec emax _ e' loc_Exact) as [mrs'' e''].
  destruct (shr_m mrs''); simpl; try reflexivity.
  destruct (e'' <=? emax - prec); reflexivity.
Qed.

Lemma xorb_negb_r (a b : bool) : xorb a (negb b) = negb (xorb a b).
Proof. destruct a, b; reflexivity. Qed.

Lemma xorb_negb_l (a b : bool) : xorb (negb a) b = negb (xorb a b).
Proof. destruct a, b; reflexivity. Qed.

Lemma mul_opp_r (x y : double) : mul x (opp y) = opp (mul x y).
Proof.
  destruct x as [sx|sx| |sx mx ex], y as [sy|sy| |sy my ey];
    unfold mul, opp; simpl; try reflexivity;
    rewrite ?xorb_negb_r; try reflexivity.
  apply binary_round_aux_negb.
Qed.

Lemma mul_opp_l (x y : double) : mul (opp x) y = opp (mul x y).
Proof.
  destruct x as [sx|sx| |sx mx ex], y as [sy|sy| |sy my ey];
    unfold mul, opp; simpl; try reflexivity;
    rewrite ?xorb_negb_l; try reflexivity.
  apply binary_round_aux_negb.
Qed.

Lemma mul_cond_opp_r (b : bool) (x y : double) :
  mul x (cond_opp b y) = cond_opp b (mul x y).
Proof. destruct b; simpl; [apply mul_opp_r | reflexivity]. Qed.

Lemma mul_cond_opp_l (b : bool) (x y : double) :
  mul (cond_opp b x) y = cond_opp b (mul x y).
Proof. destruct b; simpl; [apply mul_opp_l | reflexivity]. Qed.

(** [x - x] is [+0] for every finite [x]. *)
Lemma sub_diag (x : double) : is_finite x = true -> sub x x = zero.
Proof.
  destruct x as [s|s| |s m e]; simpl; try discriminate; intros _.
  - destruct s; reflexivity.
  - unfold sub, SFsub. rewrite Z.min_id, Z.sub_diag. reflexivity.
Qed.


Lemma is_zero_truthy (x : double) : truthy x = negb (is_zero x).
Proof. reflexivity. Qed.

End DoubleFacts.

(** ** Loops *)

Section LoopFacts.

Context {S : Type}.

Lemma while_step2_range (fuel : nat) (k kmax : Z) (body : Z -> S -> S) (s : S) :
  while_step2 fuel k kmax body s
  = fold_left (fun s k => body k s) (range_step2_fuel fuel k kmax) s.
Proof.
  revert k s. induction fuel as [|fuel IH]; intros k s; simpl; [reflexivity|].
  destruct (k <=? kmax); simpl; [apply IH | reflexivity].
Qed.

(** The loop is the fold of its body over the values it goes through. *)
Lemma loop_step2_fold (k kmax : Z) (body : Z -> S -> S) (s : S) :
  loop_step2 k kmax body s = fold_left (fun s k => body k s) (range_step2 k kmax) s.
Proof. apply while_step2_range. Qed.

End LoopFacts.

(** One round more than needed changes nothing: the fuel is never what ends
    the loop. *)
Lemma range_step2_fuel_more (kmax : Z) (m : nat) (k : Z) :
  kmax - k < 2 * Z.of_nat m ->
  range_step2_fuel (Datatypes.S m) k kmax = range_step2_fuel m k kmax.
Proof.
  revert k. induction m as [|m IH]; intros k Hk.
  - simpl. destruct (Z.leb_spec k kmax); [lia | reflexivity].
  - change (range_step2_fuel (Datatypes.S (Datatypes.S m)) k kmax)
      with (if k <=? kmax then k :: range_step2_fuel (Datatypes.S m) (k + 2) kmax else []).
    change (range_step2_fuel (Datatypes.S m) k kmax)
      with (if k <=? kmax then k :: range_step2_fuel m (k + 2) kmax else []).
    destruct (k <=? kmax); [|reflexivity].
    f_equal. apply IH. lia.
Qed.

Lemma range_step2_fuel_enough (kmax : Z) (n m : nat) (k : Z) :
  kmax - k < 2 * Z.of_nat m ->
  range_step2_fuel (n + m) k kmax = range_step2_fuel m k kmax.
Proof.
  intros Hk. induction n as [|n IH]; [reflexivity|].
  change (Datatypes.S n + m)%nat with (Datatypes.S (n + m)).
  rewrite range_step2_fuel_more by lia. exact IH.
Qed.

(** The defining equation of the loop's range. *)
Lemma range_step2_unfold (k kmax : Z) :
  range_step2 k kmax = if k <=? kmax then k :: range_step2 (k + 2) kmax else [].
Proof.
  unfold range_step2.
  destruct (Z.leb_spec k kmax) as [Hle|Hgt].
  - replace (Z.to_nat (kmax - k + 2)) with (Datatypes.S (Z.to_nat (kmax - k + 1))) by lia.
    simpl. destruct (Z.leb_spec k kmax); [|lia]. f_equal.
    replace (Z.to_nat (kmax - k + 1))
      with ((Z.to_nat (kmax - k + 1) - Z.to_nat (kmax - (k + 2) + 2))
            + Z.to_nat (kmax - (k + 2) + 2))%nat by lia.
    apply range_step2_fuel_enough. lia.
  - destruct (Z.to_nat (kmax - k + 2)) as [|n]; [reflexivity|].
    simpl. destruct (Z.leb_spec k kmax); [lia | reflexivity].
Qed.

(** The defining equation of the loop: it is the [while] loop of the source. *)
Lemma loop_step2_unfold {S : Type} (k kmax : Z) (body : Z -> S -> S) (s : S) :
  loop_step2 k kmax body s
  = if k <=? kmax then loop_step2 (k + 2) kmax body (body k s) else s.
Proof.
  rewrite !loop_step2_fold, (range_step2_unfold k kmax).
  destruct (k <=? kmax); reflexivity.
Qed.

(** The values the loop goes through: from [k] up to [kmax] in steps of 2. *)
Lemma range_step2_fuel_In (kmax : Z) (fuel : nat) (k x : Z) :
  In x (range_step2_fuel fuel k kmax) ->
  k <= x <= kmax /\ Z.even (x - k) = true.
Proof.
  revert k. induction fuel as [|fuel IH]; intros k; simpl; [tauto|].
  destruct (Z.leb_spec k kmax) as [Hle|Hgt]; simpl; [|tauto].
  intros [<-|Hin].
  - rewrite Z.sub_diag. split; [lia | reflexivity].
  - apply IH in Hin as [Hr He]. split; [lia|].
    replace (x - k) with (x - (k + 2) + 2) by lia.
    rewrite Z.even_add, He. reflexivity.
Qed.

Lemma range_step2_In (k kmax x : Z) :
  In x (range_step2 k kmax) <-> k <= x <= kmax /\ Z.even (x - k) = true.
Proof.
  split; [apply range_step2_fuel_In|].
  intros [[Hkx Hxm] He].
  assert (Hn : exists n : nat, x = k + 2 * Z.of_nat n).
  { exists (Z.to_nat ((x - k) / 2)).
    rewrite Z2Nat.id by (apply Z.div_pos; lia).
    assert (Hm := Zmod_even (x - k)). rewrite He in Hm.
    assert (Hd := Z.div_mod (x - k) 2). lia. }
  destruct Hn as [n ->]. clear Hkx He.
  revert k Hxm. induction n as [|n IH]; intros k Hxm.
  - rewrite range_step2_unfold. destruct (Z.leb_spec k kmax); [|lia].
    left. lia.
  - rewrite range_step2_unfold. destruct (Z.leb_spec k kmax); [|lia].
    right. replace (k + 2 * Z.of_nat (Datatypes.S n)) with (k + 2 + 2 * Z.of_nat n) by lia.
    apply IH. lia.
Qed.

Lemma fold_left_ext_in {A B : Type} (f g : A -> B -> A) (l : list B) (a : A) :
  (forall a b, In b l -> f a b = g a b) -> fold_left f l a = fold_left g l a.
Proof.
  revert a. induction l as [|b l IH]; intros a Hfg; simpl; [reflexivity|].
  rewrite Hfg by (left; reflexivity). apply IH.
  intros a' b' Hin. apply Hfg. right. exact Hin.
Qed.

Lemma loop_step2_ext {S : Type} (k kmax : Z) (body1 body2 : Z -> S -> S) (s : S) :
  (forall x s, k <= x <= kmax -> body1 x s = body2 x s) ->
  loop_step2 k kmax body1 s = loop_step2 k kmax body2 s.
Proof.
  intros H. rewrite !loop_step2_fold. apply fold_left_ext_in.
  intros a b Hin. apply H. apply range_step2_In in Hin. tauto.
Qed.

(** Parity as the source tests it. *)
Lemma rem2_true_odd (n : Z) : rem2_true n = Z.odd n.
Proof.
  unfold rem2_true. rewrite Zodd_mod.
  assert (H := Z.rem_mod_eq_0 n 2 ltac:(lia)).
  destruct (Z.eqb_spec (Z.rem n 2) 0) as [Hr|Hr];
    destruct (Z.eqb_spec (n mod 2) 1) as [Hm|Hm]; simpl; try reflexivity.
  - apply H in Hr. lia.
  - assert (n mod 2 = 0) by (pose proof (Z.mod_pos_bound n 2); lia). tauto.
Qed.

Lemma odd_uint32 (n : Z) : Z.odd (uint32 n) = Z.odd n.
Proof.
  unfold uint32. rewrite (Z.div_mod n (2 ^ 32)) at 2 by lia.
  rewrite Z.odd_add, Z.odd_mul. reflexivity.
Qed.

(** ** Pruning of the two-body sums *)

Lemma rem2_eqb_even (x y : Z) :
  (Z.rem x 2 =? Z.rem y 2) = true -> Z.even x = Z.even y.
Proof.
  intros H. apply Z.eqb_eq in H.
  assert (Ho : Z.odd x = Z.odd y).
  { rewrite <- !rem2_true_odd. unfold rem2_true. rewrite H. reflexivity. }
  rewrite <- !Z.negb_odd, Ho. reflexivity.
Qed.

Lemma stored_pair_allowed_passes (C : ValenceMBPT.Calculator)
    (sa sb sc sd salpha sbeta : OrbitalInfo) :
  ValenceMBPT.valence_pair_allowed C sa sb sc sd salpha sbeta = true ->
  pair_passes (ValenceMBPT.InQSpace C salpha) (ValenceMBPT.InQSpace C sbeta)
    (L sa) (L sb) (L sc) (L sd) (L salpha) (L sbeta).
Proof.
  unfold ValenceMBPT.valence_pair_allowed, ValenceMBPT.InQSpace2, pair_passes.
  rewrite !andb_true_iff, orb_true_iff. intros [[HQ H1] H2].
  split; [exact HQ|]. split; apply rem2_eqb_even; assumption.
Qed.

Lemma direct_pair_allowed_passes (k : Z) (sa sb sc sd s3 s4 : Orbital) :
  ValenceDirect.valence1_pair_allowed k sa sb sc sd s3 s4 = true ->
  pair_passes (5 <=? o_pqn s3) (5 <=? o_pqn s4)
    (ValenceDirect.oL sa) (ValenceDirect.oL sb) (ValenceDirect.oL sc) (ValenceDirect.oL sd)
    (ValenceDirect.oL s3) (ValenceDirect.oL s4).
Proof.
  unfold ValenceDirect.valence1_pair_allowed, ValenceDirect.valence1_coeff_34, pair_passes.
  rewrite andb_true_iff, orb_true_iff. intros [HQ Ht].
  split; [exact HQ|].
  destruct (Z.rem (ValenceDirect.oL sa + ValenceDirect.oL s3) 2
            =? Z.rem (ValenceDirect.oL sb + ValenceDirect.oL s4) 2) eqn:H1;
    destruct (Z.rem (ValenceDirect.oL s3 + ValenceDirect.oL sc) 2
              =? Z.rem (ValenceDirect.oL sd + ValenceDirect.oL s4) 2) eqn:H2;
    simpl in Ht; try discriminate.
  split; [apply rem2_eqb_even; exact H1|].
  rewrite (rem2_eqb_even _ _ H2). f_equal. lia.
Qed.

(** C3.  In the two-body valence correction an intermediate pair contributes
    only if the L sums on both sides have equal parity and at least one of
    the two intermediate lines is in Q-space.  A pair that fails one of these
    conditions leaves the accumulated energy as it was and asks for no radial
    integral: the only trace of it is that the loop visited it.  This holds
    for the sum over stored integrals and for the sum on the wavefunctions
    (where Q-space is [PQN >= 5]). *)
Theorem pair_pruning
    (C : ValenceMBPT.Calculator) (D : ValenceDirect.Calculator) (k : Z)
    (sa sb sc sd : OrbitalInfo) (coeff_ac coeff_bd ValenceEnergy : double)
    (it_alpha it_beta : OrbitalInfo * Orbital) (st : Acc)
    (oa ob oc od o3 o4 : Orbital) (w : ValenceDirect.Work) :
  (~ pair_passes (ValenceMBPT.InQSpace C it_alpha.1) (ValenceMBPT.InQSpace C it_beta.1)
       (L sa) (L sb) (L sc) (L sd) (L it_alpha.1) (L it_beta.1) ->
   ValenceMBPT.valence_pair_step C k sa sb sc sd coeff_ac coeff_bd ValenceEnergy
     it_alpha st it_beta = visit it_beta.1 st)
  /\
  (~ pair_passes (5 <=? o_pqn o3) (5 <=? o_pqn o4)
       (ValenceDirect.oL oa) (ValenceDirect.oL ob) (ValenceDirect.oL oc) (ValenceDirect.oL od)
       (ValenceDirect.oL o3) (ValenceDirect.oL o4) ->
   ValenceDirect.valence1_pair_step D k oa ob oc od coeff_ac coeff_bd ValenceEnergy
     o3 w o4 = ValenceDirect.emit (EvVisit (info_of o4)) w).
Proof.
  split; intros Hfail.
  - unfold ValenceMBPT.valence_pair_step.
    destruct (ValenceMBPT.valence_pair_allowed C sa sb sc sd it_alpha.1 it_beta.1) eqn:Ha;
      [|reflexivity].
    exfalso. apply Hfail. apply stored_pair_allowed_passes. exact Ha.
  - unfold ValenceDirect.valence1_pair_step.
    destruct (ValenceDirect.valence1_pair_allowed k oa ob oc od o3 o4) eqn:Ha;
      [|reflexivity].
    exfalso. apply Hfail. apply (direct_pair_allowed_passes k). exact Ha.
Qed.

Lemma pair_pruning_witness :
  let C := Examples.toy_stored in
  let D := Examples.toy_direct in
  let s := info_of Examples.s_6s in
  let e := Examples.entry Examples.s_3d in
  (~ pair_passes (ValenceMBPT.InQSpace C e.1) (ValenceMBPT.InQSpace C e.1)
       (L s) (L s) (L s) (L s) (L e.1) (L e.1)
   /\ ValenceMBPT.valence_pair_step C 0 s s s s one one one e (zero, []) e
      = visit e.1 (zero, []))
  /\
  (~ pair_passes (5 <=? o_pqn Examples.s_3d) (5 <=? o_pqn Examples.s_6p)
       (ValenceDirect.oL Examples.s_6s) (ValenceDirect.oL Examples.s_6s)
       (ValenceDirect.oL Examples.s_6s) (ValenceDirect.oL Examples.s_6s)
       (ValenceDirect.oL Examples.s_3d) (ValenceDirect.oL Examples.s_6p)
   /\ ValenceDirect.valence1_pair_step D 0 Examples.s_6s Examples.s_6s Examples.s_6s
        Examples.s_6s one one one Examples.s_3d (ValenceDirect.init_Work 2) Examples.s_6p
      = ValenceDirect.emit (EvVisit (info_of Examples.s_6p)) (ValenceDirect.init_Work 2)).
Proof.
  intros C D s e.
  assert (H1 : ~ pair_passes (ValenceMBPT.InQSpace C e.1) (ValenceMBPT.InQSpace C e.1)
                 (L s) (L s) (L s) (L s) (L e.1) (L e.1)).
  { intros [[H|H] _]; vm_compute in H; discriminate H. }
  assert (H2 : ~ pair_passes (5 <=? o_pqn Examples.s_3d) (5 <=? o_pqn Examples.s_6p)
                 (ValenceDirect.oL Examples.s_6s) (ValenceDirect.oL Examples.s_6s)
                 (ValenceDirect.oL Examples.s_6s) (ValenceDirect.oL Examples.s_6s)
                 (ValenceDirect.oL Examples.s_3d) (ValenceDirect.oL Examples.s_6p)).
  { intros [_ [H _]]; vm_compute in H; discriminate H. }
  destruct (pair_pruning C D 0 s s s s one one one e e (zero, [])
              Examples.s_6s Examples.s_6s Examples.s_6s Examples.s_6s
              Examples.s_3d Examples.s_6p (ValenceDirect.init_Work 2)) as [P1 P2].
  split; split; [exact H1 | exact (P1 H1) | exact H2 | exact (P2 H2)].
Defined.

(** C5.  The two-body valence correction returns exactly [0.0] as soon as one
    of the outer coefficients, the 3j coefficient of [(TwoJ(a), TwoJ(c), k)] or
    of [(TwoJ(b), TwoJ(d), k)], is zero; the loops over the intermediate
    orbitals are not entered: no orbital is visited and no integral is asked
    for.  This holds for every state of the calculators. *)
Theorem outer_triangle_zero
    (C : ValenceMBPT.Calculator) (D : ValenceDirect.Calculator) (k : Z)
    (sa sb sc sd : OrbitalInfo) (oa ob oc od : Orbital) (MaxStateSize : nat) :
  (is_zero (Electron3j (ValenceMBPT.constants C) (TwoJ sa) (TwoJ sc) k) = true \/
   is_zero (Electron3j (ValenceMBPT.constants C) (TwoJ sb) (TwoJ sd) k) = true ->
   ValenceMBPT.CalculateTwoElectronValence C k sa sb sc sd = Some (zero, []) /\
   ValenceMBPT.GetTwoElectronValence C k sa sb sc sd = Some (zero, []) /\
   ValenceMBPT.GetTwoElectronBoxValence C k sa sb sc sd = Some (zero, []))
  /\
  (is_zero (Electron3j_q (ValenceDirect.constants D)
              (ValenceDirect.twoJ_of oa) (ValenceDirect.twoJ_of oc) k 1 (-1)) = true \/
   is_zero (Electron3j_q (ValenceDirect.constants D)
              (ValenceDirect.twoJ_of ob) (ValenceDirect.twoJ_of od) k 1 (-1)) = true ->
   ValenceDirect.CalculateTwoElectronValence1 D MaxStateSize oa ob oc od k
   = Some (ValenceDirect.init_Work MaxStateSize) /\
   ValenceDirect.energy (ValenceDirect.init_Work MaxStateSize) = zero /\
   ValenceDirect.log (ValenceDirect.init_Work MaxStateSize) = [] /\
   ValenceDirect.GetTwoElectronBoxValence D oa ob oc od k = Some (zero, [])).
Proof.
  split; intros Hz.
  - assert (Hc : ValenceMBPT.CalculateTwoElectronValence C k sa sb sc sd = Some (zero, [])).
    { unfold ValenceMBPT.CalculateTwoElectronValence.
      apply orb_true_iff in Hz. rewrite Hz. reflexivity. }
    repeat split; exact Hc.
  - assert (Hc : forall n, ValenceDirect.CalculateTwoElectronValence1 D n oa ob oc od k
                           = Some (ValenceDirect.init_Work n)).
    { intros n. unfold ValenceDirect.CalculateTwoElectronValence1.
      apply orb_true_iff in Hz. rewrite Hz. reflexivity. }
    split; [apply Hc|]. split; [reflexivity|]. split; [reflexivity|].
    unfold ValenceDirect.GetTwoElectronBoxValence. rewrite Hc. reflexivity.
Qed.

Lemma outer_triangle_zero_witness :
  let C := Examples.toy_stored in
  let D := Examples.toy_direct in
  let s := info_of Examples.s_6s in
  let o := Examples.s_6s in
  ((is_zero (Electron3j (ValenceMBPT.constants C) (TwoJ s) (TwoJ s) 2) = true \/
    is_zero (Electron3j (ValenceMBPT.constants C) (TwoJ s) (TwoJ s) 2) = true) /\
   ValenceMBPT.CalculateTwoElectronValence C 2 s s s s = Some (zero, []))
  /\
  ((is_zero (Electron3j_q (ValenceDirect.constants D)
               (ValenceDirect.twoJ_of o) (ValenceDirect.twoJ_of o) 2 1 (-1)) = true \/
    is_zero (Electron3j_q (ValenceDirect.constants D)
               (ValenceDirect.twoJ_of o) (ValenceDirect.twoJ_of o) 2 1 (-1)) = true) /\
   ValenceDirect.GetTwoElectronBoxValence D o o o o 2 = Some (zero, [])).
Proof.
  intros C D s o.
  assert (H1 : is_zero (Electron3j (ValenceMBPT.constants C) (TwoJ s) (TwoJ s) 2) = true)
    by (vm_compute; reflexivity).
  assert (H2 : is_zero (Electron3j_q (ValenceDirect.constants D)
                          (ValenceDirect.twoJ_of o) (ValenceDirect.twoJ_of o) 2 1 (-1)) = true)
    by (vm_compute; reflexivity).
  destruct (outer_triangle_zero C D 2 s s s s o o o o 2%nat) as [P1 P2].
  split; split.
  - left; exact H1.
  - exact (proj1 (P1 (or_introl H1))).
  - left; exact H2.
  - exact (proj2 (proj2 (proj2 (P2 (or_introl H2))))).
Defined.

(** ** Signs of the terms *)

Lemma of_Z_minus_one_to_the_power (p : Z) :
  of_Z (minus_one_to_the_power p) = cond_opp (Z.odd p) one.
Proof.
  unfold minus_one_to_the_power. rewrite rem2_true_odd.
  destruct (Z.odd p); reflexivity.
Qed.

Lemma TwoJ_sum_half (s1 s2 s3 s4 s5 s6 : OrbitalInfo) :
  Z.quot (TwoJ s1 + TwoJ s2 + TwoJ s3 + TwoJ s4 + TwoJ s5 + TwoJ s6) 2
  = (TwoJ s1 + TwoJ s2 + TwoJ s3 + TwoJ s4 + TwoJ s5 + TwoJ s6) / 2.
Proof.
  unfold TwoJ.
  replace (2 * Z.abs (kappa s1) - 1 + (2 * Z.abs (kappa s2) - 1) + (2 * Z.abs (kappa s3) - 1)
           + (2 * Z.abs (kappa s4) - 1) + (2 * Z.abs (kappa s5) - 1) + (2 * Z.abs (kappa s6) - 1))
    with ((Z.abs (kappa s1) + Z.abs (kappa s2) + Z.abs (kappa s3) + Z.abs (kappa s4)
           + Z.abs (kappa s5) + Z.abs (kappa s6) - 3) * 2) by lia.
  rewrite Z.quot_mul, Z.div_mul by lia. reflexivity.
Qed.

Lemma stored_pair_power_odd (k : Z) (sa sb sc sd salpha sbeta : OrbitalInfo) :
  Z.odd (ValenceMBPT.valence_pair_power k sa sb sc sd salpha sbeta)
  = Z.odd (six_line_power k sa sb sc sd salpha sbeta).
Proof.
  unfold ValenceMBPT.valence_pair_power, six_line_power.
  rewrite odd_uint32, TwoJ_sum_half. reflexivity.
Qed.

(** [(unsigned int)(J * 2.)] is [TwoJ] on the checked range: the doubles
    involved are computed for every [kappa] of the range. *)
Lemma twoJ_checked_range :
  forallb (fun i => twoJ_checked (Z.of_nat i + 1) && twoJ_checked (- (Z.of_nat i + 1)))
    (seq 0 1024) = true.
Proof. vm_compute. reflexivity. Qed.

Lemma twoJ_of_small (s : Orbital) :
  small_kappa s -> ValenceDirect.twoJ_of s = TwoJ (info_of s).
Proof.
  unfold small_kappa. intros Hs.
  assert (Hc : twoJ_checked (o_kappa s) = true).
  { pose proof twoJ_checked_range as Hr.
    rewrite forallb_forall in Hr.
    specialize (Hr (Z.to_nat (Z.abs (o_kappa s) - 1))).
    rewrite in_seq in Hr.
    assert (Hi : (0 <= Z.to_nat (Z.abs (o_kappa s) - 1) < 0 + 1024)%nat) by lia.
    apply Hr in Hi. apply andb_true_iff in Hi as [Hp Hn].
    replace (Z.of_nat (Z.to_nat (Z.abs (o_kappa s) - 1)) + 1) with (Z.abs (o_kappa s)) in * by lia.
    destruct (Z.abs_eq_or_opp (o_kappa s)) as [He|He].
    - rewrite He in Hp. exact Hp.
    - rewrite He, Z.opp_involutive in Hn. exact Hn. }
  unfold twoJ_checked in Hc. apply Z.eqb_eq in Hc.
  unfold ValenceDirect.twoJ_of, ValenceDirect.oJ, J, TwoJ. simpl. exact Hc.
Qed.

Lemma direct_pair_power_odd (k : Z) (sa sb sc sd s3 s4 : Orbital) :
  small_kappa sa -> small_kappa sb -> small_kappa sc -> small_kappa sd ->
  small_kappa s3 -> small_kappa s4 ->
  Z.odd (ValenceDirect.valence1_pair_power k sa sb sc sd s3 s4)
  = Z.odd (six_line_power k (info_of sa) (info_of sb) (info_of sc) (info_of sd)
             (info_of s3) (info_of s4)).
Proof.
  intros Ha Hb Hc Hd H3 H4.
  unfold ValenceDirect.valence1_pair_power, six_line_power.
  rewrite odd_uint32, !twoJ_of_small by assumption.
  assert (Hsmall : uint32 (TwoJ (info_of sa) + TwoJ (info_of sb) + TwoJ (info_of sc)
                           + TwoJ (info_of sd) + TwoJ (info_of s3) + TwoJ (info_of s4))
                   = TwoJ (info_of sa) + TwoJ (info_of sb) + TwoJ (info_of sc)
                     + TwoJ (info_of sd) + TwoJ (info_of s3) + TwoJ (info_of s4)).
  { unfold uint32. apply Z.mod_small.
    unfold small_kappa in *. unfold TwoJ, info_of; simpl. lia. }
  rewrite Hsmall, TwoJ_sum_half. reflexivity.
Qed.

Lemma stored_term_signed (b1 b2 : bool) (R1 R2 ang cab weight : double) :
  (R1 * R2 * (if b2 then - (ang * cab * (weight * cond_opp b1 one))
              else ang * cab * (weight * cond_opp b1 one)))%D
  = cond_opp b2 (cond_opp b1 (R1 * R2 * (ang * cab * (weight * one)))%D).
Proof.
  change (if b2 then (- (ang * cab * (weight * cond_opp b1 one)))%D
          else (ang * cab * (weight * cond_opp b1 one))%D)
    with (cond_opp b2 (ang * cab * (weight * cond_opp b1 one))%D).
  rewrite !mul_cond_opp_r. reflexivity.
Qed.

Lemma direct_term_signed (b1 b2 : bool) (R1 R2 ang cab weight : double) :
  (R1 * R2 * (if b2 then - (ang * cab * (if b1 then - weight else weight))
              else ang * cab * (if b1 then - weight else weight)))%D
  = cond_opp b2 (cond_opp b1 (R1 * R2 * (ang * cab * weight))%D).
Proof.
  change (if b1 then (- weight)%D else weight) with (cond_opp b1 weight).
  change (if b2 then (- (ang * cab * cond_opp b1 weight))%D
          else (ang * cab * cond_opp b1 weight)%D)
    with (cond_opp b2 (ang * cab * cond_opp b1 weight)%D).
  rewrite !mul_cond_opp_r. reflexivity.
Qed.

(** C1.  In the two-body valence correction every accumulated term
    [R1 * R2 * coeff] is its magnitude (the same product with both sign
    factors taken as [+1]) negated exactly when
    [(TwoJ(a)+TwoJ(b)+TwoJ(c)+TwoJ(d)+TwoJ(alpha)+TwoJ(beta))/2 + k + 1] is
    odd, and negated once more exactly when [k1 + k2] is odd; nothing else
    changes its sign.  The body of the loop over the second intermediate
    orbital is the reference body in which each term is written as such a
    signed magnitude, and so the whole sum is the reference sum.  For the
    sum on the wavefunctions the six [TwoJ] are obtained from
    [(unsigned int)(J * 2.)], which is [TwoJ] for the checked range
    [1 <= |kappa| <= 1024]. *)
Theorem term_sign
    (C : ValenceMBPT.Calculator) (D : ValenceDirect.Calculator) (k : Z)
    (sa sb sc sd : OrbitalInfo) (coeff_ac coeff_bd ValenceEnergy : double)
    (it_alpha it_beta : OrbitalInfo * Orbital) (st : Acc)
    (oa ob oc od o3 o4 : Orbital) (w : ValenceDirect.Work) :
  ValenceMBPT.valence_pair_step C k sa sb sc sd coeff_ac coeff_bd ValenceEnergy
    it_alpha st it_beta
  = StoredReference.pair_step C k sa sb sc sd coeff_ac coeff_bd ValenceEnergy
      it_alpha st it_beta
  /\
  ValenceMBPT.CalculateTwoElectronValence C k sa sb sc sd
  = StoredReference.CalculateTwoElectronValence C k sa sb sc sd
  /\
  (small_kappa oa -> small_kappa ob -> small_kappa oc -> small_kappa od ->
   small_kappa o3 -> small_kappa o4 ->
   ValenceDirect.valence1_pair_step D k oa ob oc od coeff_ac coeff_bd ValenceEnergy o3 w o4
   = DirectReference.pair_step D k oa ob oc od coeff_ac coeff_bd ValenceEnergy o3 w o4)
  /\
  (small_kappa oa -> small_kappa ob -> small_kappa oc -> small_kappa od ->
   Forall small_kappa (ValenceDirect.excited D) ->
   forall MaxStateSize,
     ValenceDirect.CalculateTwoElectronValence1 D MaxStateSize oa ob oc od k
     = DirectReference.CalculateTwoElectronValence1 D MaxStateSize oa ob oc od k).
Proof.
  assert (Stored : forall coeff_ac coeff_bd ValenceEnergy it_alpha st it_beta,
            ValenceMBPT.valence_pair_step C k sa sb sc sd coeff_ac coeff_bd ValenceEnergy
              it_alpha st it_beta
            = StoredReference.pair_step C k sa sb sc sd coeff_ac coeff_bd ValenceEnergy
                it_alpha st it_beta);
    [clear coeff_ac coeff_bd ValenceEnergy it_alpha st it_beta;
     intros coeff_ac coeff_bd ValenceEnergy it_alpha st it_beta
    |assert (Direct : forall coeff_ac coeff_bd ValenceEnergy o3 w o4,
               small_kappa oa -> small_kappa ob -> small_kappa oc -> small_kappa od ->
               small_kappa o3 -> small_kappa o4 ->
               ValenceDirect.valence1_pair_step D k oa ob oc od coeff_ac coeff_bd
                 ValenceEnergy o3 w o4
               = DirectReference.pair_step D k oa ob oc od coeff_ac coeff_bd
                   ValenceEnergy o3 w o4);
     [clear coeff_ac coeff_bd ValenceEnergy o3 w o4 Stored;
      intros coeff_ac coeff_bd ValenceEnergy o3 w o4
     |split; [apply Stored|]; split; [|split; [apply Direct|]]]].
  - unfold ValenceMBPT.valence_pair_step, StoredReference.pair_step.
    destruct (ValenceMBPT.valence_pair_allowed C sa sb sc sd it_alpha.1 it_beta.1);
      [|reflexivity].
    rewrite loop_step2_fold. unfold stored_k_values.
    apply fold_left_ext_in. intros st1 k1 _.
    unfold ValenceMBPT.valence_k1_step. fold (StoredReference.coeff_ab C sa sb it_alpha.1 it_beta.1 k1).
    destruct (truthy (StoredReference.coeff_ab C sa sb it_alpha.1 it_beta.1 k1)); [|reflexivity].
    rewrite loop_step2_fold.
    apply fold_left_ext_in. intros st2 k2 _.
    unfold ValenceMBPT.valence_k2_step.
    fold (StoredReference.angular C k sa sb sc sd it_alpha.1 it_beta.1 k1 k2).
    destruct (truthy (StoredReference.angular C k sa sb sc sd it_alpha.1 it_beta.1 k1 k2));
      [|reflexivity].
    f_equal. unfold signed, StoredReference.magnitude.
    rewrite of_Z_minus_one_to_the_power, stored_pair_power_odd, rem2_true_odd.
    apply stored_term_signed.
  - intros Ha Hb Hc Hd H3 H4.
    unfold ValenceDirect.valence1_pair_step, DirectReference.pair_step.
    destruct (ValenceDirect.valence1_pair_allowed k oa ob oc od o3 o4); [|reflexivity].
    rewrite loop_step2_fold. unfold direct_k_values.
    apply fold_left_ext_in. intros w1 k1 _.
    unfold ValenceDirect.valence1_k1_step. fold (DirectReference.coeff_ab D oa ob o3 o4 k1).
    destruct (truthy (DirectReference.coeff_ab D oa ob o3 o4 k1)); [|reflexivity].
    destruct (ValenceDirect.valence1_R1 D oa ob o3 o4 k1 w1) as [R1 w1'].
    rewrite loop_step2_fold.
    apply fold_left_ext_in. intros w2 k2 _.
    unfold ValenceDirect.valence1_k2_step.
    fold (DirectReference.angular D k oa ob oc od o3 o4 k1 k2).
    destruct (truthy (DirectReference.angular D k oa ob oc od o3 o4 k1 k2)); [|reflexivity].
    destruct (ValenceDirect.valence1_R2 D oc od o3 o4 k2 w2) as [R2 w2'].
    f_equal. unfold signed, DirectReference.magnitude.
    rewrite !rem2_true_odd, (direct_pair_power_odd k oa ob oc od o3 o4) by assumption.
    apply direct_term_signed.
  - unfold ValenceMBPT.CalculateTwoElectronValence, StoredReference.CalculateTwoElectronValence.
    destruct (_ || _); [reflexivity|].
    destruct (ValenceMBPT.ValenceEnergies C !! Kappa sa) as [Va|]; [|reflexivity].
    destruct (ValenceMBPT.ValenceEnergies C !! Kappa sb) as [Vb|]; [|reflexivity].
    simpl. f_equal. apply fold_left_ext_in. intros st1 it1 _.
    unfold ValenceMBPT.valence_alpha_step.
    apply fold_left_ext_in. intros st2 it2 _. apply Stored.
  - intros Ha Hb Hc Hd Hex MaxStateSize.
    rewrite Forall_forall in Hex.
    unfold ValenceDirect.CalculateTwoElectronValence1,
      DirectReference.CalculateTwoElectronValence1.
    destruct (_ || _); [reflexivity|].
    destruct (ValenceDirect.ValenceEnergies D !! o_kappa oa) as [Va|]; [|reflexivity].
    destruct (ValenceDirect.ValenceEnergies D !! o_kappa ob) as [Vb|]; [|reflexivity].
    simpl. f_equal. apply fold_left_ext_in. intros w1 s3 H3.
    unfold ValenceDirect.valence1_s3_step.
    apply fold_left_ext_in. intros w2 s4 H4.
    apply Direct; try assumption; apply Hex; apply list_elem_of_In; assumption.
Qed.

Lemma small_kappa_intro (s : Orbital) :
  (1 <=? Z.abs (o_kappa s)) && (Z.abs (o_kappa s) <=? 1024) = true -> small_kappa s.
Proof. unfold small_kappa. intros H. apply andb_true_iff in H. lia. Qed.

Lemma term_sign_witness :
  let C := Examples.toy_stored in
  let D := Examples.toy_direct in
  let s := info_of Examples.s_6s in
  let e := Examples.entry Examples.s_6p in
  let o := Examples.s_6s in
  let p := Examples.s_6p in
  (small_kappa o /\ small_kappa p /\ Forall small_kappa (ValenceDirect.excited D))
  /\ ValenceMBPT.valence_pair_step C 0 s s s s one one one e (zero, []) e
     = StoredReference.pair_step C 0 s s s s one one one e (zero, []) e
  /\ ValenceDirect.valence1_pair_step D 0 o o o o one one one p (ValenceDirect.init_Work 2) p
     = DirectReference.pair_step D 0 o o o o one one one p (ValenceDirect.init_Work 2) p
  /\ ValenceDirect.CalculateTwoElectronValence1 D 2 o o o o 0
     = DirectReference.CalculateTwoElectronValence1 D 2 o o o o 0.
Proof.
  intros C D s e o p.
  assert (Ho : small_kappa o) by (apply small_kappa_intro; reflexivity).
  assert (Hp : small_kappa p) by (apply small_kappa_intro; reflexivity).
  assert (Hex : Forall small_kappa (ValenceDirect.excited D))
    by (repeat constructor; apply small_kappa_intro; reflexivity).
  destruct (term_sign C D 0 s s s s one one one e e (zero, []) o o o o p p
              (ValenceDirect.init_Work 2)) as [P1 [_ [P2 P3]]].
  split; [split; [exact Ho | split; [exact Hp | exact Hex]]|].
  split; [exact P1|].
  split; [exact (P2 Ho Ho Ho Ho Hp Hp) | exact (P3 Ho Ho Ho Ho Hex 2%nat)].
Defined.

(** A term of the toy system: the pair (6p, 6p) between four 6s lines at
    [k = 0] has [k1 = k2 = 1] only; its six-line power is [3 + 0 + 1 = 4],
    even, and [k1 + k2] is even: the term keeps the sign of its magnitude. *)
Example toy_pair_term :
  let C := Examples.toy_stored in
  let s := info_of Examples.s_6s in
  let e := Examples.entry Examples.s_6p in
  stored_k_values C s e.1 = [1]
  /\ six_line_power 0 s s s s e.1 e.1 = 4
  /\ (ValenceMBPT.valence_pair_step C 0 s s s s one one (of_Z (-4)) e (zero, []) e).1
     = (of_Z 4 / (of_Z (-4) - of_Z (-1) - of_Z (-1) + half))%D.
Proof. vm_compute. repeat split. Qed.

(** ** Ranges of the internal multipoles *)

Lemma triangle_allowed_direct (s1 s2 : Orbital) (x : Z) :
  triangle_allowed (info_of s1) (info_of s2) x ->
  (In x (direct_k_values s1 s2) <-> x <= ValenceDirect.MAX_K).
Proof.
  intros [[Hlo Hhi] Heven]. unfold direct_k_values. rewrite range_step2_In.
  unfold ValenceDirect.oL.
  set (s := L (info_of s1) + L (info_of s2)) in *.
  assert (Hqr := Z.quot_rem' s 2).
  assert (Hb := Z.rem_bound_abs s 2 ltac:(lia)).
  apply Z.even_spec in Heven as [m Hm].
  assert (He : Z.even (x - Z.rem s 2) = true).
  { apply Z.even_spec. exists (m - Z.quot s 2 - Z.rem s 2). lia. }
  split.
  - intros [[_ H] _]. exact H.
  - intros Hle. split; [|exact He]. split; [|exact Hle]. lia.
Qed.

(** Events are only ever appended: what a step has asked for stays in the
    log of the steps that follow. *)
Lemma fold_left_appends {S B : Type} (g : S -> list Event) (f : S -> B -> S)
    (l : list B) (s : S) :
  (forall s y, exists es, g (f s y) = g s ++ es) ->
  exists es, g (fold_left f l s) = g s ++ es.
Proof.
  intros Hf. revert s. induction l as [|y l IH]; intros s; simpl.
  - exists []. now rewrite app_nil_r.
  - destruct (IH (f s y)) as [es1 H1]. destruct (Hf s y) as [es2 H2].
    exists (es2 ++ es1). now rewrite H1, H2, app_assoc.
Qed.

Lemma fold_left_event {S B : Type} (g : S -> list Event) (f : S -> B -> S)
    (l : list B) (s : S) (x : B) (e : Event) :
  (forall s y, exists es, g (f s y) = g s ++ es) ->
  In x l -> (forall s, In e (g (f s x))) -> In e (g (fold_left f l s)).
Proof.
  intros Hf Hin He. revert s. induction l as [|y l IH]; intros s; [contradiction|].
  simpl. destruct Hin as [->|Hin].
  - destruct (fold_left_appends g f l (f s x) Hf) as [es ->].
    apply in_or_app. left. apply He.
  - now apply IH.
Qed.

Lemma stored_k2_step_appends (C : ValenceMBPT.Calculator) (k : Z)
    (sa sb sc sd salpha sbeta : OrbitalInfo) (coeff_alphabeta : double) (k1 : Z)
    (coeff_ab R1 : double) (st : Acc) (k2 : Z) :
  exists es,
    (ValenceMBPT.valence_k2_step C k sa sb sc sd salpha sbeta coeff_alphabeta k1
       coeff_ab R1 k2 st).2 = st.2 ++ es.
Proof.
  unfold ValenceMBPT.valence_k2_step.
  destruct (truthy (if truthy _ then _ else _)).
  - eexists. reflexivity.
  - exists []. now rewrite app_nil_r.
Qed.

Lemma stored_k1_step_appends (C : ValenceMBPT.Calculator) (k : Z)
    (sa sb sc sd salpha sbeta : OrbitalInfo) (coeff_alphabeta : double) (st : Acc) (k1 : Z) :
  exists es,
    (ValenceMBPT.valence_k1_step C k sa sb sc sd salpha sbeta coeff_alphabeta k1 st).2
    = st.2 ++ es.
Proof.
  unfold ValenceMBPT.valence_k1_step.
  destruct (truthy _).
  - rewrite loop_step2_fold.
    destruct (fold_left_appends (fun st : Acc => st.2)
                (fun st k2 =>
                   ValenceMBPT.valence_k2_step C k sa sb sc sd salpha sbeta coeff_alphabeta k1
                     (Electron3j (ValenceMBPT.constants C) (TwoJ sa) (TwoJ salpha) k1 *
                      Electron3j (ValenceMBPT.constants C) (TwoJ sb) (TwoJ sbeta) k1)%D
                     (ValenceMBPT.GetTwoElectronIntegral C k1 sa sb salpha sbeta) k2 st)
                (range_step2 (ValenceMBPT.kmin C salpha sc) (ValenceMBPT.kmax C salpha sc))
                (request (EvTwoElectronIntegral k1 sa sb salpha sbeta) st)) as [es Hes].
    { intros s y. apply stored_k2_step_appends. }
    rewrite Hes. simpl. rewrite <- app_assoc. eexists. reflexivity.
  - exists []. now rewrite app_nil_r.
Qed.

Lemma coulomb_potential_log (D : ValenceDirect.Calculator) (k : Z) (s1 s2 : Orbital)
    (w : ValenceDirect.Work) :
  ValenceDirect.log (ValenceDirect.coulomb_potential D k s1 s2 w)
  = ValenceDirect.log w ++ [EvCoulombIntegrate k (info_of s1) (info_of s2)].
Proof. reflexivity. Qed.

Lemma valence1_R1_log (D : ValenceDirect.Calculator) (sa sb s3 s4 : Orbital) (k1 : Z)
    (w : ValenceDirect.Work) :
  exists es,
    ValenceDirect.log (ValenceDirect.valence1_R1 D sa sb s3 s4 k1 w).2
    = ValenceDirect.log w ++ EvCoulombIntegrate k1 (info_of sb) (info_of s4) :: es.
Proof.
  unfold ValenceDirect.valence1_R1.
  destruct (truthy (ValenceDirect.NuclearInverseMass D) && (k1 =? 1)); simpl.
  - rewrite <- !app_assoc. eexists. reflexivity.
  - eexists. reflexivity.
Qed.

Lemma valence1_R2_log (D : ValenceDirect.Calculator) (sc sd s3 s4 : Orbital) (k2 : Z)
    (w : ValenceDirect.Work) :
  exists es,
    ValenceDirect.log (ValenceDirect.valence1_R2 D sc sd s3 s4 k2 w).2
    = ValenceDirect.log w ++ EvCoulombIntegrate k2 (info_of s4) (info_of sd) :: es.
Proof.
  unfold ValenceDirect.valence1_R2.
  destruct (truthy (ValenceDirect.NuclearInverseMass D) && (k2 =? 1)); simpl.
  - rewrite <- !app_assoc. eexists. reflexivity.
  - eexists. reflexivity.
Qed.

Lemma direct_k2_step_appends (D : ValenceDirect.Calculator) (k : Z)
    (sa sb sc sd s3 s4 : Orbital) (coeff_34 : double) (k1 : Z) (coeff_ab R1 : double)
    (w : ValenceDirect.Work) (k2 : Z) :
  exists es,
    ValenceDirect.log
      (ValenceDirect.valence1_k2_step D k sa sb sc sd s3 s4 coeff_34 k1 coeff_ab R1 k2 w)
    = ValenceDirect.log w ++ es.
Proof.
  unfold ValenceDirect.valence1_k2_step.
  destruct (truthy (if truthy _ then _ else _)).
  - destruct (valence1_R2_log D sc sd s3 s4 k2 w) as [es Hes].
    destruct (ValenceDirect.valence1_R2 D sc sd s3 s4 k2 w) as [R2 w2].
    simpl in *. rewrite Hes. eexists. reflexivity.
  - exists []. now rewrite app_nil_r.
Qed.

Lemma direct_k1_step_appends (D : ValenceDirect.Calculator) (k : Z)
    (sa sb sc sd s3 s4 : Orbital) (coeff_34 : double) (w : ValenceDirect.Work) (k1 : Z) :
  exists es,
    ValenceDirect.log (ValenceDirect.valence1_k1_step D k sa sb sc sd s3 s4 coeff_34 k1 w)
    = ValenceDirect.log w ++ es.
Proof.
  unfold ValenceDirect.valence1_k1_step.
  destruct (truthy _).
  - destruct (valence1_R1_log D sa sb s3 s4 k1 w) as [es1 H1].
    destruct (ValenceDirect.valence1_R1 D sa sb s3 s4 k1 w) as [R1 w1]. simpl in H1.
    rewrite loop_step2_fold.
    match goal with
    | |- exists es, ValenceDirect.log (fold_left ?f ?l w1) = _ =>
        destruct (fold_left_appends ValenceDirect.log f l w1) as [es2 H2]
    end.
    { intros s y. apply direct_k2_step_appends. }
    rewrite H2, H1, <- app_assoc. eexists. reflexivity.
  - exists []. now rewrite app_nil_r.
Qed.

(** C2, as the code has it.  For a surviving pair the loop over [k1] in the
    body of the pair loop, and the loop over [k2] in the body of the [k1]
    loop, go through these values and no others:
    - in the sum on the wavefunctions, from the parity of the respective L
      sum in steps of 2 up to the fixed cutoff [MAX_K = 12], so that a value
      consistent with the triangle rules is gone through exactly when it is
      at most 12;
    - in the sum over stored integrals, from [kmin] to [kmax] of the
      respective pair of lines in steps of 2, with no other cutoff.
    Nothing on these lists is left out: for every value of [k1] on its list
    whose angular coefficient is not zero the radial integral [R1] is asked
    for, and for every value of [k2] on its list whose angular coefficient
    is not zero the radial integral [R2] is. *)
Theorem multipole_ranges
    (C : ValenceMBPT.Calculator) (D : ValenceDirect.Calculator) (k : Z)
    (sa sb sc sd : OrbitalInfo) (it_alpha it_beta : OrbitalInfo * Orbital)
    (coeff_alphabeta : double) (st : Acc)
    (oa ob oc od o3 o4 : Orbital) (coeff_34 : double) (w : ValenceDirect.Work)
    (coeff_ac coeff_bd ValenceEnergy : double) (k1 x : Z) :
  let salpha := it_alpha.1 in
  let sbeta := it_beta.1 in
  (* the sum on the wavefunctions: the values *)
  (In x (direct_k_values oa o3) <->
     Z.rem (ValenceDirect.oL oa + ValenceDirect.oL o3) 2 <= x <= 12
     /\ Z.even (x - Z.rem (ValenceDirect.oL oa + ValenceDirect.oL o3) 2) = true)
  /\ (triangle_allowed (info_of oa) (info_of o3) x ->
      (In x (direct_k_values oa o3) <-> x <= 12))
  (* the loop over k1 in the body of the pair loop *)
  /\ ValenceDirect.valence1_pair_step D k oa ob oc od coeff_ac coeff_bd ValenceEnergy o3 w o4
     = (let w := ValenceDirect.emit (EvVisit (info_of o4)) w in
        if ValenceDirect.valence1_pair_allowed k oa ob oc od o3 o4 then
          let weight := ValenceDirect.valence1_pair_weight D k oa ob oc od o3 o4
                          coeff_ac coeff_bd ValenceEnergy in
          let coeff_34 :=
            if rem2_true (ValenceDirect.valence1_pair_power k oa ob oc od o3 o4)
            then (- weight)%D else weight in
          fold_left (fun w k1 =>
                       ValenceDirect.valence1_k1_step D k oa ob oc od o3 o4 coeff_34 k1 w)
            (direct_k_values oa o3) w
        else w)
  (* the loop over k2 in the body of the k1 loop *)
  /\ ValenceDirect.valence1_k1_step D k oa ob oc od o3 o4 coeff_34 k1 w
     = (if truthy (DirectReference.coeff_ab D oa ob o3 o4 k1) then
          let '(R1, w) := ValenceDirect.valence1_R1 D oa ob o3 o4 k1 w in
          fold_left (fun w k2 =>
                       ValenceDirect.valence1_k2_step D k oa ob oc od o3 o4 coeff_34 k1
                         (DirectReference.coeff_ab D oa ob o3 o4 k1) R1 k2 w)
            (direct_k_values o3 oc) w
        else w)
  (* no value of k1 or k2 on the lists is left out *)
  /\ (ValenceDirect.valence1_pair_allowed k oa ob oc od o3 o4 = true ->
      In x (direct_k_values oa o3) ->
      truthy (DirectReference.coeff_ab D oa ob o3 o4 x) = true ->
      In (EvCoulombIntegrate x (info_of ob) (info_of o4))
         (ValenceDirect.log
            (ValenceDirect.valence1_pair_step D k oa ob oc od coeff_ac coeff_bd
               ValenceEnergy o3 w o4)))
  /\ (truthy (DirectReference.coeff_ab D oa ob o3 o4 k1) = true ->
      In x (direct_k_values o3 oc) ->
      truthy (DirectReference.angular D k oa ob oc od o3 o4 k1 x) = true ->
      In (EvCoulombIntegrate x (info_of o4) (info_of od))
         (ValenceDirect.log
            (ValenceDirect.valence1_k1_step D k oa ob oc od o3 o4 coeff_34 k1 w)))
  (* the sum over stored integrals: the values *)
  /\ (In x (stored_k_values C sa salpha) <->
        ValenceMBPT.kmin C sa salpha <= x <= ValenceMBPT.kmax C sa salpha
        /\ Z.even (x - ValenceMBPT.kmin C sa salpha) = true)
  (* the loop over k1 in the body of the pair loop *)
  /\ ValenceMBPT.valence_pair_step C k sa sb sc sd coeff_ac coeff_bd ValenceEnergy
       it_alpha st it_beta
     = (let st := visit sbeta st in
        if ValenceMBPT.valence_pair_allowed C sa sb sc sd salpha sbeta then
          let weight := ValenceMBPT.valence_pair_weight C k salpha sbeta coeff_ac coeff_bd
                          ValenceEnergy (Energy it_alpha.2) (Energy it_beta.2) in
          let coeff_alphabeta :=
            (weight * of_Z (minus_one_to_the_power
                              (ValenceMBPT.valence_pair_power k sa sb sc sd salpha sbeta)))%D in
          fold_left (fun st k1 =>
                       ValenceMBPT.valence_k1_step C k sa sb sc sd salpha sbeta
                         coeff_alphabeta k1 st)
            (stored_k_values C sa salpha) st
        else st)
  (* the loop over k2 in the body of the k1 loop *)
  /\ ValenceMBPT.valence_k1_step C k sa sb sc sd salpha sbeta coeff_alphabeta k1 st
     = (if truthy (StoredReference.coeff_ab C sa sb salpha sbeta k1) then
          fold_left (fun st k2 =>
                       ValenceMBPT.valence_k2_step C k sa sb sc sd salpha sbeta coeff_alphabeta k1
                         (StoredReference.coeff_ab C sa sb salpha sbeta k1)
                         (ValenceMBPT.GetTwoElectronIntegral C k1 sa sb salpha sbeta) k2 st)
            (stored_k_values C salpha sc)
            (request (EvTwoElectronIntegral k1 sa sb salpha sbeta) st)
        else st)
  (* no value of k1 or k2 on the lists is left out *)
  /\ (ValenceMBPT.valence_pair_allowed C sa sb sc sd salpha sbeta = true ->
      In x (stored_k_values C sa salpha) ->
      truthy (StoredReference.coeff_ab C sa sb salpha sbeta x) = true ->
      In (EvTwoElectronIntegral x sa sb salpha sbeta)
         (ValenceMBPT.valence_pair_step C k sa sb sc sd coeff_ac coeff_bd ValenceEnergy
            it_alpha st it_beta).2)
  /\ (truthy (StoredReference.coeff_ab C sa sb salpha sbeta k1) = true ->
      In x (stored_k_values C salpha sc) ->
      truthy (StoredReference.angular C k sa sb sc sd salpha sbeta k1 x) = true ->
      In (EvTwoElectronIntegral x salpha sbeta sc sd)
         (ValenceMBPT.valence_k1_step C k sa sb sc sd salpha sbeta coeff_alphabeta k1 st).2).
Proof.
  intros salpha sbeta.
  assert (Hd1 : forall c34 k1' w',
             ValenceDirect.valence1_k1_step D k oa ob oc od o3 o4 c34 k1' w'
             = (if truthy (DirectReference.coeff_ab D oa ob o3 o4 k1') then
                  let '(R1, w) := ValenceDirect.valence1_R1 D oa ob o3 o4 k1' w' in
                  fold_left (fun w k2 =>
                               ValenceDirect.valence1_k2_step D k oa ob oc od o3 o4 c34 k1'
                                 (DirectReference.coeff_ab D oa ob o3 o4 k1') R1 k2 w)
                    (direct_k_values o3 oc) w
                else w')).
  { intros c34 k1' w'. unfold ValenceDirect.valence1_k1_step.
    fold (DirectReference.coeff_ab D oa ob o3 o4 k1').
    destruct (truthy (DirectReference.coeff_ab D oa ob o3 o4 k1')); [|reflexivity].
    destruct (ValenceDirect.valence1_R1 D oa ob o3 o4 k1' w') as [R1 w1].
    apply loop_step2_fold. }
  assert (Hs1 : forall cab k1' st',
             ValenceMBPT.valence_k1_step C k sa sb sc sd salpha sbeta cab k1' st'
             = (if truthy (StoredReference.coeff_ab C sa sb salpha sbeta k1') then
                  fold_left (fun st k2 =>
                               ValenceMBPT.valence_k2_step C k sa sb sc sd salpha sbeta cab k1'
                                 (StoredReference.coeff_ab C sa sb salpha sbeta k1')
                                 (ValenceMBPT.GetTwoElectronIntegral C k1' sa sb salpha sbeta)
                                 k2 st)
                    (stored_k_values C salpha sc)
                    (request (EvTwoElectronIntegral k1' sa sb salpha sbeta) st')
                else st')).
  { intros cab k1' st'. unfold ValenceMBPT.valence_k1_step.
    fold (StoredReference.coeff_ab C sa sb salpha sbeta k1').
    destruct (truthy (StoredReference.coeff_ab C sa sb salpha sbeta k1')); [|reflexivity].
    apply loop_step2_fold. }
  assert (Hd2 : forall c34 k1' w',
             truthy (DirectReference.coeff_ab D oa ob o3 o4 k1') = true ->
             In x (direct_k_values o3 oc) ->
             truthy (DirectReference.angular D k oa ob oc od o3 o4 k1' x) = true ->
             In (EvCoulombIntegrate x (info_of o4) (info_of od))
                (ValenceDirect.log
                   (ValenceDirect.valence1_k1_step D k oa ob oc od o3 o4 c34 k1' w'))).
  { intros c34 k1' w' Hab Hx Hang. rewrite Hd1, Hab.
    destruct (ValenceDirect.valence1_R1 D oa ob o3 o4 k1' w') as [R1 w1].
    apply (fold_left_event ValenceDirect.log) with (x := x); [|exact Hx|].
    - intros s y. apply direct_k2_step_appends.
    - intros s. unfold ValenceDirect.valence1_k2_step.
      fold (DirectReference.angular D k oa ob oc od o3 o4 k1' x). rewrite Hang.
      destruct (valence1_R2_log D oc od o3 o4 x s) as [es Hes].
      destruct (ValenceDirect.valence1_R2 D oc od o3 o4 x s) as [R2 w2].
      simpl in *. rewrite Hes. apply in_or_app. right. now left. }
  assert (Hs2 : forall cab k1' st',
             truthy (StoredReference.coeff_ab C sa sb salpha sbeta k1') = true ->
             In x (stored_k_values C salpha sc) ->
             truthy (StoredReference.angular C k sa sb sc sd salpha sbeta k1' x) = true ->
             In (EvTwoElectronIntegral x salpha sbeta sc sd)
                (ValenceMBPT.valence_k1_step C k sa sb sc sd salpha sbeta cab k1' st').2).
  { intros cab k1' st' Hab Hx Hang. rewrite Hs1, Hab.
    apply (fold_left_event (fun st : Acc => st.2)) with (x := x); [|exact Hx|].
    - intros s y. apply stored_k2_step_appends.
    - intros s. unfold ValenceMBPT.valence_k2_step.
      fold (StoredReference.angular C k sa sb sc sd salpha sbeta k1' x). rewrite Hang.
      simpl. apply in_or_app. right. now left. }
  assert (Hdp : ValenceDirect.valence1_pair_step D k oa ob oc od coeff_ac coeff_bd
                  ValenceEnergy o3 w o4
                = (let w := ValenceDirect.emit (EvVisit (info_of o4)) w in
                   if ValenceDirect.valence1_pair_allowed k oa ob oc od o3 o4 then
                     let weight := ValenceDirect.valence1_pair_weight D k oa ob oc od o3 o4
                                     coeff_ac coeff_bd ValenceEnergy in
                     let coeff_34 :=
                       if rem2_true (ValenceDirect.valence1_pair_power k oa ob oc od o3 o4)
                       then (- weight)%D else weight in
                     fold_left (fun w k1 =>
                                  ValenceDirect.valence1_k1_step D k oa ob oc od o3 o4
                                    coeff_34 k1 w)
                       (direct_k_values oa o3) w
                   else w)).
  { unfold ValenceDirect.valence1_pair_step. cbv zeta.
    destruct (ValenceDirect.valence1_pair_allowed k oa ob oc od o3 o4); [|reflexivity].
    apply loop_step2_fold. }
  assert (Hsp : ValenceMBPT.valence_pair_step C k sa sb sc sd coeff_ac coeff_bd ValenceEnergy
                  it_alpha st it_beta
                = (let st := visit sbeta st in
                   if ValenceMBPT.valence_pair_allowed C sa sb sc sd salpha sbeta then
                     let weight := ValenceMBPT.valence_pair_weight C k salpha sbeta
                                     coeff_ac coeff_bd ValenceEnergy
                                     (Energy it_alpha.2) (Energy it_beta.2) in
                     let coeff_alphabeta :=
                       (weight * of_Z (minus_one_to_the_power
                                         (ValenceMBPT.valence_pair_power k sa sb sc sd
                                            salpha sbeta)))%D in
                     fold_left (fun st k1 =>
                                  ValenceMBPT.valence_k1_step C k sa sb sc sd salpha sbeta
                                    coeff_alphabeta k1 st)
                       (stored_k_values C sa salpha) st
                   else st)).
  { unfold ValenceMBPT.valence_pair_step. cbv zeta. fold salpha sbeta.
    destruct (ValenceMBPT.valence_pair_allowed C sa sb sc sd salpha sbeta); [|reflexivity].
    apply loop_step2_fold. }
  split; [apply range_step2_In|].
  split; [apply triangle_allowed_direct|].
  split; [exact Hdp|].
  split; [apply Hd1|].
  split.
  { intros Hal Hx Hab. rewrite Hdp. cbv zeta. rewrite Hal.
    apply (fold_left_event ValenceDirect.log) with (x := x); [|exact Hx|].
    - intros s y. apply direct_k1_step_appends.
    - intros s. rewrite Hd1, Hab.
      destruct (valence1_R1_log D oa ob o3 o4 x s) as [es1 H1].
      destruct (ValenceDirect.valence1_R1 D oa ob o3 o4 x s) as [R1 w1]. simpl in H1.
      match goal with
      | |- In _ (ValenceDirect.log (fold_left ?f ?l w1)) =>
          destruct (fold_left_appends ValenceDirect.log f l w1) as [es2 H2]
      end.
      { intros s' y. apply direct_k2_step_appends. }
      rewrite H2, H1. apply in_or_app. left. apply in_or_app. right. now left. }
  split; [apply Hd2|].
  split; [apply range_step2_In|].
  split; [exact Hsp|].
  split; [apply Hs1|].
  split; [|apply Hs2].
  intros Hal Hx Hab. rewrite Hsp. cbv zeta. rewrite Hal.
  apply (fold_left_event (fun st : Acc => st.2)) with (x := x); [|exact Hx|].
  - intros s y. apply stored_k1_step_appends.
  - intros s. rewrite Hs1, Hab.
    match goal with
    | |- In _ (fold_left ?f ?l ?s0).2 =>
        destruct (fold_left_appends (fun st : Acc => st.2) f l s0) as [es2 H2]
    end.
    { intros s' y. apply stored_k2_step_appends. }
    rewrite H2. simpl. apply in_or_app. left. apply in_or_app. right. now left.
Qed.

Lemma multipole_ranges_witness :
  let o := Examples.s_7i in
  let p := Examples.s_8k in
  let D := Examples.toy_direct_with [p] zero in
  triangle_allowed (info_of o) (info_of p) 11
  /\ (In 11 (direct_k_values o p) <-> 11 <= 12)
  /\ ValenceDirect.valence1_pair_allowed 0 o o o o p p = true
  /\ truthy (DirectReference.coeff_ab D o o p p 11) = true
  /\ In (EvCoulombIntegrate 11 (info_of o) (info_of p))
        (ValenceDirect.log
           (ValenceDirect.valence1_pair_step D 0 o o o o one one (of_Z (-4)) p
              (ValenceDirect.init_Work 2) p)).
Proof.
  intros o p D.
  assert (H : triangle_allowed (info_of o) (info_of p) 11).
  { unfold triangle_allowed. vm_compute. split; [split; discriminate | reflexivity]. }
  assert (Hal : ValenceDirect.valence1_pair_allowed 0 o o o o p p = true)
    by (vm_compute; reflexivity).
  assert (Hab : truthy (DirectReference.coeff_ab D o o p p 11) = true)
    by (vm_compute; reflexivity).
  pose proof (multipole_ranges Examples.toy_stored D 0
                (info_of o) (info_of o) (info_of o) (info_of o)
                (Examples.entry p) (Examples.entry p)
                one (zero, []) o o o o p p one (ValenceDirect.init_Work 2)
                one one (of_Z (-4)) 1 11) as P.
  cbv zeta in P.
  destruct P as [_ [Ptri [_ [_ [Pk1 _]]]]].
  split; [exact H|].
  split; [exact (Ptri H)|].
  split; [exact Hal|].
  split; [exact Hab|].
  apply Pk1; [exact Hal | apply (Ptri H); lia | exact Hab].
Defined.

(** C2 as stated fails on the sum on the wavefunctions.  Between a line with
    [kappa = -7] (L = 6, j = 13/2) and one with [kappa = -8] (L = 7,
    j = 15/2) the multipole 13 satisfies the triangle rule and the parity
    rule, but the loop stops at [MAX_K = 12]: in the run below, where every
    3j coefficient inside the triangle is 1, the integral of [k1 = 11] is
    evaluated and the one of [k1 = 13] never is. *)
Lemma multipole_cutoff_counterexample :
  let a := Examples.s_7i in
  let n := Examples.s_8k in
  let D := Examples.toy_direct_with [n] zero in
  triangle_allowed (info_of a) (info_of n) 13
  /\ ~ In 13 (direct_k_values a n)
  /\ truthy (DirectReference.coeff_ab D a a n n 13) = true
  /\ exists w, ValenceDirect.CalculateTwoElectronValence1 D 2 a a a a 0 = Some w
       /\ In (EvCoulombIntegrate 11 (info_of a) (info_of n)) (ValenceDirect.log w)
       /\ ~ In (EvCoulombIntegrate 13 (info_of a) (info_of n)) (ValenceDirect.log w).
Proof.
  intros a n D.
  split; [unfold triangle_allowed; vm_compute; split; [split; discriminate | reflexivity]|].
  split.
  { intros H. apply range_step2_In in H. destruct H as [[_ H] _]. revert H. vm_compute.
    intros H. apply H. reflexivity. }
  split; [vm_compute; reflexivity|].
  eexists. split; [vm_compute; reflexivity|].
  split.
  - apply list_elem_of_In. apply (bool_decide_unpack _). vm_compute. exact I.
  - intros H. apply list_elem_of_In in H. revert H.
    apply (bool_decide_unpack _). vm_compute. exact I.
Qed.

(** ** The one-body correction *)

Lemma fold_left_filter_map {A : Type} (p : A -> bool) (t : A -> double) (l : list A) (e : double) :
  fold_left (fun e x => if p x then (e + t x)%D else e) l e
  = fold_left add (List.map t (List.filter p l)) e.
Proof.
  revert e. induction l as [|x l IH]; intros e; simpl; [reflexivity|].
  destruct (p x); simpl; apply IH.
Qed.

Lemma map_ext_filter {A B : Type} (f g : A -> B) (p : A -> bool) (l : list A) :
  (forall x, In x l -> f x = g x) -> List.map f (List.filter p l) = List.map g (List.filter p l).
Proof.
  intros H. apply List.map_ext_in. intros x Hx. apply H.
  apply List.filter_In in Hx. tauto.
Qed.

(** C4.  With [s1.Kappa() != s2.Kappa()] the one-body correction is exactly
    [0.0], whatever the tables and orbital sets hold.  With equal kappas
    (and a valence energy stored for that kappa) it is the sum over the
    Q-space intermediate orbitals [alpha] of that kappa of
    [<s1|alpha> <alpha|s2> / (ValenceEnergy(s1) - Energy(alpha) + delta)],
    added up in the order of the orbitals.  On the wavefunctions the matrix
    element between [s1] and [alpha] is asked for as [<alpha|H|s1>], which
    is [<s1|H|alpha>] for a symmetric matrix element. *)
Theorem one_body_correction
    (C : ValenceMBPT.Calculator) (D : ValenceDirect.Calculator)
    (s1 s2 : OrbitalInfo) (o1 o2 : Orbital) (V V' : double) :
  (Kappa s1 <> Kappa s2 -> ValenceMBPT.GetOneElectronSubtraction C s1 s2 = Some zero)
  /\ (o_kappa o1 <> o_kappa o2 -> ValenceDirect.GetOneElectronValence D o1 o2 = Some zero)
  /\ (Kappa s1 = Kappa s2 -> ValenceMBPT.ValenceEnergies C !! Kappa s1 = Some V ->
      ValenceMBPT.GetOneElectronSubtraction C s1 s2
      = Some (sum_of (stored_one_body_terms C s1 s2 V)))
  /\ (o_kappa o1 = o_kappa o2 -> ValenceDirect.ValenceEnergies D !! o_kappa o1 = Some V' ->
      ValenceDirect.GetOneElectronValence D o1 o2
      = Some (sum_of (direct_one_body_terms D o1 o2 V'))
      /\ ((forall alpha, In alpha (ValenceDirect.excited D) ->
             ValenceDirect.HamiltonianMatrixElement D alpha o1
             = ValenceDirect.HamiltonianMatrixElement D o1 alpha) ->
          ValenceDirect.GetOneElectronValence D o1 o2
          = Some (sum_of (direct_one_body_terms_sym D o1 o2 V')))).
Proof.
  split; [|split; [|split]].
  - intros Hne. unfold ValenceMBPT.GetOneElectronSubtraction.
    destruct (Z.eqb_spec (Kappa s1) (Kappa s2)); [contradiction | reflexivity].
  - intros Hne. unfold ValenceDirect.GetOneElectronValence.
    destruct (Z.eqb_spec (o_kappa o1) (o_kappa o2)); [contradiction | reflexivity].
  - intros Heq HV. unfold ValenceMBPT.GetOneElectronSubtraction.
    rewrite Heq, Z.eqb_refl. simpl.
    unfold ValenceMBPT.CalculateOneElectronSub. rewrite HV. simpl. f_equal.
    unfold sum_of, stored_one_body_terms. rewrite <- fold_left_filter_map.
    reflexivity.
  - intros Heq HV.
    assert (Hcode : ValenceDirect.GetOneElectronValence D o1 o2
                    = Some (sum_of (direct_one_body_terms D o1 o2 V'))).
    { unfold ValenceDirect.GetOneElectronValence.
      rewrite <- Heq, Z.eqb_refl. simpl.
      unfold ValenceDirect.CalculateOneElectronValence1. rewrite HV. simpl. f_equal.
      unfold sum_of, direct_one_body_terms. rewrite <- fold_left_filter_map.
      reflexivity. }
    split; [exact Hcode|].
    intros Hsym. rewrite Hcode. do 2 f_equal.
    unfold direct_one_body_terms, direct_one_body_terms_sym.
    apply map_ext_filter. intros alpha Hin. rewrite (Hsym alpha Hin). reflexivity.
Qed.

Lemma one_body_correction_witness :
  let C := Examples.toy_stored in
  let D := Examples.toy_direct in
  let s := info_of Examples.s_6s in
  let p := info_of Examples.s_6p in
  let os := Examples.s_6s in
  let op := Examples.s_6p in
  (Kappa s <> Kappa p /\ ValenceMBPT.GetOneElectronSubtraction C s p = Some zero)
  /\ (o_kappa os <> o_kappa op /\ ValenceDirect.GetOneElectronValence D os op = Some zero)
  /\ ((Kappa s = Kappa s /\ ValenceMBPT.ValenceEnergies C !! Kappa s = Some (of_Z (-2)))
      /\ ValenceMBPT.GetOneElectronSubtraction C s s
         = Some (sum_of (stored_one_body_terms C s s (of_Z (-2)))))
  /\ ((o_kappa os = o_kappa os /\ ValenceDirect.ValenceEnergies D !! o_kappa os = Some (of_Z (-2))
       /\ (forall alpha, In alpha (ValenceDirect.excited D) ->
             ValenceDirect.HamiltonianMatrixElement D alpha os
             = ValenceDirect.HamiltonianMatrixElement D os alpha))
      /\ ValenceDirect.GetOneElectronValence D os os
         = Some (sum_of (direct_one_body_terms_sym D os os (of_Z (-2))))).
Proof.
  intros C D s p os op.
  destruct (one_body_correction C D s p os op (of_Z (-2)) (of_Z (-2))) as [P1 [P2 _]].
  destruct (one_body_correction C D s s os os (of_Z (-2)) (of_Z (-2))) as [_ [_ [P3 P4]]].
  assert (H1 : Kappa s <> Kappa p) by (vm_compute; discriminate).
  assert (H2 : o_kappa os <> o_kappa op) by (vm_compute; discriminate).
  assert (H3 : ValenceMBPT.ValenceEnergies C !! Kappa s = Some (of_Z (-2)))
    by (vm_compute; reflexivity).
  assert (H4 : ValenceDirect.ValenceEnergies D !! o_kappa os = Some (of_Z (-2)))
    by (vm_compute; reflexivity).
  assert (H5 : forall alpha, In alpha (ValenceDirect.excited D) ->
                 ValenceDirect.HamiltonianMatrixElement D alpha os
                 = ValenceDirect.HamiltonianMatrixElement D os alpha)
    by (intros alpha _; reflexivity).
  split; [split; [exact H1 | exact (P1 H1)]|].
  split; [split; [exact H2 | exact (P2 H2)]|].
  split; [split; [split; [reflexivity | exact H3] | exact (P3 eq_refl H3)]|].
  split; [split; [reflexivity | split; [exact H4 | exact H5]]
         | exact (proj2 (P4 eq_refl H4) H5)].
Defined.

(** The one-body correction of the toy system between two 6s lines: the only
    Q-space orbital of that kappa is 6s itself, at energy [-1], so the sum is
    [1 * 1 / (-2 - (-1) + 1/2) = -2]. *)
Example toy_one_body :
  ValenceMBPT.GetOneElectronSubtraction Examples.toy_stored
    (info_of Examples.s_6s) (info_of Examples.s_6s) = Some (of_Z (-2))
  /\ ValenceDirect.GetOneElectronValence Examples.toy_direct Examples.s_6s Examples.s_6s
     = Some (of_Z (-2)).
Proof. vm_compute. split; reflexivity. Qed.

(** ** Energy denominators *)







(** A degenerate orbital in the toy system: 5s sits exactly at the valence
    energy [-2] of its channel; its term is [1 * 1 / delta = 2]. *)
Example toy_degenerate_term :
  ValenceMBPT.CalculateOneElectronSub_step Examples.toy_stored
    (info_of Examples.s_6s) (info_of Examples.s_6s) (of_Z (-2)) zero
    (Examples.entry Examples.s_5s) = of_Z 2.
Proof. vm_compute. reflexivity. Qed.

(** ** The sigma map of the decorator *)

Section DecoratorFacts.

Context {X : Brueckner.Collaborators}.

Lemma CalculateSigma_present (kappa : Z) (calc : Brueckner.BruecknerSigmaCalculator X)
    (d : Brueckner.Decorator X) :
  is_Some (Brueckner.sigmas d !! kappa) -> Brueckner.CalculateSigma kappa calc d = (d, []).
Proof. intros [sigma Hs]. unfold Brueckner.CalculateSigma. rewrite Hs. reflexivity. Qed.

Lemma CalculateSigma_stores (kappa : Z) (calc : Brueckner.BruecknerSigmaCalculator X)
    (d : Brueckner.Decorator X) :
  is_Some (Brueckner.sigmas (Brueckner.CalculateSigma kappa calc d).1 !! kappa).
Proof.
  unfold Brueckner.CalculateSigma.
  destruct (Brueckner.sigmas d !! kappa) eqn:Hs; simpl.
  - rewrite Hs. eauto.
  - rewrite lookup_insert_eq. eauto.
Qed.

End DecoratorFacts.

(** C8.  [CalculateSigma] is memoized per angular channel.  When a sigma is
    already stored for [kappa], either overload does nothing: no second-order
    sigma is computed and the decorator, its map included, is what it was.
    When none is stored, one sigma is computed and inserted at [kappa], every
    other channel keeping what it had.  Hence a second call for the same
    [kappa], with whatever calculator, changes nothing and computes
    nothing. *)
Theorem CalculateSigma_memoized (X : Brueckner.Collaborators) (kappa : Z)
    (calc calc' : Brueckner.BruecknerSigmaCalculator X)
    (orbitals : Brueckner.OrbitalManager X) (hartreeY : Brueckner.HartreeY X)
    (bare_hf : option (Brueckner.HFOperator X)) (d : Brueckner.Decorator X) :
  (is_Some (Brueckner.sigmas d !! kappa) ->
     Brueckner.CalculateSigma kappa calc d = (d, [])
     /\ Brueckner.CalculateSigma_from kappa orbitals hartreeY bare_hf d = (d, []))
  /\ (Brueckner.sigmas d !! kappa = None ->
        Brueckner.CalculateSigma kappa calc d
        = (Brueckner.set_sigmas
             (<[kappa :=
                  Brueckner.GetSecondOrderSigma X calc kappa
                    (Brueckner.IncludeLower X (Brueckner.use_fg d) (Brueckner.use_gg d)
                       (Brueckner.SigmaPotential_new X
                          (Brueckner.lattice_size (Brueckner.lattice d)) 100))]>
                (Brueckner.sigmas d)) d,
           [Brueckner.EvGetSecondOrderSigma kappa])
        /\ Brueckner.CalculateSigma_from kappa orbitals hartreeY bare_hf d
           = Brueckner.CalculateSigma kappa
               (Brueckner.BruecknerSigmaCalculator_new X orbitals
                  (default (Brueckner.wrapped d) bare_hf) hartreeY) d)
  /\ (forall kappa', kappa' <> kappa ->
        Brueckner.sigmas (Brueckner.CalculateSigma kappa calc d).1 !! kappa'
        = Brueckner.sigmas d !! kappa')
  /\ Brueckner.CalculateSigma kappa calc' (Brueckner.CalculateSigma kappa calc d).1
     = ((Brueckner.CalculateSigma kappa calc d).1, [])
  /\ Brueckner.CalculateSigma_from kappa orbitals hartreeY bare_hf
       (Brueckner.CalculateSigma kappa calc d).1
     = ((Brueckner.CalculateSigma kappa calc d).1, []).
Proof.
  split; [|split; [|split; [|split]]].
  - intros Hs. split; [apply CalculateSigma_present; exact Hs|].
    destruct Hs as [sigma Hs]. unfold Brueckner.CalculateSigma_from. rewrite Hs. reflexivity.
  - intros Hn. split.
    + unfold Brueckner.CalculateSigma. rewrite Hn. reflexivity.
    + unfold Brueckner.CalculateSigma_from. rewrite Hn. destruct bare_hf; reflexivity.
  - intros kappa' Hne. unfold Brueckner.CalculateSigma.
    destruct (Brueckner.sigmas d !! kappa); simpl; [reflexivity|].
    apply lookup_insert_ne. congruence.
  - apply CalculateSigma_present, CalculateSigma_stores.
  - pose proof (CalculateSigma_stores kappa calc d) as [sigma Hs].
    unfold Brueckner.CalculateSigma_from. rewrite Hs. reflexivity.
Qed.

Lemma CalculateSigma_memoized_witness :
  let X := Examples.toy_collaborators in
  (is_Some (Brueckner.sigmas Examples.toy_decorator_s !! (-1))
   /\ Brueckner.CalculateSigma (-1) (tt : Brueckner.BruecknerSigmaCalculator X)
        Examples.toy_decorator_s = (Examples.toy_decorator_s, []))
  /\ (Brueckner.sigmas Examples.toy_decorator !! (-1) = None
      /\ (Brueckner.CalculateSigma (-1) (tt : Brueckner.BruecknerSigmaCalculator X)
            Examples.toy_decorator).2 = [Brueckner.EvGetSecondOrderSigma (-1)]).
Proof.
  intros X.
  assert (H1 : is_Some (Brueckner.sigmas Examples.toy_decorator_s !! (-1)))
    by (vm_compute; eauto).
  assert (H2 : Brueckner.sigmas Examples.toy_decorator !! (-1) = None)
    by (vm_compute; reflexivity).
  destruct (CalculateSigma_memoized X (-1) tt tt tt tt None Examples.toy_decorator_s)
    as [P1 _].
  destruct (CalculateSigma_memoized X (-1) tt tt tt tt None Examples.toy_decorator)
    as [_ [P2 _]].
  split; [split; [exact H1 | exact (proj1 (P1 H1))]|].
  split; [exact H2|].
  rewrite (proj1 (P2 H2)). reflexivity.
Defined.

(** Computing the sigma of channel [-1] twice on the toy decorator: the first
    call computes it on the three lattice points, the second does nothing. *)
Example toy_CalculateSigma_twice :
  let X := Examples.toy_collaborators in
  let r1 := Brueckner.CalculateSigma (-1) (tt : Brueckner.BruecknerSigmaCalculator X)
              Examples.toy_decorator in
  let r2 := Brueckner.CalculateSigma (-1) (tt : Brueckner.BruecknerSigmaCalculator X) r1.1 in
  Brueckner.sigmas r1.1 !! (-1) = Some [of_Z (-1); of_Z (-1); of_Z (-1)]
  /\ r1.2 = [Brueckner.EvGetSecondOrderSigma (-1)]
  /\ Brueckner.sigmas r2.1 !! (-1) = Some [of_Z (-1); of_Z (-1); of_Z (-1)]
  /\ r2.2 = [].
Proof. cbv zeta. repeat split; vm_compute; reflexivity. Qed.
(** ** Files of the sigma potentials *)

Lemma string_length_app (s t : string) :
  String.length (s +:+ t) = (String.length s + String.length t)%nat.
Proof. induction s as [|a s IH]; simpl; [reflexivity | rewrite IH; reflexivity]. Qed.

Lemma string_app_inv_tail (s1 s2 t : string) : s1 +:+ t = s2 +:+ t -> s1 = s2.
Proof.
  revert s2. induction s1 as [|a s1 IH]; intros [|b s2] H.
  - reflexivity.
  - apply (f_equal String.length) in H. rewrite !string_length_app in H.
    change (String.length "") with 0%nat in H.
    change (String.length (String b s2)) with (S (String.length s2)) in H. lia.
  - apply (f_equal String.length) in H. rewrite !string_length_app in H.
    change (String.length "") with 0%nat in H.
    change (String.length (String a s1)) with (S (String.length s1)) in H. lia.
  - change (String a (s1 +:+ t) = String b (s2 +:+ t)) in H.
    injection H as -> H. f_equal. apply IH. exact H.
Qed.

(** Two channels never share a file. *)
Lemma sigma_filename_inj (identifier : string) (k1 k2 : Z) :
  Brueckner.sigma_filename identifier k1 = Brueckner.sigma_filename identifier k2 -> k1 = k2.
Proof.
  unfold Brueckner.sigma_filename, Brueckner.itoa. intros H.
  apply (inj (String.app identifier)) in H.
  apply (inj (String.app ".")) in H.
  apply string_app_inv_tail in H.
  apply (inj pretty) in H. exact H.
Qed.

Lemma entries_in_order_elem {V : Type} (m : gmap Z V) (k : Z) (v : V) :
  In (k, v) (Brueckner.entries_in_order m) <-> m !! k = Some v.
Proof.
  unfold Brueckner.entries_in_order.
  rewrite <- list_elem_of_In, merge_sort_Permutation. apply elem_of_map_to_list.
Qed.

Lemma entries_in_order_length {V : Type} (m : gmap Z V) :
  length (Brueckner.entries_in_order m) = base.size m.
Proof.
  unfold Brueckner.entries_in_order.
  rewrite merge_sort_Permutation. apply length_map_to_list.
Qed.

(** C9, as the code has it.  [Read(identifier, kappa)] asks a fresh sigma
    potential to read the file [identifier.kappa.sigma] and returns nothing:
    it is a [void] function that neither raises nor tells its caller how the
    read went.  When the read fails the decorator, its sigma map included, is
    left as it was; when it succeeds the entry of [kappa] is set to the
    loaded potential and every other channel keeps what it had.
    [Write(identifier)] writes the potential of every channel of the map, and
    nothing else, each to its own file [identifier.kappa.sigma], and has no
    decorator to return.  After a failed read of a channel that had no
    sigma, [CalculateSigma] computes one. *)
Theorem sigma_files (X : Brueckner.Collaborators) (reader : Brueckner.FileReader X)
    (identifier : string) (kappa : Z) (d : Brueckner.Decorator X) :
  (Brueckner.Read reader identifier kappa d).2
  = [Brueckner.EvRead (Brueckner.sigma_filename identifier kappa)]
  /\ (reader (Brueckner.sigma_filename identifier kappa) = None ->
      (Brueckner.Read reader identifier kappa d).1 = d)
  /\ (forall sigma, reader (Brueckner.sigma_filename identifier kappa) = Some sigma ->
      (Brueckner.Read reader identifier kappa d).1
      = Brueckner.set_sigmas (<[kappa := sigma]> (Brueckner.sigmas d)) d
      /\ Brueckner.sigmas (Brueckner.Read reader identifier kappa d).1 !! kappa = Some sigma
      /\ forall kappa', kappa' <> kappa ->
           Brueckner.sigmas (Brueckner.Read reader identifier kappa d).1 !! kappa'
           = Brueckner.sigmas d !! kappa')
  /\ (forall k sigma,
        In (Brueckner.EvWrite (Brueckner.sigma_filename identifier k) sigma)
           (Brueckner.Write identifier d)
        <-> Brueckner.sigmas d !! k = Some sigma)
  /\ (forall e, In e (Brueckner.Write identifier d) ->
        exists k sigma, e = Brueckner.EvWrite (Brueckner.sigma_filename identifier k) sigma)
  /\ length (Brueckner.Write identifier d) = base.size (Brueckner.sigmas d)
  /\ (forall calc, reader (Brueckner.sigma_filename identifier kappa) = None ->
        Brueckner.sigmas d !! kappa = None ->
        (Brueckner.CalculateSigma kappa calc (Brueckner.Read reader identifier kappa d).1).2
        = [Brueckner.EvGetSecondOrderSigma kappa]).
Proof.
  split; [|split; [|split; [|split; [|split; [|split]]]]];
    [| | | | | | intros calc Hr Hn; unfold Brueckner.Read, Brueckner.CalculateSigma;
                 rewrite Hr; simpl; rewrite Hn; reflexivity].
  - unfold Brueckner.Read. destruct (reader _); reflexivity.
  - intros Hr. unfold Brueckner.Read. rewrite Hr. reflexivity.
  - intros sigma Hr. unfold Brueckner.Read. rewrite Hr. simpl.
    split; [reflexivity|]. split; [apply lookup_insert_eq|].
    intros kappa' Hne. apply lookup_insert_ne. congruence.
  - intros k sigma. unfold Brueckner.Write. rewrite <- entries_in_order_elem.
    rewrite <- !list_elem_of_In, list_elem_of_fmap. split.
    + intros [[k' sigma'] [He Hin]]. simpl in He.
      injection He as Hf Hs. apply sigma_filename_inj in Hf. subst. exact Hin.
    + intros Hin. exists (k, sigma). split; [reflexivity | exact Hin].
  - intros e. unfold Brueckner.Write. rewrite <- list_elem_of_In, list_elem_of_fmap.
    intros [[k sigma] [-> _]]. exists k, sigma. reflexivity.
  - unfold Brueckner.Write. rewrite length_fmap. apply entries_in_order_length.
Qed.

Lemma sigma_files_witness :
  let X := Examples.toy_collaborators in
  let d := Examples.toy_decorator in
  (Examples.reader_without_file (Brueckner.sigma_filename "Cs" (-1)) = None
   /\ (Brueckner.Read Examples.reader_without_file "Cs" (-1) d).1 = d)
  /\ (Examples.reader_with_file (Brueckner.sigma_filename "Cs" (-1)) = Some [two; two; two]
      /\ Brueckner.sigmas (Brueckner.Read Examples.reader_with_file "Cs" (-1) d).1 !! (-1)
         = Some [two; two; two]).
Proof.
  intros X d.
  assert (H1 : Examples.reader_without_file (Brueckner.sigma_filename "Cs" (-1)) = None)
    by reflexivity.
  assert (H2 : Examples.reader_with_file (Brueckner.sigma_filename "Cs" (-1))
               = Some [two; two; two]) by (vm_compute; reflexivity).
  destruct (sigma_files X Examples.reader_without_file "Cs" (-1) d) as [_ [P1 _]].
  destruct (sigma_files X Examples.reader_with_file "Cs" (-1) d) as [_ [_ [P2 _]]].
  split; [split; [exact H1 | exact (P1 H1)]|].
  split; [exact H2 | exact (proj1 (proj2 (P2 _ H2)))].
Defined.

(** C9 as stated fails: [Read] does not report failure.  On a decorator
    that already holds, for channel [-1], the potential that the file
    contains, a read that succeeds and a read that fails leave exactly the
    same decorator and the same trace, and [Read] returns no value that could
    tell them apart. *)
Lemma Read_reports_nothing_counterexample :
  let d := Examples.toy_decorator_s in
  Examples.reader_with_file (Brueckner.sigma_filename "Cs" (-1)) = Some [two; two; two]
  /\ Examples.reader_without_file (Brueckner.sigma_filename "Cs" (-1)) = None
  /\ Brueckner.Read Examples.reader_with_file "Cs" (-1) d
     = Brueckner.Read Examples.reader_without_file "Cs" (-1) d.
Proof.
  intros d. split; [vm_compute; reflexivity|]. split; [reflexivity|].
  unfold Brueckner.Read.
  replace (Examples.reader_with_file (Brueckner.sigma_filename "Cs" (-1)))
    with (Some [two; two; two] : option (Brueckner.SigmaPotential Examples.toy_collaborators))
    by (vm_compute; reflexivity).
  change (Examples.reader_without_file (Brueckner.sigma_filename "Cs" (-1)))
    with (None : option (Brueckner.SigmaPotential Examples.toy_collaborators)).
  reflexivity.
Qed.

(** Writing the toy decorator: one file for its one channel. *)
Example toy_Write :
  (fun e => match e with
            | Brueckner.EvWrite filename sigma => Some (filename, sigma)
            | _ => None
            end) <$> Brueckner.Write "Cs" Examples.toy_decorator_s
  = [Some ("Cs.-1.sigma", [two; two; two])].
Proof. vm_compute. reflexivity. Qed.

(** ** The region the decorator changes *)

Lemma combine_onto_nil_r (op : double -> double -> double) (l : list double) :
  combine_onto op l [] = l.
Proof. destruct l; reflexivity. Qed.

Lemma combine_onto_lookup_ge (op : double -> double -> double) (l other : list double) (i : nat) :
  (length other <= i)%nat -> combine_onto op l other !! i = l !! i.
Proof.
  revert l i. induction other as [|y other IH]; intros l i Hi.
  - rewrite combine_onto_nil_r. reflexivity.
  - destruct i as [|i]; [simpl in Hi; lia|].
    destruct l as [|x l]; simpl.
    + rewrite IH by (simpl in Hi; lia). reflexivity.
    + apply IH. simpl in Hi. lia.
Qed.

Lemma sf_sub_empty (ta : SpinorFunction) (kap : Z) :
  sf_sub ta (SpinorFunction_empty kap) = ta.
Proof.
  destruct ta as [kap' f g dfdr dgdr].
  unfold sf_sub, sf_combine, SpinorFunction_empty.
  cbn [sf_kappa sf_f sf_g sf_dfdr sf_dgdr].
  rewrite !combine_onto_nil_r. reflexivity.
Qed.

Lemma sf_resize_pads (n : nat) (s : SpinorFunction) :
  (sf_size s <= n)%nat ->
  sf_f (sf_resize n s) = sf_f s ++ replicate (n - sf_size s) zero
  /\ sf_size (sf_resize n s) = n.
Proof.
  intros Hn. unfold sf_size, sf_resize in *. simpl.
  split; [apply resize_ge; exact Hn | apply length_resize].
Qed.

Section FrameFacts.

Context {X : Brueckner.Collaborators}.

Lemma injects_outside (d : Brueckner.Decorator X) (latticepoint : nat) :
  (sf_size (Brueckner.currentExchangePotential d) <= latticepoint)%nat ->
  Brueckner.injects d latticepoint = false.
Proof.
  intros H. unfold Brueckner.injects.
  destruct (Nat.ltb_spec latticepoint (sf_size (Brueckner.currentExchangePotential d)));
    [lia | apply andb_false_r].
Qed.

Lemma ODE_not_injected (d : Brueckner.Decorator X) (latticepoint : nat) (fg : SpinorFunction)
    (w : double * double) (wc : (double * double) * (double * double) * (double * double))
    (jd : ((double * double) * (double * double)) * (double * double)) :
  Brueckner.injects d latticepoint = false ->
  Brueckner.GetODEFunction d latticepoint fg w
  = Brueckner.wrapped_GetODEFunction X (Brueckner.wrapped d) latticepoint fg w
  /\ Brueckner.GetODECoefficients d latticepoint fg wc
     = Brueckner.wrapped_GetODECoefficients X (Brueckner.wrapped d) latticepoint fg wc
  /\ Brueckner.GetODEJacobian d latticepoint fg jd
     = Brueckner.wrapped_GetODEJacobian X (Brueckner.wrapped d) latticepoint fg jd.
Proof.
  intros Hi.
  unfold Brueckner.GetODEFunction, Brueckner.GetODECoefficients, Brueckner.GetODEJacobian.
  rewrite Hi. split; [reflexivity|]. split.
  - destruct (Brueckner.wrapped_GetODECoefficients X _ _ _ _) as [[w_f w_g] w_const].
    reflexivity.
  - destruct (Brueckner.wrapped_GetODEJacobian X _ _ _ _) as [jacobian dwdr]. reflexivity.
Qed.

Lemma CalculateExtraNonlocal_absent (d : Brueckner.Decorator X) (s : SpinorFunction) (b : bool) :
  Brueckner.sigmas d !! sf_kappa s = None ->
  Brueckner.CalculateExtraNonlocal d s b = SpinorFunction_empty (sf_kappa s).
Proof. intros H. unfold Brueckner.CalculateExtraNonlocal. rewrite H. reflexivity. Qed.

End FrameFacts.

(** C7, as the code has it.  The decorator changes what the wrapped operator
    returns only where its extra term lives.
    - [GetODEFunction], [GetODECoefficients] and [GetODEJacobian] return the
      wrapped operator's values at every [latticepoint] at or beyond the size
      of the stored exchange potential (and everywhere when the nonlocal part
      is switched off).
    - After [SetODEParameters] on a wavefunction whose kappa has no sigma,
      the stored exchange potential is empty, so that holds at every point.
    - [ApplyTo] on a function whose kappa has no sigma returns the wrapped
      operator's result; with a sigma, the result differs from it only below
      the extent of the extra term.
    - The extra term is the sigma applied to the function, scaled by
      [-lambda]; a function shorter than the sigma is first resized to the
      size of the sigma, which pads it with zeros; a longer one is applied as
      it is.
    - No operation changes the lattice or the sigma map's potentials; [Alert]
      only cuts the stored exchange potential down to the lattice. *)
Theorem decorator_frame (X : Brueckner.Collaborators) (d : Brueckner.Decorator X)
    (latticepoint : nat) (fg a : SpinorFunction)
    (approximation : Brueckner.SingleParticleWavefunction)
    (w : double * double) (wc : (double * double) * (double * double) * (double * double))
    (jd : ((double * double) * (double * double)) * (double * double)) :
  ((sf_size (Brueckner.currentExchangePotential d) <= latticepoint)%nat
   \/ Brueckner.include_nonlocal d = false ->
     Brueckner.GetODEFunction d latticepoint fg w
     = Brueckner.wrapped_GetODEFunction X (Brueckner.wrapped d) latticepoint fg w
     /\ Brueckner.GetODECoefficients d latticepoint fg wc
        = Brueckner.wrapped_GetODECoefficients X (Brueckner.wrapped d) latticepoint fg wc
     /\ Brueckner.GetODEJacobian d latticepoint fg jd
        = Brueckner.wrapped_GetODEJacobian X (Brueckner.wrapped d) latticepoint fg jd)
  /\ (Brueckner.sigmas d !! sf_kappa (Brueckner.spw_spinor approximation) = None ->
      let d' := Brueckner.SetODEParameters approximation d in
      sf_size (Brueckner.currentExchangePotential d') = 0%nat
      /\ Brueckner.GetODEFunction d' latticepoint fg w
         = Brueckner.wrapped_GetODEFunction X (Brueckner.wrapped d') latticepoint fg w
      /\ Brueckner.GetODECoefficients d' latticepoint fg wc
         = Brueckner.wrapped_GetODECoefficients X (Brueckner.wrapped d') latticepoint fg wc
      /\ Brueckner.GetODEJacobian d' latticepoint fg jd
         = Brueckner.wrapped_GetODEJacobian X (Brueckner.wrapped d') latticepoint fg jd)
  /\ (Brueckner.sigmas d !! sf_kappa a = None ->
      Brueckner.ApplyTo d a = Brueckner.wrapped_ApplyTo X (Brueckner.wrapped d) a)
  /\ ((sf_extent (Brueckner.CalculateExtraNonlocal d a false) <= latticepoint)%nat ->
      let ta := Brueckner.wrapped_ApplyTo X (Brueckner.wrapped d) a in
      sf_f (Brueckner.ApplyTo d a) !! latticepoint = sf_f ta !! latticepoint
      /\ sf_g (Brueckner.ApplyTo d a) !! latticepoint = sf_g ta !! latticepoint
      /\ sf_dfdr (Brueckner.ApplyTo d a) !! latticepoint = sf_dfdr ta !! latticepoint
      /\ sf_dgdr (Brueckner.ApplyTo d a) !! latticepoint = sf_dgdr ta !! latticepoint)
  /\ (forall sigma, Brueckner.sigmas d !! sf_kappa a = Some sigma ->
      Brueckner.CalculateExtraNonlocal d a false
      = sf_scale (- Brueckner.lambda d)%D
          (Brueckner.SigmaPotential_ApplyTo X sigma
             (if (sf_size a <? Brueckner.SigmaPotential_size X sigma)%nat
              then sf_resize (Brueckner.SigmaPotential_size X sigma) a else a)
             (Brueckner.lattice d))
      /\ ((sf_size a < Brueckner.SigmaPotential_size X sigma)%nat ->
          sf_f (sf_resize (Brueckner.SigmaPotential_size X sigma) a)
          = sf_f a ++ replicate (Brueckner.SigmaPotential_size X sigma - sf_size a) zero
          /\ sf_size (sf_resize (Brueckner.SigmaPotential_size X sigma) a)
             = Brueckner.SigmaPotential_size X sigma))
  /\ (Brueckner.lattice (Brueckner.SetODEParameters approximation d) = Brueckner.lattice d
      /\ Brueckner.sigmas (Brueckner.SetODEParameters approximation d) = Brueckner.sigmas d
      /\ Brueckner.lattice (Brueckner.Alert d) = Brueckner.lattice d
      /\ Brueckner.sigmas (Brueckner.Alert d) = Brueckner.sigmas d
      /\ (sf_size (Brueckner.currentExchangePotential (Brueckner.Alert d))
          <= Brueckner.lattice_size (Brueckner.lattice d))%nat).
Proof.
  split; [|split; [|split; [|split; [|split]]]].
  - intros H. apply ODE_not_injected. destruct H as [H|H].
    + apply injects_outside. exact H.
    + unfold Brueckner.injects. rewrite H. reflexivity.
  - intros Hn d'.
    assert (Hz : sf_size (Brueckner.currentExchangePotential d') = 0%nat).
    { unfold d', Brueckner.SetODEParameters. simpl.
      rewrite CalculateExtraNonlocal_absent by exact Hn. reflexivity. }
    split; [exact Hz|]. apply ODE_not_injected, injects_outside. lia.
  - intros Hn. unfold Brueckner.ApplyTo.
    rewrite CalculateExtraNonlocal_absent by exact Hn. apply sf_sub_empty.
  - intros He ta. unfold Brueckner.ApplyTo. fold ta. unfold sf_extent in He.
    unfold sf_sub, sf_combine. simpl.
    repeat split; apply combine_onto_lookup_ge; lia.
  - intros sigma Hs. split.
    + unfold Brueckner.CalculateExtraNonlocal. rewrite Hs.
      destruct (sf_size a <? Brueckner.SigmaPotential_size X sigma)%nat; reflexivity.
    + intros Hlt. apply sf_resize_pads. lia.
  - repeat split.
    + unfold Brueckner.Alert. destruct (_ <? _)%nat; reflexivity.
    + unfold Brueckner.Alert. destruct (_ <? _)%nat; reflexivity.
    + unfold Brueckner.Alert.
      destruct (Nat.ltb_spec (Brueckner.lattice_size (Brueckner.lattice d))
                  (sf_size (Brueckner.currentExchangePotential d))) as [Hlt|Hge].
      * simpl. unfold sf_size, sf_resize. simpl. rewrite length_resize. lia.
      * exact Hge.
Qed.
Lemma decorator_frame_witness :
  let X := Examples.toy_collaborators in
  let d := Examples.toy_decorator_s in
  let a := Examples.toy_spinor 1 [one; one] in
  let approximation :=
    {| Brueckner.spw_spinor := a; Brueckner.spw_pqn := 6; Brueckner.spw_energy := zero |} in
  let w := (one, two) in
  ((sf_size (Brueckner.currentExchangePotential d) <= 2)%nat
   /\ Brueckner.GetODEFunction d 2 a w
      = Brueckner.wrapped_GetODEFunction X (Brueckner.wrapped d) 2%nat a w)
  /\ (Brueckner.sigmas d !! sf_kappa a = None
      /\ Brueckner.ApplyTo d a = Brueckner.wrapped_ApplyTo X (Brueckner.wrapped d) a)
  /\ (Brueckner.sigmas d !! sf_kappa (Brueckner.spw_spinor approximation) = None
      /\ sf_size (Brueckner.currentExchangePotential
                    (Brueckner.SetODEParameters approximation d)) = 0%nat).
Proof.
  intros X d a approximation w.
  assert (H1 : (sf_size (Brueckner.currentExchangePotential d) <= 2)%nat)
    by (vm_compute; lia).
  assert (H2 : Brueckner.sigmas d !! sf_kappa a = None) by (vm_compute; reflexivity).
  destruct (decorator_frame X d 2 a a approximation w
              ((zero, zero), (zero, zero), (zero, zero))
              (((zero, zero), (zero, zero)), (zero, zero))) as [P1 [P2 [P3 _]]].
  split; [split; [exact H1 | exact (proj1 (P1 (or_introl H1)))]|].
  split; [split; [exact H2 | exact (P3 H2)]|].
  split; [exact H2 | exact (proj1 (P2 H2))].
Defined.

(** C7 as stated fails for [ApplyTo]: what it changes does not depend on the
    stored exchange potential.  The toy decorator holds a sigma for
    [kappa = -1] and an empty stored exchange potential (no ODE parameters
    were set), so every lattice point is at or beyond its size; still
    [ApplyTo] on a function of that kappa differs from the wrapped operator's
    result at lattice point 0. *)
Lemma ApplyTo_region_counterexample :
  let X := Examples.toy_collaborators in
  let d := Examples.toy_decorator_s in
  let a := Examples.toy_spinor (-1) [one; one] in
  (sf_size (Brueckner.currentExchangePotential d) <= 0)%nat
  /\ sf_f (Brueckner.ApplyTo d a) !! 0%nat = Some (of_Z 3)
  /\ sf_f (Brueckner.wrapped_ApplyTo X (Brueckner.wrapped d) a) !! 0%nat = Some one
  /\ sf_f (Brueckner.ApplyTo d a) !! 0%nat
     <> sf_f (Brueckner.wrapped_ApplyTo X (Brueckner.wrapped d) a) !! 0%nat.
Proof.
  intros X d a.
  assert (H1 : sf_f (Brueckner.ApplyTo d a) !! 0%nat = Some (of_Z 3))
    by (vm_compute; reflexivity).
  assert (H2 : sf_f (Brueckner.wrapped_ApplyTo X (Brueckner.wrapped d) a) !! 0%nat = Some one)
    by (vm_compute; reflexivity).
  split; [vm_compute; lia|]. split; [exact H1|]. split; [exact H2|].
  rewrite H1, H2. discriminate.
Qed.

(** On the toy decorator, whose sigma for [kappa = -1] doubles a function on
    three lattice points: a function on two points is padded to three before
    the sigma is applied, and the result of [ApplyTo] differs from the wrapped
    operator's (which here returns its argument) on those three points. *)
Example toy_ApplyTo :
  let d := Examples.toy_decorator_s in
  let a := Examples.toy_spinor (-1) [one; one] in
  sf_f (Brueckner.CalculateExtraNonlocal d a false) = [of_Z (-2); of_Z (-2); S754_zero true]
  /\ sf_f (Brueckner.ApplyTo d a) = [of_Z 3; of_Z 3; zero]
  /\ sf_f (Brueckner.wrapped_ApplyTo Examples.toy_collaborators (Brueckner.wrapped d) a)
     = [one; one].
Proof. vm_compute. repeat split. Qed.

(** ** The isotope-shift term *)

Lemma fold_left_opt_ext_in {A B : Type} (f g : A -> B -> option A) (l : list B) (a : A) :
  (forall a b, In b l -> f a b = g a b) -> ValenceDirect.fold_left_opt f l a = ValenceDirect.fold_left_opt g l a.
Proof.
  revert a. induction l as [|b l IH]; intros a Hfg; simpl; [reflexivity|].
  rewrite Hfg by (left; reflexivity).
  destruct (g a b) as [a'|]; simpl; [|reflexivity].
  apply IH. intros a'' b' Hin. apply Hfg. right. exact Hin.
Qed.

Section IsotopeShiftFacts.

Variable D : ValenceDirect.Calculator.
Variable isi : Orbital -> Orbital -> double.
Hypothesis no_mass : truthy (ValenceDirect.NuclearInverseMass D) = false.

Lemma valence1_R1_no_mass (sa sb s3 s4 : Orbital) (k1 : Z) (w : ValenceDirect.Work) :
  ValenceDirect.valence1_R1 (with_IsotopeShiftIntegral isi D) sa sb s3 s4 k1 w = ValenceDirect.valence1_R1 D sa sb s3 s4 k1 w.
Proof.
  unfold ValenceDirect.valence1_R1. simpl. rewrite no_mass. reflexivity.
Qed.

Lemma valence1_R2_no_mass (sc sd s3 s4 : Orbital) (k2 : Z) (w : ValenceDirect.Work) :
  ValenceDirect.valence1_R2 (with_IsotopeShiftIntegral isi D) sc sd s3 s4 k2 w = ValenceDirect.valence1_R2 D sc sd s3 s4 k2 w.
Proof.
  unfold ValenceDirect.valence1_R2. simpl. rewrite no_mass. reflexivity.
Qed.

Lemma valence1_k1_step_no_mass (k : Z) (sa sb sc sd s3 s4 : Orbital) (coeff_34 : double)
    (k1 : Z) (w : ValenceDirect.Work) :
  ValenceDirect.valence1_k1_step (with_IsotopeShiftIntegral isi D) k sa sb sc sd s3 s4 coeff_34 k1 w
  = ValenceDirect.valence1_k1_step D k sa sb sc sd s3 s4 coeff_34 k1 w.
Proof.
  unfold ValenceDirect.valence1_k1_step.
  change (ValenceDirect.constants (with_IsotopeShiftIntegral isi D)) with (ValenceDirect.constants D).
  destruct (truthy (_ * _)%D); [|reflexivity].
  rewrite valence1_R1_no_mass.
  destruct (ValenceDirect.valence1_R1 D sa sb s3 s4 k1 w) as [R1 w1].
  apply loop_step2_ext. intros k2 w2 _.
  unfold ValenceDirect.valence1_k2_step.
  change (ValenceDirect.constants (with_IsotopeShiftIntegral isi D)) with (ValenceDirect.constants D).
  match goal with
  | |- context [truthy (if ?c then ?x else ?y)] => destruct (truthy (if c then x else y))
  end; [|reflexivity].
  rewrite valence1_R2_no_mass. reflexivity.
Qed.

Lemma CalculateTwoElectronValence1_no_mass (n : nat) (sa sb sc sd : Orbital) (k : Z) :
  ValenceDirect.CalculateTwoElectronValence1 (with_IsotopeShiftIntegral isi D) n sa sb sc sd k
  = ValenceDirect.CalculateTwoElectronValence1 D n sa sb sc sd k.
Proof.
  unfold ValenceDirect.CalculateTwoElectronValence1.
  change (ValenceDirect.constants (with_IsotopeShiftIntegral isi D)) with (ValenceDirect.constants D).
  change (ValenceDirect.ValenceEnergies (with_IsotopeShiftIntegral isi D)) with (ValenceDirect.ValenceEnergies D).
  change (ValenceDirect.excited (with_IsotopeShiftIntegral isi D)) with (ValenceDirect.excited D).
  destruct (_ || _); [reflexivity|].
  destruct (ValenceDirect.ValenceEnergies D !! o_kappa sa) as [Va|]; [|reflexivity].
  destruct (ValenceDirect.ValenceEnergies D !! o_kappa sb) as [Vb|]; [|reflexivity].
  simpl. f_equal. apply fold_left_ext_in. intros w3 s3 _.
  unfold ValenceDirect.valence1_s3_step.
  change (ValenceDirect.excited (with_IsotopeShiftIntegral isi D)) with (ValenceDirect.excited D).
  apply fold_left_ext_in. intros w4 s4 _.
  unfold ValenceDirect.valence1_pair_step.
  destruct (ValenceDirect.valence1_pair_allowed k sa sb sc sd s3 s4); [|reflexivity].
  apply loop_step2_ext. intros k1 w1 _. apply valence1_k1_step_no_mass.
Qed.

Lemma valence2_SMS_no_mass (k : Z) (s1 s2 : Orbital) (w : ValenceDirect.Work) :
  ValenceDirect.valence2_SMS (with_IsotopeShiftIntegral isi D) k s1 s2 w = (zero, w)
  /\ ValenceDirect.valence2_SMS D k s1 s2 w = (zero, w).
Proof.
  unfold ValenceDirect.valence2_SMS. simpl. rewrite no_mass. split; reflexivity.
Qed.

Lemma valence2_step_zero (sx sz : Orbital) (w : ValenceDirect.Work) (s3 : Orbital) :
  ValenceDirect.valence2_step (with_IsotopeShiftIntegral isi D) zero sx sz w s3 = ValenceDirect.valence2_step D zero sx sz w s3.
Proof. reflexivity. Qed.

Lemma CalculateTwoElectronValence2_no_mass (n : nat) (sa sb sc sd : Orbital) (k : Z) :
  ValenceDirect.CalculateTwoElectronValence2 (with_IsotopeShiftIntegral isi D) n sa sb sc sd k
  = ValenceDirect.CalculateTwoElectronValence2 D n sa sb sc sd k.
Proof.
  unfold ValenceDirect.CalculateTwoElectronValence2.
  change (ValenceDirect.coulomb_potential (with_IsotopeShiftIntegral isi D)) with (ValenceDirect.coulomb_potential D).
  change (ValenceDirect.excited (with_IsotopeShiftIntegral isi D)) with (ValenceDirect.excited D).
  rewrite (proj1 (valence2_SMS_no_mass k sb sd _)), (proj2 (valence2_SMS_no_mass k sb sd _)).
  rewrite (fold_left_opt_ext_in _ (ValenceDirect.valence2_step D zero sa sc))
    by (intros; apply valence2_step_zero).
  destruct (ValenceDirect.fold_left_opt _ _ _) as [w1|]; simpl; [|reflexivity].
  rewrite (proj1 (valence2_SMS_no_mass k sa sc _)), (proj2 (valence2_SMS_no_mass k sa sc _)).
  apply fold_left_opt_ext_in. intros; apply valence2_step_zero.
Qed.

End IsotopeShiftFacts.

(** The loops of the subtraction sum, step by step, are those of the
    reference. *)
Lemma valence2_SMS_cases (D : ValenceDirect.Calculator) (k : Z) (s1 s2 : Orbital)
    (w : ValenceDirect.Work) :
  ValenceDirect.valence2_SMS D k s1 s2 w
  = (if truthy (ValenceDirect.NuclearInverseMass D) && (k =? 1)
     then (ValenceDirect.NuclearInverseMass D * ValenceDirect.IsotopeShiftIntegral D s1 s2)%D
     else zero,
     if truthy (ValenceDirect.NuclearInverseMass D) && (k =? 1)
     then ValenceDirect.emit (EvIsotopeShiftIntegral (info_of s1) (info_of s2)) w
     else w).
Proof.
  unfold ValenceDirect.valence2_SMS.
  destruct (truthy (ValenceDirect.NuclearInverseMass D) && (k =? 1)); reflexivity.
Qed.

Lemma valence2_term_reference (D : ValenceDirect.Calculator) (k : Z)
    (outer1 outer2 : Orbital) (w0 : ValenceDirect.Work) (minus : bool)
    (c1 c2 i1 i2 sx s3 : Orbital) (w : ValenceDirect.Work) :
  ValenceDirect.valence2_term D (ValenceDirect.valence2_SMS D k outer1 outer2 w0).1
    minus c1 c2 i1 i2 sx s3 w
  = SubtractionReference.term D k outer1 outer2 minus c1 c2 i1 i2 sx s3 w.
Proof.
  rewrite valence2_SMS_cases.
  unfold ValenceDirect.valence2_term, SubtractionReference.term,
    SubtractionReference.shifted, SubtractionReference.shift_applies.
  cbn [fst].
  destruct (truthy (ValenceDirect.NuclearInverseMass D) && (k =? 1)); cbn [andb].
  - destruct (truthy (ValenceDirect.NuclearInverseMass D
                      * ValenceDirect.IsotopeShiftIntegral D outer1 outer2)%D);
      reflexivity.
  - reflexivity.
Qed.

Lemma valence2_step_reference (D : ValenceDirect.Calculator) (k : Z)
    (outer1 outer2 sx sz : Orbital) (w0 w : ValenceDirect.Work) (s3 : Orbital) :
  ValenceDirect.valence2_step D (ValenceDirect.valence2_SMS D k outer1 outer2 w0).1 sx sz w s3
  = SubtractionReference.step D k outer1 outer2 sx sz w s3.
Proof.
  unfold ValenceDirect.valence2_step, SubtractionReference.step. cbv zeta.
  rewrite (valence2_term_reference D k outer1 outer2 w0 true).
  destruct (if (5 <=? o_pqn s3) && (o_kappa s3 =? o_kappa sx) then _ else _) as [w1|];
    [|reflexivity].
  cbn [mbind option_bind].
  now rewrite (valence2_term_reference D k outer1 outer2 w0 false).
Qed.

Lemma valence2_half_reference (D : ValenceDirect.Calculator) (k : Z)
    (outer1 outer2 sx sz : Orbital) (w : ValenceDirect.Work) :
  (let w := ValenceDirect.coulomb_potential D k outer1 outer2 w in
   let '(SMS, w) := ValenceDirect.valence2_SMS D k outer1 outer2 w in
   ValenceDirect.fold_left_opt (ValenceDirect.valence2_step D SMS sx sz)
     (ValenceDirect.excited D) w)
  = SubtractionReference.half_sum D k outer1 outer2 sx sz w.
Proof.
  cbv zeta. unfold SubtractionReference.half_sum. cbv zeta.
  set (w1 := ValenceDirect.coulomb_potential D k outer1 outer2 w).
  pose proof (valence2_step_reference D k outer1 outer2 sx sz w1) as Hstep.
  rewrite valence2_SMS_cases in Hstep |- *. cbn [fst] in Hstep.
  apply fold_left_opt_ext_in. intros a b _. apply Hstep.
Qed.

Lemma CalculateTwoElectronValence2_reference (D : ValenceDirect.Calculator) (n : nat)
    (sa sb sc sd : Orbital) (k : Z) :
  ValenceDirect.CalculateTwoElectronValence2 D n sa sb sc sd k
  = SubtractionReference.CalculateTwoElectronValence2 D n sa sb sc sd k.
Proof.
  unfold ValenceDirect.CalculateTwoElectronValence2,
    SubtractionReference.CalculateTwoElectronValence2.
  cbv zeta.
  rewrite <- (valence2_half_reference D k sb sd sa sc). cbv zeta.
  destruct (ValenceDirect.valence2_SMS D k sb sd _) as [SMS_bd w1].
  destruct (ValenceDirect.fold_left_opt _ _ w1) as [w2|]; [|reflexivity].
  cbn [mbind option_bind].
  rewrite <- (valence2_half_reference D k sa sc sb sd). cbv zeta.
  destruct (ValenceDirect.valence2_SMS D k sa sc _) as [SMS_ac w3]. reflexivity.
Qed.

(** A cross term with a zero factor is a zero: it does not change the value
    of what it is added to or taken off. *)
Lemma double_eq_same (x : double) : is_nan x = false -> double_eq x x = true.
Proof.
  destruct x as [s|s| |s m e]; try discriminate; intros _; unfold double_eq, SFeqb; simpl.
  - reflexivity.
  - destruct s; reflexivity.
  - rewrite Z.compare_refl, Pos.compare_cont_refl. destruct s; reflexivity.
Qed.

Lemma cross_term_zero (z y R : double) :
  truthy z = false -> is_finite y = true -> is_nan R = false ->
  double_eq (R - z * y)%D R = true /\ double_eq (R + z * y)%D R = true.
Proof.
  intros Hz Hy Hn.
  destruct z as [sz| | |]; try discriminate.
  assert (Hm : exists s, (S754_zero sz * y)%D = S754_zero s)
    by (destruct y; try discriminate; eexists; reflexivity).
  destruct Hm as [s ->].
  destruct R as [sr|sr| |sr mr er]; try discriminate.
  - destruct s, sr; split; reflexivity.
  - split; apply (double_eq_same (S754_infinity sr)); reflexivity.
  - split; apply (double_eq_same (S754_finite sr mr er)); reflexivity.
Qed.

(** C10.  In the two-body valence correction on the wavefunctions:
    - the radial integral [R1] (resp. [R2]) of a term is the Coulomb integral
      of multipole [k1] (resp. [k2]) from which, when the nuclear inverse mass
      is not zero and the multipole is 1, the product of the nuclear inverse
      mass and the two isotope-shift integrals of its orbital pairs is taken
      off; otherwise it is the Coulomb integral itself;
    - it is this [R1] and this [R2] that the term [R1 * R2 * coeff] is
      accumulated from;
    - in the subtraction sum the factor [SMS] is the product of the nuclear
      inverse mass and the isotope-shift integral of the outer pair when the
      nuclear inverse mass is not zero and the outer [k] is 1, and zero
      otherwise; a radial integral is corrected by [SMS] times the
      isotope-shift integral of its pair when [SMS] is not zero, and used as
      it is otherwise;
    - every step of the subtraction sum, and the subtraction sum as a whole,
      is the one in which each hole-line term is built from the radial
      integral so corrected: the cross term, the product of the nuclear
      inverse mass and the isotope-shift integrals of the outer pair and of
      the pair of the term, is taken off on the first hole line and added on
      the second;
    - where the mass is not zero and [k] is 1 but [SMS] is zero, the cross
      term left out is a zero: adding it or taking it off would give a
      radial integral equal to the one used; so the radial integral of every
      term is the one the rule of the specification gives (mass not zero and
      [k = 1]: cross term applied; otherwise untouched), identically when
      [SMS] is not zero or the rule does not apply, and up to the sign of a
      zero otherwise, for finite isotope-shift integrals;
    - with a nuclear inverse mass of zero the sums do not depend on the
      isotope-shift integrals at all. *)
Theorem isotope_shift (D : ValenceDirect.Calculator) (isi : Orbital -> Orbital -> double)
    (k k1 k2 : Z) (sa sb sc sd s3 s4 c1 c2 i1 i2 sx : Orbital)
    (coeff_34 coeff_ab R1 SMS : double) (minus : bool) (w : ValenceDirect.Work) (n : nat) :
  let NIM := ValenceDirect.NuclearInverseMass D in
  let ISI := ValenceDirect.IsotopeShiftIntegral D in
  (ValenceDirect.valence1_R1 D sa sb s3 s4 k1 w).1
  = isotope_shifted NIM k1
      (ValenceDirect.contract (ValenceDirect.dR D)
         (ValenceDirect.pot (ValenceDirect.coulomb_potential D k1 sb s4 w)) sa s3)
      (NIM * ISI s3 sa * ISI s4 sb)%D
  /\ (ValenceDirect.valence1_R2 D sc sd s3 s4 k2 w).1
     = isotope_shifted NIM k2
         (ValenceDirect.contract (ValenceDirect.dR D)
            (ValenceDirect.pot (ValenceDirect.coulomb_potential D k2 s4 sd w)) s3 sc)
         (NIM * ISI s3 sc * ISI s4 sd)%D
  /\ ValenceDirect.valence1_k1_step D k sa sb sc sd s3 s4 coeff_34 k1 w
     = (if truthy (DirectReference.coeff_ab D sa sb s3 s4 k1) then
          loop_step2 (Z.rem (ValenceDirect.oL s3 + ValenceDirect.oL sc) 2) ValenceDirect.MAX_K
            (ValenceDirect.valence1_k2_step D k sa sb sc sd s3 s4 coeff_34 k1
               (DirectReference.coeff_ab D sa sb s3 s4 k1)
               (ValenceDirect.valence1_R1 D sa sb s3 s4 k1 w).1)
            (ValenceDirect.valence1_R1 D sa sb s3 s4 k1 w).2
        else w)
  /\ ValenceDirect.valence1_k2_step D k sa sb sc sd s3 s4 coeff_34 k1 coeff_ab R1 k2 w
     = (if truthy (DirectReference.angular D k sa sb sc sd s3 s4 k1 k2) then
          ValenceDirect.add_energy
            (R1 * (ValenceDirect.valence1_R2 D sc sd s3 s4 k2 w).1
             * cond_opp (Z.odd (k1 + k2))
                 (DirectReference.angular D k sa sb sc sd s3 s4 k1 k2 * coeff_ab * coeff_34))%D
            (ValenceDirect.valence1_R2 D sc sd s3 s4 k2 w).2
        else w)
  /\ (ValenceDirect.valence2_SMS D k sb sd w).1
     = (if truthy NIM && (k =? 1) then NIM * ISI sb sd else zero)%D
  /\ ValenceDirect.valence2_term D SMS minus c1 c2 i1 i2 sx s3 w
     = (Ex ← ValenceDirect.ValenceEnergies D !! o_kappa sx;
        let R := ValenceDirect.contract (ValenceDirect.dR D) (ValenceDirect.pot w) c1 c2 in
        let R := if truthy SMS
                 then (if minus then R - SMS * ISI i1 i2 else R + SMS * ISI i1 i2)%D
                 else R in
        let w := if truthy SMS
                 then ValenceDirect.emit (EvIsotopeShiftIntegral (info_of i1) (info_of i2)) w
                 else w in
        Some (ValenceDirect.add_energy
                (R * ValenceDirect.HamiltonianMatrixElement D sx s3
                 / (Ex - Energy s3 + ValenceDirect.delta D))%D w))
  /\ (forall w' s3',
        ValenceDirect.valence2_step D (ValenceDirect.valence2_SMS D k sb sd w).1 sa sc w' s3'
        = SubtractionReference.step D k sb sd sa sc w' s3')
  /\ ValenceDirect.CalculateTwoElectronValence2 D n sa sb sc sd k
     = SubtractionReference.CalculateTwoElectronValence2 D n sa sb sc sd k
  /\ (truthy (NIM * ISI sb sd)%D = false -> is_finite (ISI i1 i2) = true ->
      is_nan R1 = false ->
      double_eq (R1 - NIM * ISI sb sd * ISI i1 i2)%D R1 = true
      /\ double_eq (R1 + NIM * ISI sb sd * ISI i1 i2)%D R1 = true)
  /\ (truthy (NIM * ISI sb sd)%D = true \/ SubtractionReference.rule_applies D k = false ->
      SubtractionReference.shifted D k sb sd minus R1 i1 i2
      = SubtractionReference.shifted_as_stated D k sb sd minus R1 i1 i2)
  /\ (truthy (NIM * ISI sb sd)%D = false -> is_finite (ISI i1 i2) = true ->
      is_nan R1 = false ->
      double_eq (SubtractionReference.shifted_as_stated D k sb sd minus R1 i1 i2)
                (SubtractionReference.shifted D k sb sd minus R1 i1 i2) = true)
  /\ (truthy NIM = false ->
      ValenceDirect.CalculateTwoElectronValence1 (with_IsotopeShiftIntegral isi D) n sa sb sc sd k
      = ValenceDirect.CalculateTwoElectronValence1 D n sa sb sc sd k
      /\ ValenceDirect.CalculateTwoElectronValence2 (with_IsotopeShiftIntegral isi D) n sa sb sc sd k
         = ValenceDirect.CalculateTwoElectronValence2 D n sa sb sc sd k).
Proof.
  intros NIM ISI.
  split; [|split; [|split; [|split; [|split; [|split; [|split; [|split; [|split;
    [|split; [|split]]]]]]]]]].
  - unfold ValenceDirect.valence1_R1, isotope_shifted. fold NIM.
    destruct (truthy NIM && (k1 =? 1)); reflexivity.
  - unfold ValenceDirect.valence1_R2, isotope_shifted. fold NIM.
    destruct (truthy NIM && (k2 =? 1)); reflexivity.
  - unfold ValenceDirect.valence1_k1_step. fold (DirectReference.coeff_ab D sa sb s3 s4 k1).
    destruct (truthy (DirectReference.coeff_ab D sa sb s3 s4 k1)); [|reflexivity].
    destruct (ValenceDirect.valence1_R1 D sa sb s3 s4 k1 w) as [R w1]. reflexivity.
  - unfold ValenceDirect.valence1_k2_step.
    fold (DirectReference.angular D k sa sb sc sd s3 s4 k1 k2).
    destruct (truthy (DirectReference.angular D k sa sb sc sd s3 s4 k1 k2)); [|reflexivity].
    destruct (ValenceDirect.valence1_R2 D sc sd s3 s4 k2 w) as [R2 w2].
    rewrite rem2_true_odd. reflexivity.
  - unfold ValenceDirect.valence2_SMS. fold NIM.
    destruct (truthy NIM && (k =? 1)); reflexivity.
  - unfold ValenceDirect.valence2_term. destruct (truthy SMS); reflexivity.
  - intros w' s3'. apply valence2_step_reference.
  - apply CalculateTwoElectronValence2_reference.
  - intros Hz Hf Hn. apply cross_term_zero; assumption.
  - unfold SubtractionReference.shifted, SubtractionReference.shifted_as_stated,
      SubtractionReference.shift_applies, SubtractionReference.rule_applies.
    fold NIM ISI. intros [-> | ->]; [rewrite andb_true_r|]; reflexivity.
  - unfold SubtractionReference.shifted, SubtractionReference.shifted_as_stated,
      SubtractionReference.shift_applies, SubtractionReference.rule_applies.
    fold NIM ISI. intros Hz Hf Hn. rewrite Hz, andb_false_r.
    destruct (truthy NIM && (k =? 1)).
    + destruct (cross_term_zero (NIM * ISI sb sd)%D (ISI i1 i2) R1 Hz Hf Hn) as [Hm Hp].
      destruct minus; assumption.
    + apply double_eq_same. exact Hn.
  - intros Hm. split.
    + apply CalculateTwoElectronValence1_no_mass. exact Hm.
    + apply CalculateTwoElectronValence2_no_mass. exact Hm.
Qed.

Lemma isotope_shift_witness :
  let D := Examples.toy_direct in
  let o := Examples.s_6s in
  truthy (ValenceDirect.NuclearInverseMass D) = false
  /\ ValenceDirect.CalculateTwoElectronValence1 (with_IsotopeShiftIntegral (fun _ _ => two) D)
       2 o o o o 0
     = ValenceDirect.CalculateTwoElectronValence1 D 2 o o o o 0.
Proof.
  intros D o.
  assert (H : truthy (ValenceDirect.NuclearInverseMass D) = false) by reflexivity.
  split; [exact H|].
  pose proof (isotope_shift D (fun _ _ => two) 0 1 1 o o o o o o o o o o o
                one one one one true (ValenceDirect.init_Work 2) 2) as P.
  cbv zeta in P.
  destruct P as [_ [_ [_ [_ [_ [_ [_ [_ [_ [_ [_ P]]]]]]]]]]].
  exact (proj1 (P H)).
Defined.

(** With a nuclear inverse mass of 1 in the toy system (every isotope-shift
    integral is 1, the Coulomb integral between 6s and 6p lines is 8): the
    integral of [k1 = 1] is [8 - 1 * 1 * 1 = 7], the one of [k1 = 3] stays 8. *)
Example toy_isotope_shift :
  let D := Examples.toy_direct_with [Examples.s_6s; Examples.s_6p] one in
  let s := Examples.s_6s in
  let p := Examples.s_6p in
  (ValenceDirect.valence1_R1 D s s p p 1 (ValenceDirect.init_Work 2)).1 = of_Z 7
  /\ (ValenceDirect.valence1_R1 D s s p p 3 (ValenceDirect.init_Work 2)).1 = of_Z 8
  /\ ValenceDirect.log (ValenceDirect.valence1_R1 D s s p p 1 (ValenceDirect.init_Work 2)).2
     = [EvCoulombIntegrate 1 (info_of s) (info_of p);
        EvIsotopeShiftIntegral (info_of p) (info_of s);
        EvIsotopeShiftIntegral (info_of p) (info_of s)].
Proof. vm_compute. repeat split. Qed.

(** ** The sums on the toy systems

    Four 6s lines at [k = 0], with 3d, 6s and 6p as intermediate orbitals,
    every stored integral and matrix element being 1.  The pairs (6s, 6s) and
    (6p, 6p) survive, each with weight [4 / (-4 + 1 + 1 + 1/2) = -8/3] and an
    even sign power: the stored-integral sum is [-16/3] after four integral
    lookups; on the wavefunctions every Coulomb integral is 8, so the sum is
    64 times that.  The subtraction sums are [4 * (1 / (-1/2)) = -8] and
    [4 * (8 / (-1/2)) = -64]. *)
Example toy_two_body_stored :
  let s := info_of Examples.s_6s in
  let p := info_of Examples.s_6p in
  fst <$> ValenceMBPT.CalculateTwoElectronValence Examples.toy_stored 0 s s s s
  = Some (- (of_Z 16 / of_Z 3))%D
  /\ List.filter is_integral_event
       <$> (snd <$> ValenceMBPT.CalculateTwoElectronValence Examples.toy_stored 0 s s s s)
     = Some [EvTwoElectronIntegral 0 s s s s; EvTwoElectronIntegral 0 s s s s;
             EvTwoElectronIntegral 1 s s p p; EvTwoElectronIntegral 1 p p s s]
  /\ ValenceMBPT.CalculateTwoElectronSub Examples.toy_stored 0 s s s s = Some (of_Z (-8)).
Proof. vm_compute. repeat split. Qed.

Example toy_two_body_direct :
  let o := Examples.s_6s in
  fst <$> ValenceDirect.GetTwoElectronBoxValence Examples.toy_direct o o o o 0
  = Some (- (of_Z 1024 / of_Z 3))%D
  /\ ValenceDirect.energy <$> ValenceDirect.CalculateTwoElectronValence2 Examples.toy_direct 2 o o o o 0
     = Some (of_Z (-64))
  /\ fst <$> ValenceDirect.GetTwoElectronValence Examples.toy_direct o o o o 0
     = Some (- (of_Z 1024 / of_Z 3) + of_Z (-64))%D.
Proof. vm_compute. repeat split. Qed.

(** * Further properties of the code *)

(** ** Orbital labels *)

(** X1.  For a label with [kappa <> 0] the accessors of [OrbitalInfo] fit
    together: [L] and [L_Prime] are not negative, differ by one and add up to
    [TwoJ]; [MaxNumElectrons] is [TwoJ + 1]; and [kappa] is recovered from
    [L] and [TwoJ] ([-(L + 1)] when [TwoJ = 2 L + 1], [L] otherwise). *)
Theorem OrbitalInfo_angular_momenta (s : OrbitalInfo) :
  kappa s <> 0 ->
  0 <= L s /\ 0 <= L_Prime s /\
  Z.abs (L s - L_Prime s) = 1 /\
  L s + L_Prime s = TwoJ s /\
  MaxNumElectrons s = TwoJ s + 1 /\
  Kappa s = (if TwoJ s =? 2 * L s + 1 then - (L s + 1) else L s).
Proof.
  intros Hk. unfold L, L_Prime, TwoJ, MaxNumElectrons, Kappa.
  destruct (Z.ltb_spec 0 (kappa s)); destruct (Z.ltb_spec (kappa s) 0); try lia.
  - destruct (Z.eqb_spec (2 * Z.abs (kappa s) - 1) (2 * kappa s + 1));
      repeat split; lia.
  - destruct (Z.eqb_spec (2 * Z.abs (kappa s) - 1) (2 * (- kappa s - 1) + 1));
      repeat split; lia.
Qed.

Lemma OrbitalInfo_angular_momenta_witness :
  let s := {| pqn := 6; kappa := -2 |} in
  kappa s <> 0 /\
  (0 <= L s /\ 0 <= L_Prime s /\
   Z.abs (L s - L_Prime s) = 1 /\
   L s + L_Prime s = TwoJ s /\
   MaxNumElectrons s = TwoJ s + 1 /\
   Kappa s = (if TwoJ s =? 2 * L s + 1 then - (L s + 1) else L s)).
Proof.
  split; [simpl; lia | apply OrbitalInfo_angular_momenta; simpl; lia].
Defined.

(** ** The subtraction sums of [ValenceMBPTCalculator] *)

Lemma fold_left_filter_skip {A B : Type} (f : A -> B -> A) (p : B -> bool) (l : list B) (a : A) :
  (forall a x, p x = false -> f a x = a) ->
  fold_left f (List.filter p l) a = fold_left f l a.
Proof.
  intros Hskip. revert a. induction l as [|x l IH]; intros a; simpl; [reflexivity|].
  destruct (p x) eqn:Hp; simpl.
  - apply IH.
  - rewrite (Hskip a x Hp). apply IH.
Qed.

Lemma CalculateTwoElectronSub_step_skip (C : ValenceMBPT.Calculator) (k : Z)
    (sa sb sc sd : OrbitalInfo) (Ea Eb Ec Ed energy : double) (it : OrbitalInfo * Orbital) :
  sub_contributes C sa sb sc sd it = false ->
  ValenceMBPT.CalculateTwoElectronSub_step C k sa sb sc sd Ea Eb Ec Ed energy it = energy.
Proof.
  unfold sub_contributes, ValenceMBPT.CalculateTwoElectronSub_step. intros H.
  destruct (ValenceMBPT.InQSpace C it.1); [|reflexivity].
  simpl in H.
  destruct (Kappa sa =? Kappa it.1); [discriminate|].
  destruct (Kappa sc =? Kappa it.1); [discriminate|].
  destruct (Kappa sb =? Kappa it.1); [discriminate|].
  destruct (Kappa sd =? Kappa it.1); [discriminate|].
  reflexivity.
Qed.

Lemma CalculateOneElectronSub_step_skip (C : ValenceMBPT.Calculator)
    (sa sb : OrbitalInfo) (V energy : double) (it : OrbitalInfo * Orbital) :
  ValenceMBPT.InQSpace C it.1 && (Kappa sa =? Kappa it.1) = false ->
  ValenceMBPT.CalculateOneElectronSub_step C sa sb V energy it = energy.
Proof.
  unfold ValenceMBPT.CalculateOneElectronSub_step. intros ->. reflexivity.
Qed.

(** X2.  The subtraction sums depend on [high] only through the orbitals
    that are in Q-space and have the kappa of an outer line: dropping every
    other entry of [high] changes neither [CalculateOneElectronSub] nor
    [CalculateTwoElectronSub]. *)
Theorem subtraction_sums_frame (C : ValenceMBPT.Calculator) (k : Z)
    (sa sb sc sd : OrbitalInfo) :
  ValenceMBPT.CalculateTwoElectronSub
    (with_high (List.filter (sub_contributes C sa sb sc sd) (ValenceMBPT.high C)) C)
    k sa sb sc sd
  = ValenceMBPT.CalculateTwoElectronSub C k sa sb sc sd /\
  ValenceMBPT.CalculateOneElectronSub
    (with_high (List.filter
                  (fun it => ValenceMBPT.InQSpace C it.1 && (Kappa sa =? Kappa it.1))
                  (ValenceMBPT.high C)) C)
    sa sb
  = ValenceMBPT.CalculateOneElectronSub C sa sb.
Proof.
  split.
  - unfold ValenceMBPT.CalculateTwoElectronSub. simpl.
    destruct (ValenceMBPT.ValenceEnergies C !! Kappa sa) as [Ea|]; [|reflexivity].
    destruct (ValenceMBPT.ValenceEnergies C !! Kappa sb) as [Eb|]; [|reflexivity].
    destruct (ValenceMBPT.ValenceEnergies C !! Kappa sc) as [Ec|]; [|reflexivity].
    destruct (ValenceMBPT.ValenceEnergies C !! Kappa sd) as [Ed|]; [|reflexivity].
    simpl. f_equal.
    transitivity
      (fold_left (ValenceMBPT.CalculateTwoElectronSub_step C k sa sb sc sd Ea Eb Ec Ed)
         (List.filter (sub_contributes C sa sb sc sd) (ValenceMBPT.high C)) zero).
    + reflexivity.
    + apply fold_left_filter_skip. intros. now apply CalculateTwoElectronSub_step_skip.
  - unfold ValenceMBPT.CalculateOneElectronSub. simpl.
    destruct (ValenceMBPT.ValenceEnergies C !! Kappa sa) as [V|]; [|reflexivity].
    simpl. f_equal.
    transitivity
      (fold_left (ValenceMBPT.CalculateOneElectronSub_step C sa sb V)
         (List.filter (fun it => ValenceMBPT.InQSpace C it.1 && (Kappa sa =? Kappa it.1))
            (ValenceMBPT.high C)) zero).
    + reflexivity.
    + apply fold_left_filter_skip. intros. now apply CalculateOneElectronSub_step_skip.
Qed.

(** ** Sums over an orbital set without Q-space orbitals *)

Lemma fold_left_invariant {A B : Type} (P : A -> Prop) (f : A -> B -> A) (l : list B) (a : A) :
  P a -> (forall a x, In x l -> P a -> P (f a x)) -> P (fold_left f l a).
Proof.
  revert a. induction l as [|x l IH]; intros a Ha Hstep; simpl; [exact Ha|].
  apply IH.
  - apply Hstep; [now left | exact Ha].
  - intros a' y Hy. apply Hstep. now right.
Qed.

Lemma fold_left_opt_invariant {A B : Type} (P : A -> Prop) (f : A -> B -> option A)
    (l : list B) (a : A) :
  P a -> (forall a x, In x l -> P a -> exists a', f a x = Some a' /\ P a') ->
  exists a', ValenceDirect.fold_left_opt f l a = Some a' /\ P a'.
Proof.
  revert a. induction l as [|x l IH]; intros a Ha Hstep; simpl; [now exists a|].
  destruct (Hstep a x (or_introl eq_refl) Ha) as [a' [-> Ha']]. simpl.
  apply IH; [exact Ha'|]. intros a'' y Hy. apply Hstep. now right.
Qed.

Lemma filter_integral_visit (l : list Event) (s : OrbitalInfo) :
  List.filter is_integral_event l = [] ->
  List.filter is_integral_event (l ++ [EvVisit s]) = [].
Proof. intros H. rewrite List.filter_app, H. reflexivity. Qed.

(** X3.  When no orbital of [excited] and [high] is in Q-space, the sums of
    [ValenceMBPTCalculator] are exactly zero, and the box sum asks for no
    radial integral at all. *)
Theorem stored_sums_without_Q_space (C : ValenceMBPT.Calculator) (k : Z)
    (sa sb sc sd : OrbitalInfo) :
  Forall (fun it : OrbitalInfo * Orbital => ValenceMBPT.InQSpace C it.1 = false)
    (ValenceMBPT.excited C) ->
  Forall (fun it : OrbitalInfo * Orbital => ValenceMBPT.InQSpace C it.1 = false)
    (ValenceMBPT.high C) ->
  is_Some (ValenceMBPT.ValenceEnergies C !! Kappa sa) ->
  is_Some (ValenceMBPT.ValenceEnergies C !! Kappa sb) ->
  is_Some (ValenceMBPT.ValenceEnergies C !! Kappa sc) ->
  is_Some (ValenceMBPT.ValenceEnergies C !! Kappa sd) ->
  ValenceMBPT.CalculateOneElectronSub C sa sb = Some zero /\
  ValenceMBPT.CalculateTwoElectronSub C k sa sb sc sd = Some zero /\
  exists log,
    ValenceMBPT.CalculateTwoElectronValence C k sa sb sc sd = Some (zero, log) /\
    List.filter is_integral_event log = [].
Proof.
  intros Hex Hhigh [Ea HEa] [Eb HEb] [Ec HEc] [Ed HEd].
  rewrite Forall_forall in Hex, Hhigh.
  repeat split.
  - unfold ValenceMBPT.CalculateOneElectronSub. rewrite HEa. simpl. f_equal.
    apply (fold_left_invariant (fun e => e = zero)); [reflexivity|].
    intros e it Hit ->. apply CalculateOneElectronSub_step_skip.
    rewrite (Hhigh it); [reflexivity | now apply list_elem_of_In].
  - unfold ValenceMBPT.CalculateTwoElectronSub. rewrite HEa, HEb, HEc, HEd. simpl. f_equal.
    apply (fold_left_invariant (fun e => e = zero)); [reflexivity|].
    intros e it Hit ->. apply CalculateTwoElectronSub_step_skip.
    unfold sub_contributes. rewrite (Hhigh it); [reflexivity | now apply list_elem_of_In].
  - unfold ValenceMBPT.CalculateTwoElectronValence.
    destruct (is_zero _ || is_zero _).
    + exists []. split; reflexivity.
    + rewrite HEa, HEb. simpl.
      match goal with |- exists log, Some ?r = _ /\ _ => set (res := r) end.
      assert (Hinv : res.1 = zero /\ List.filter is_integral_event res.2 = []).
      { subst res.
        apply (fold_left_invariant
                 (fun st : Acc => st.1 = zero /\ List.filter is_integral_event st.2 = []));
          [split; reflexivity|].
        intros st it_alpha Halpha [He Hl].
        unfold ValenceMBPT.valence_alpha_step.
        apply (fold_left_invariant
                 (fun st : Acc => st.1 = zero /\ List.filter is_integral_event st.2 = [])).
        - split; [exact He | now apply filter_integral_visit].
        - intros st' it_beta Hbeta [He' Hl'].
          unfold ValenceMBPT.valence_pair_step, ValenceMBPT.valence_pair_allowed,
            ValenceMBPT.InQSpace2.
          rewrite (Hex it_alpha), (Hex it_beta) by now apply list_elem_of_In.
          simpl. split; [exact He' | now apply filter_integral_visit]. }
      clearbody res. destruct res as [e l]. simpl in Hinv. destruct Hinv as [-> Hl].
      exists l. split; [reflexivity | exact Hl].
Qed.

Lemma stored_sums_without_Q_space_witness :
  let C := with_high [Examples.entry Examples.s_3d]
             {| ValenceMBPT.constants := Examples.toy_constants;
                ValenceMBPT.GetMatrixElement := fun _ _ => one;
                ValenceMBPT.GetTwoElectronIntegral := fun _ _ _ _ _ => one;
                ValenceMBPT.excited := [Examples.entry Examples.s_3d];
                ValenceMBPT.high := [];
                ValenceMBPT.ValenceEnergies := Examples.toy_energies;
                ValenceMBPT.delta := half;
                ValenceMBPT.InQSpace := fun s => 5 <=? pqn s;
                ValenceMBPT.kmin := Examples.toy_kmin;
                ValenceMBPT.kmax := Examples.toy_kmax |} in
  let s := info_of Examples.s_6s in
  ValenceMBPT.CalculateOneElectronSub C s s = Some zero /\
  ValenceMBPT.CalculateTwoElectronSub C 0 s s s s = Some zero /\
  exists log,
    ValenceMBPT.CalculateTwoElectronValence C 0 s s s s = Some (zero, log) /\
    List.filter is_integral_event log = [].
Proof.
  apply stored_sums_without_Q_space.
  - repeat constructor.
  - repeat constructor.
  - exists (of_Z (-2)). reflexivity.
  - exists (of_Z (-2)). reflexivity.
  - exists (of_Z (-2)). reflexivity.
  - exists (of_Z (-2)). reflexivity.
Defined.

Lemma valence2_SMS_energy (D : ValenceDirect.Calculator) (k : Z) (s1 s2 : Orbital)
    (w : ValenceDirect.Work) :
  ValenceDirect.energy (ValenceDirect.valence2_SMS D k s1 s2 w).2 = ValenceDirect.energy w.
Proof.
  unfold ValenceDirect.valence2_SMS.
  destruct (truthy (ValenceDirect.NuclearInverseMass D) && (k =? 1)); reflexivity.
Qed.

Lemma valence2_without_Q_space (D : ValenceDirect.Calculator) (SMS : double) (sx sz : Orbital)
    (w : ValenceDirect.Work) :
  Forall (fun s => o_pqn s < 5) (ValenceDirect.excited D) ->
  ValenceDirect.energy w = zero ->
  exists w',
    ValenceDirect.fold_left_opt (ValenceDirect.valence2_step D SMS sx sz)
      (ValenceDirect.excited D) w = Some w' /\
    ValenceDirect.energy w' = zero.
Proof.
  intros Hex Hw. rewrite Forall_forall in Hex.
  apply (fold_left_opt_invariant (fun w => ValenceDirect.energy w = zero)); [exact Hw|].
  intros w0 s3 Hs3 Hw0.
  assert (Hp : (5 <=? o_pqn s3) = false).
  { apply Z.leb_gt. apply Hex. now apply list_elem_of_In. }
  unfold ValenceDirect.valence2_step. rewrite Hp. simpl.
  eexists. split; [reflexivity | exact Hw0].
Qed.

(** X4.  When every orbital of [excited] has [PQN < 5], the sums of
    [ValenceCalculator] are exactly zero: the one-body sum, the box sum
    (which then integrates nothing) and the whole two-body correction. *)
Theorem direct_sums_without_Q_space (D : ValenceDirect.Calculator)
    (s1 s2 s3 s4 : Orbital) (k : Z) :
  Forall (fun s => o_pqn s < 5) (ValenceDirect.excited D) ->
  is_Some (ValenceDirect.ValenceEnergies D !! o_kappa s1) ->
  is_Some (ValenceDirect.ValenceEnergies D !! o_kappa s2) ->
  ValenceDirect.CalculateOneElectronValence1 D s1 s2 = Some zero /\
  (exists log,
     ValenceDirect.GetTwoElectronBoxValence D s1 s2 s3 s4 k = Some (zero, log) /\
     List.filter is_integral_event log = []) /\
  (exists log, ValenceDirect.GetTwoElectronValence D s1 s2 s3 s4 k = Some (zero, log)).
Proof.
  intros Hex [V1 HV1] [V2 HV2].
  assert (Hq : forall s, In s (ValenceDirect.excited D) -> (5 <=? o_pqn s) = false).
  { intros s Hs. apply Z.leb_gt. rewrite Forall_forall in Hex. apply Hex.
    now apply list_elem_of_In. }
  assert (Hbox : exists w,
             ValenceDirect.CalculateTwoElectronValence1 D (ValenceDirect.HFPotentialSize D)
               s1 s2 s3 s4 k = Some w /\
             ValenceDirect.energy w = zero /\
             List.filter is_integral_event (ValenceDirect.log w) = []).
  { unfold ValenceDirect.CalculateTwoElectronValence1.
    destruct (is_zero _ || is_zero _).
    - eexists. split; [reflexivity|]. split; reflexivity.
    - rewrite HV1, HV2. simpl. eexists. split; [reflexivity|].
      apply (fold_left_invariant
               (fun w => ValenceDirect.energy w = zero /\
                         List.filter is_integral_event (ValenceDirect.log w) = []));
        [split; reflexivity|].
      intros w sx Hsx [He Hl]. unfold ValenceDirect.valence1_s3_step.
      apply (fold_left_invariant
               (fun w => ValenceDirect.energy w = zero /\
                         List.filter is_integral_event (ValenceDirect.log w) = [])).
      + split; [exact He | now apply filter_integral_visit].
      + intros w' sy Hsy [He' Hl'].
        unfold ValenceDirect.valence1_pair_step, ValenceDirect.valence1_pair_allowed.
        rewrite (Hq sx Hsx), (Hq sy Hsy). simpl.
        split; [exact He' | now apply filter_integral_visit]. }
  destruct Hbox as [w1 [Hw1 [He1 Hl1]]].
  split; [|split].
  - unfold ValenceDirect.CalculateOneElectronValence1. rewrite HV1. simpl. f_equal.
    apply (fold_left_invariant (fun e => e = zero)); [reflexivity|].
    intros e s Hs ->. unfold ValenceDirect.CalculateOneElectronValence1_step.
    now rewrite (Hq s Hs).
  - exists (ValenceDirect.log w1). unfold ValenceDirect.GetTwoElectronBoxValence.
    rewrite Hw1. simpl. rewrite He1. split; [reflexivity | exact Hl1].
  - unfold ValenceDirect.GetTwoElectronValence. rewrite Hw1. simpl. rewrite He1.
    unfold ValenceDirect.CalculateTwoElectronValence2.
    set (w0 := ValenceDirect.coulomb_potential D k s2 s4 _).
    pose proof (valence2_SMS_energy D k s2 s4 w0) as Hs.
    destruct (ValenceDirect.valence2_SMS D k s2 s4 w0) as [SMS_bd wa]. simpl in Hs.
    destruct (valence2_without_Q_space D SMS_bd s1 s3 wa Hex) as [wb [Hwb Heb]].
    { rewrite Hs. reflexivity. }
    rewrite Hwb. simpl.
    set (wc := ValenceDirect.coulomb_potential D k s1 s3 wb).
    pose proof (valence2_SMS_energy D k s1 s3 wc) as Hs'.
    destruct (ValenceDirect.valence2_SMS D k s1 s3 wc) as [SMS_ac wd]. simpl in Hs'.
    destruct (valence2_without_Q_space D SMS_ac s2 s4 wd Hex) as [we [Hwe Hee]].
    { rewrite Hs'. exact Heb. }
    rewrite Hwe. simpl. rewrite Hee. eexists. reflexivity.
Qed.

Lemma direct_sums_without_Q_space_witness :
  let D := Examples.toy_direct_with [Examples.s_3d] one in
  let s := Examples.s_6s in
  ValenceDirect.CalculateOneElectronValence1 D s s = Some zero /\
  (exists log,
     ValenceDirect.GetTwoElectronBoxValence D s s s s 1 = Some (zero, log) /\
     List.filter is_integral_event log = []) /\
  (exists log, ValenceDirect.GetTwoElectronValence D s s s s 1 = Some (zero, log)).
Proof.
  apply direct_sums_without_Q_space.
  - repeat constructor.
  - exists (of_Z (-2)). reflexivity.
  - exists (of_Z (-2)). reflexivity.
Defined.

(** ** The orbitals the box sums visit *)

Lemma filter_visit_other (l : list Event) (e : Event) :
  is_visit_event e = false ->
  List.filter is_visit_event (l ++ [e]) = List.filter is_visit_event l.
Proof. intros H. rewrite List.filter_app. simpl. rewrite H. apply app_nil_r. Qed.

Lemma filter_visit_visit (l : list Event) (s : OrbitalInfo) :
  List.filter is_visit_event (l ++ [EvVisit s]) = List.filter is_visit_event l ++ [EvVisit s].
Proof. rewrite List.filter_app. reflexivity. Qed.

Lemma loop_step2_preserves {S T : Type} (g : S -> T) (k kmax : Z) (body : Z -> S -> S) (s : S) :
  (forall x s', g (body x s') = g s') -> g (loop_step2 k kmax body s) = g s.
Proof.
  intros H. rewrite loop_step2_fold.
  apply (fold_left_invariant (fun s' => g s' = g s)); [reflexivity|].
  intros s' x _ <-. apply H.
Qed.

Lemma fold_left_visits {A B : Type} (g : A -> list Event) (name : B -> OrbitalInfo)
    (f : A -> B -> A) (l : list B) (a : A) :
  (forall a x, g (f a x) = g a ++ [EvVisit (name x)]) ->
  g (fold_left f l a) = g a ++ List.map (fun x => EvVisit (name x)) l.
Proof.
  intros H. revert a. induction l as [|x l IH]; intros a; simpl.
  - now rewrite app_nil_r.
  - rewrite IH, H, <- app_assoc. reflexivity.
Qed.

Lemma fold_left_pair_visits {A B : Type} (g : A -> list Event) (name : B -> OrbitalInfo)
    (inner : list Event) (f : A -> B -> A) (l : list B) (a : A) :
  (forall a x, g (f a x) = g a ++ EvVisit (name x) :: inner) ->
  g (fold_left f l a) = g a ++ flat_map (fun x => EvVisit (name x) :: inner) l.
Proof.
  intros H. revert a. induction l as [|x l IH]; intros a; simpl.
  - now rewrite app_nil_r.
  - rewrite IH, H, <- app_assoc. reflexivity.
Qed.

Lemma pair_visits_map {B : Type} (name : B -> OrbitalInfo) (l : list B) :
  flat_map (fun x => EvVisit (name x) :: List.map (fun y => EvVisit (name y)) l) l
  = pair_visits (List.map name l).
Proof.
  unfold pair_visits. rewrite List.map_map.
  generalize (List.map (fun y => EvVisit (name y)) l) as inner. intros inner.
  induction l as [|x l' IH]; simpl; [reflexivity|]. now rewrite IH.
Qed.

Lemma stored_pair_step_visits (C : ValenceMBPT.Calculator) (k : Z) (sa sb sc sd : OrbitalInfo)
    (coeff_ac coeff_bd V : double) (it_alpha : OrbitalInfo * Orbital)
    (st : Acc) (it_beta : OrbitalInfo * Orbital) :
  List.filter is_visit_event
    (ValenceMBPT.valence_pair_step C k sa sb sc sd coeff_ac coeff_bd V it_alpha st it_beta).2
  = List.filter is_visit_event st.2 ++ [EvVisit it_beta.1].
Proof.
  unfold ValenceMBPT.valence_pair_step.
  destruct (ValenceMBPT.valence_pair_allowed C sa sb sc sd it_alpha.1 it_beta.1).
  - rewrite (loop_step2_preserves (fun st : Acc => List.filter is_visit_event st.2)).
    + apply filter_visit_visit.
    + intros k1 st1. unfold ValenceMBPT.valence_k1_step.
      destruct (truthy _); [|reflexivity].
      rewrite (loop_step2_preserves (fun st : Acc => List.filter is_visit_event st.2)).
      * now apply filter_visit_other.
      * intros k2 st2. unfold ValenceMBPT.valence_k2_step.
        destruct (truthy (if truthy _ then _ else _)); [|reflexivity].
        now apply filter_visit_other.
  - apply filter_visit_visit.
Qed.

(** X5.  Whatever the selection rules and the angular coefficients of the
    inner loops, [CalculateTwoElectronValence] goes through every ordered
    pair of orbitals of [excited] exactly once, in the order of the map:
    each [it_alpha], followed by every [it_beta]. *)
Theorem stored_box_visits (C : ValenceMBPT.Calculator) (k : Z) (sa sb sc sd : OrbitalInfo) :
  truthy (Electron3j (ValenceMBPT.constants C) (TwoJ sa) (TwoJ sc) k) = true ->
  truthy (Electron3j (ValenceMBPT.constants C) (TwoJ sb) (TwoJ sd) k) = true ->
  is_Some (ValenceMBPT.ValenceEnergies C !! Kappa sa) ->
  is_Some (ValenceMBPT.ValenceEnergies C !! Kappa sb) ->
  exists st,
    ValenceMBPT.CalculateTwoElectronValence C k sa sb sc sd = Some st /\
    List.filter is_visit_event st.2 = pair_visits (List.map fst (ValenceMBPT.excited C)).
Proof.
  intros Hac Hbd [Va HVa] [Vb HVb].
  unfold ValenceMBPT.CalculateTwoElectronValence.
  rewrite is_zero_truthy in Hac, Hbd.
  apply negb_true_iff in Hac, Hbd. rewrite Hac, Hbd, HVa, HVb. simpl.
  eexists. split; [reflexivity|].
  rewrite <- pair_visits_map.
  rewrite (fold_left_pair_visits (fun st : Acc => List.filter is_visit_event st.2) fst
             (List.map (fun y : OrbitalInfo * Orbital => EvVisit y.1) (ValenceMBPT.excited C))).
  - reflexivity.
  - intros st it_alpha. unfold ValenceMBPT.valence_alpha_step.
    rewrite (fold_left_visits (fun st : Acc => List.filter is_visit_event st.2) fst).
    + simpl. rewrite filter_visit_visit, <- app_assoc. reflexivity.
    + intros st' it_beta. apply stored_pair_step_visits.
Qed.

Lemma stored_box_visits_witness :
  let s := info_of Examples.s_6s in
  exists st,
    ValenceMBPT.CalculateTwoElectronValence Examples.toy_stored 0 s s s s = Some st /\
    List.filter is_visit_event st.2
    = pair_visits (List.map fst (ValenceMBPT.excited Examples.toy_stored)).
Proof.
  apply stored_box_visits.
  - reflexivity.
  - reflexivity.
  - exists (of_Z (-2)). reflexivity.
  - exists (of_Z (-2)). reflexivity.
Defined.

Lemma valence1_R1_visits (D : ValenceDirect.Calculator) (sa sb s3 s4 : Orbital) (k1 : Z)
    (w : ValenceDirect.Work) :
  List.filter is_visit_event (ValenceDirect.log (ValenceDirect.valence1_R1 D sa sb s3 s4 k1 w).2)
  = List.filter is_visit_event (ValenceDirect.log w).
Proof.
  unfold ValenceDirect.valence1_R1.
  destruct (truthy (ValenceDirect.NuclearInverseMass D) && (k1 =? 1)); simpl;
    rewrite ?filter_visit_other by reflexivity; reflexivity.
Qed.

Lemma valence1_R2_visits (D : ValenceDirect.Calculator) (sc sd s3 s4 : Orbital) (k2 : Z)
    (w : ValenceDirect.Work) :
  List.filter is_visit_event (ValenceDirect.log (ValenceDirect.valence1_R2 D sc sd s3 s4 k2 w).2)
  = List.filter is_visit_event (ValenceDirect.log w).
Proof.
  unfold ValenceDirect.valence1_R2.
  destruct (truthy (ValenceDirect.NuclearInverseMass D) && (k2 =? 1)); simpl;
    rewrite ?filter_visit_other by reflexivity; reflexivity.
Qed.

Lemma direct_pair_step_visits (D : ValenceDirect.Calculator) (k : Z) (sa sb sc sd : Orbital)
    (coeff_ac coeff_bd V : double) (s3 : Orbital) (w : ValenceDirect.Work) (s4 : Orbital) :
  List.filter is_visit_event
    (ValenceDirect.log
       (ValenceDirect.valence1_pair_step D k sa sb sc sd coeff_ac coeff_bd V s3 w s4))
  = List.filter is_visit_event (ValenceDirect.log w) ++ [EvVisit (info_of s4)].
Proof.
  unfold ValenceDirect.valence1_pair_step.
  destruct (ValenceDirect.valence1_pair_allowed k sa sb sc sd s3 s4).
  - rewrite (loop_step2_preserves
               (fun w => List.filter is_visit_event (ValenceDirect.log w))).
    + apply filter_visit_visit.
    + intros k1 w1. unfold ValenceDirect.valence1_k1_step.
      destruct (truthy _); [|reflexivity].
      pose proof (valence1_R1_visits D sa sb s3 s4 k1 w1) as HR1.
      destruct (ValenceDirect.valence1_R1 D sa sb s3 s4 k1 w1) as [R1 w1']. simpl in HR1.
      rewrite <- HR1.
      apply (loop_step2_preserves
               (fun w => List.filter is_visit_event (ValenceDirect.log w))).
      intros k2 w2. unfold ValenceDirect.valence1_k2_step.
      destruct (truthy (if truthy _ then _ else _)); [|reflexivity].
      pose proof (valence1_R2_visits D sc sd s3 s4 k2 w2) as HR2.
      destruct (ValenceDirect.valence1_R2 D sc sd s3 s4 k2 w2) as [R2 w2']. exact HR2.
  - apply filter_visit_visit.
Qed.

(** X6.  [CalculateTwoElectronValence1] too goes through every ordered pair
    of [excited] exactly once, in order, whatever the cutoff [PQN >= 5], the
    parity rules and the inner coefficients decide about the pair. *)
Theorem direct_box_visits (D : ValenceDirect.Calculator) (n : nat) (sa sb sc sd : Orbital)
    (k : Z) :
  truthy (Electron3j_q (ValenceDirect.constants D)
            (ValenceDirect.twoJ_of sa) (ValenceDirect.twoJ_of sc) k 1 (-1)) = true ->
  truthy (Electron3j_q (ValenceDirect.constants D)
            (ValenceDirect.twoJ_of sb) (ValenceDirect.twoJ_of sd) k 1 (-1)) = true ->
  is_Some (ValenceDirect.ValenceEnergies D !! o_kappa sa) ->
  is_Some (ValenceDirect.ValenceEnergies D !! o_kappa sb) ->
  exists w,
    ValenceDirect.CalculateTwoElectronValence1 D n sa sb sc sd k = Some w /\
    List.filter is_visit_event (ValenceDirect.log w)
    = pair_visits (List.map info_of (ValenceDirect.excited D)).
Proof.
  intros Hac Hbd [Va HVa] [Vb HVb].
  unfold ValenceDirect.CalculateTwoElectronValence1.
  rewrite is_zero_truthy in Hac, Hbd.
  apply negb_true_iff in Hac, Hbd. rewrite Hac, Hbd, HVa, HVb. simpl.
  eexists. split; [reflexivity|].
  rewrite <- pair_visits_map.
  rewrite (fold_left_pair_visits
             (fun w => List.filter is_visit_event (ValenceDirect.log w)) info_of
             (List.map (fun y => EvVisit (info_of y)) (ValenceDirect.excited D))).
  - reflexivity.
  - intros w s3. unfold ValenceDirect.valence1_s3_step.
    rewrite (fold_left_visits
               (fun w => List.filter is_visit_event (ValenceDirect.log w)) info_of).
    + simpl. rewrite filter_visit_visit, <- app_assoc. reflexivity.
    + intros w' s4. apply direct_pair_step_visits.
Qed.

Lemma direct_box_visits_witness :
  let s := Examples.s_6s in
  exists w,
    ValenceDirect.CalculateTwoElectronValence1 Examples.toy_direct 2 s s s s 0 = Some w /\
    List.filter is_visit_event (ValenceDirect.log w)
    = pair_visits (List.map info_of (ValenceDirect.excited Examples.toy_direct)).
Proof.
  apply direct_box_visits.
  - reflexivity.
  - reflexivity.
  - exists (of_Z (-2)). reflexivity.
  - exists (of_Z (-2)). reflexivity.
Defined.

(** ** The density buffer of [ValenceCalculator] *)

Lemma fold_insert_seq (g : nat -> double) (n a : nat) (d : list double) (i : nat) :
  fold_left (fun d i => <[i := g i]> d) (seq a n) d !! i
  = if ((a <=? i)%nat && (i <? a + n)%nat && (i <? length d)%nat)%bool
    then Some (g i) else d !! i.
Proof.
  revert a d. induction n as [|n IH]; intros a d; simpl.
  - destruct (Nat.leb_spec a i), (Nat.ltb_spec i (a + 0)); simpl;
      first [reflexivity | exfalso; lia].
  - rewrite IH, length_insert, list_lookup_insert.
    destruct (decide (a = i /\ (a < length d)%nat)) as [[Hai Hlt]|Hn].
    + subst i.
      destruct (Nat.leb_spec (Datatypes.S a) a), (Nat.leb_spec a a),
        (Nat.ltb_spec a (a + Datatypes.S n)), (Nat.ltb_spec a (length d));
        simpl; first [reflexivity | exfalso; lia].
    + destruct (Nat.leb_spec (Datatypes.S a) i), (Nat.leb_spec a i),
        (Nat.ltb_spec i (Datatypes.S a + n)), (Nat.ltb_spec i (a + Datatypes.S n)),
        (Nat.ltb_spec i (length d));
        simpl; first [reflexivity | exfalso; lia | exfalso; apply Hn; split; lia].
Qed.

Lemma fold_insert_seq_length (g : nat -> double) (n a : nat) (d : list double) :
  length (fold_left (fun d i => <[i := g i]> d) (seq a n) d) = length d.
Proof.
  revert a d. induction n as [|n IH]; intros a d; simpl; [reflexivity|].
  now rewrite IH, length_insert.
Qed.

(** X7.  The loop that fills [density] with the overlap of two orbitals
    writes the first [min(s1.size(), s2.size())] entries and nothing else:
    the vector keeps its length, and every entry from that index on keeps
    the value the previous pair left there. *)
Theorem fill_density_buffer (s1 s2 : Orbital) (d : list double) (i : nat) :
  ValenceDirect.mmin (size s1) (size s2) = Nat.min (size s1) (size s2) /\
  length (ValenceDirect.fill_density s1 s2 d) = length d /\
  ValenceDirect.fill_density s1 s2 d !! i
  = (if ((i <? Nat.min (size s1) (size s2))%nat && (i <? length d)%nat)%bool
     then Some (ValenceDirect.overlap_at s1 s2 i) else d !! i).
Proof.
  assert (Hm : ValenceDirect.mmin (size s1) (size s2) = Nat.min (size s1) (size s2)).
  { unfold ValenceDirect.mmin. destruct (Nat.ltb_spec (size s1) (size s2)); lia. }
  split; [exact Hm|]. unfold ValenceDirect.fill_density. rewrite Hm. split.
  - apply fold_insert_seq_length.
  - rewrite fold_insert_seq. reflexivity.
Qed.

(** ** The subtraction sum of [ValenceCalculator] away from [k = 1] *)

Lemma valence2_SMS_other_k (D : ValenceDirect.Calculator) (k : Z) (s1 s2 : Orbital)
    (w : ValenceDirect.Work) :
  k <> 1 -> ValenceDirect.valence2_SMS D k s1 s2 w = (zero, w).
Proof.
  intros Hk. unfold ValenceDirect.valence2_SMS.
  destruct (Z.eqb_spec k 1); [contradiction|]. now rewrite andb_false_r.
Qed.

(** X8.  For an outer multipole [k <> 1] the subtraction sum
    [CalculateTwoElectronValence2] has no isotope-shift part: its result
    (energy, scratch vectors and events) depends neither on the nuclear
    inverse mass nor on the isotope-shift integrals. *)
Theorem subtraction_sum_other_k (D : ValenceDirect.Calculator) (m : double)
    (isi : Orbital -> Orbital -> double) (n : nat) (sa sb sc sd : Orbital) (k : Z) :
  k <> 1 ->
  ValenceDirect.CalculateTwoElectronValence2
    (with_NuclearInverseMass m (with_IsotopeShiftIntegral isi D)) n sa sb sc sd k
  = ValenceDirect.CalculateTwoElectronValence2 D n sa sb sc sd k.
Proof.
  intros Hk. unfold ValenceDirect.CalculateTwoElectronValence2.
  set (D' := with_NuclearInverseMass m (with_IsotopeShiftIntegral isi D)).
  change (ValenceDirect.coulomb_potential D') with (ValenceDirect.coulomb_potential D).
  change (ValenceDirect.excited D') with (ValenceDirect.excited D).
  rewrite !(valence2_SMS_other_k _ k sb sd) by exact Hk.
  assert (Hstep : forall sx sz w s3,
             ValenceDirect.valence2_step D' zero sx sz w s3
             = ValenceDirect.valence2_step D zero sx sz w s3) by reflexivity.
  rewrite (fold_left_opt_ext_in _ (ValenceDirect.valence2_step D zero sa sc))
    by (intros; apply Hstep).
  destruct (ValenceDirect.fold_left_opt _ _ _) as [w1|]; simpl; [|reflexivity].
  rewrite !(valence2_SMS_other_k _ k sa sc) by exact Hk.
  apply fold_left_opt_ext_in. intros; apply Hstep.
Qed.

Lemma subtraction_sum_other_k_witness :
  let D := Examples.toy_direct in
  let s := Examples.s_6s in
  ValenceDirect.CalculateTwoElectronValence2
    (with_NuclearInverseMass one (with_IsotopeShiftIntegral (fun _ _ => two) D)) 2 s s s s 0
  = ValenceDirect.CalculateTwoElectronValence2 D 2 s s s s 0.
Proof. apply subtraction_sum_other_k. lia. Defined.

(** ** Writing and reading back the sigma potentials *)

#[local] Instance key_le_transitive {V : Type} : Transitive (@Brueckner.key_le V).
Proof. intros p q r. unfold Brueckner.key_le. lia. Qed.

#[local] Instance key_le_total {V : Type} : Total (@Brueckner.key_le V).
Proof. intros p q. unfold Brueckner.key_le. lia. Qed.

Lemma entries_in_order_NoDup {V : Type} (m : gmap Z V) :
  NoDup (List.map fst (Brueckner.entries_in_order m)).
Proof.
  unfold Brueckner.entries_in_order.
  change (NoDup ((merge_sort Brueckner.key_le (map_to_list m)).*1)).
  rewrite merge_sort_Permutation. apply NoDup_fst_map_to_list.
Qed.

Lemma StronglySorted_le_NoDup (l : list Z) :
  StronglySorted Z.le l -> NoDup l -> StronglySorted Z.lt l.
Proof.
  induction 1 as [|x l Hl IH Hx]; intros Hnd; constructor.
  - apply IH. now apply NoDup_cons in Hnd.
  - apply NoDup_cons in Hnd. destruct Hnd as [Hnin _].
    rewrite Forall_forall in Hx |- *. intros y Hy.
    specialize (Hx y Hy). destruct (Z.eq_dec x y); [subst; contradiction | lia].
Qed.

Lemma entries_in_order_sorted {V : Type} (m : gmap Z V) :
  StronglySorted Z.lt (List.map fst (Brueckner.entries_in_order m)).
Proof.
  apply StronglySorted_le_NoDup; [|apply entries_in_order_NoDup].
  unfold Brueckner.entries_in_order.
  apply (StronglySorted_fmap fst Brueckner.key_le Z.le); [intros x y H; exact H|].
  apply StronglySorted_merge_sort; apply _.
Qed.

(** X9.  [Write(identifier)] does what [Write(identifier, kappa)] does for
    each channel that has a sigma, in turn and by increasing [kappa]. *)
Theorem Write_by_channel (X : Brueckner.Collaborators) (identifier : string)
    (d : Brueckner.Decorator X) :
  let kappas := List.map fst (Brueckner.entries_in_order (Brueckner.sigmas d)) in
  Brueckner.Write identifier d
  = flat_map (fun kappa => Brueckner.Write_one identifier kappa d) kappas /\
  StronglySorted Z.lt kappas /\
  (forall kappa, In kappa kappas <-> is_Some (Brueckner.sigmas d !! kappa)).
Proof.
  cbv zeta. split; [|split].
  - unfold Brueckner.Write.
    assert (Hall : forall k v, In (k, v) (Brueckner.entries_in_order (Brueckner.sigmas d)) ->
                               Brueckner.sigmas d !! k = Some v).
    { intros k v. apply entries_in_order_elem. }
    revert Hall. generalize (Brueckner.entries_in_order (Brueckner.sigmas d)) as l.
    induction l as [|[k v] l IH]; intros Hall; simpl; [reflexivity|].
    unfold Brueckner.Write_one at 1. rewrite (Hall k v) by now left. simpl.
    f_equal. apply IH. intros k' v' Hin. apply Hall. now right.
  - apply entries_in_order_sorted.
  - intros kappa. rewrite in_map_iff. split.
    + intros [[k v] [Hk Hin]]. simpl in Hk. subst k.
      apply entries_in_order_elem in Hin. eauto.
    + intros [v Hv]. exists (kappa, v). split; [reflexivity|].
      now apply entries_in_order_elem.
Qed.

Lemma reader_of_writes_cons {X : Brueckner.Collaborators} (f : string)
    (sigma : Brueckner.SigmaPotential X) (effects : list (Brueckner.Effect X))
    (filename : string) :
  reader_of_writes (Brueckner.EvWrite f sigma :: effects) filename
  = match reader_of_writes effects filename with
    | Some sigma' => Some sigma'
    | None => if String.eqb f filename then Some sigma else None
    end.
Proof. reflexivity. Qed.

Lemma reader_of_writes_entries {X : Brueckner.Collaborators} (identifier : string)
    (l : list (Z * Brueckner.SigmaPotential X)) (k : Z) :
  NoDup (List.map fst l) ->
  (forall v, In (k, v) l ->
     reader_of_writes
       ((fun pair : Z * Brueckner.SigmaPotential X =>
           Brueckner.EvWrite (Brueckner.sigma_filename identifier pair.1) pair.2) <$> l)
       (Brueckner.sigma_filename identifier k) = Some v) /\
  (~ In k (List.map fst l) ->
     reader_of_writes
       ((fun pair : Z * Brueckner.SigmaPotential X =>
           Brueckner.EvWrite (Brueckner.sigma_filename identifier pair.1) pair.2) <$> l)
       (Brueckner.sigma_filename identifier k) = None).
Proof.
  induction l as [|[k' v'] l IH]; intros Hnd.
  - split; [intros v [] | reflexivity].
  - simpl in Hnd. apply NoDup_cons in Hnd. destruct Hnd as [Hnin Hnd].
    destruct (IH Hnd) as [IHin IHout]. split.
    + intros v [Heq|Hin].
      * injection Heq as -> ->. rewrite fmap_cons, reader_of_writes_cons.
        rewrite IHout by (intros Hin; apply Hnin; now apply list_elem_of_In).
        cbn [fst snd]. now rewrite String.eqb_refl.
      * rewrite fmap_cons, reader_of_writes_cons. now rewrite (IHin v Hin).
    + intros Hout. simpl in Hout. rewrite fmap_cons, reader_of_writes_cons.
      rewrite IHout by tauto. cbn [fst snd].
      destruct (String.eqb_spec (Brueckner.sigma_filename identifier k')
                  (Brueckner.sigma_filename identifier k)) as [He|He]; [|reflexivity].
      apply sigma_filename_inj in He. tauto.
Qed.

Lemma reader_of_writes_Write {X : Brueckner.Collaborators} (identifier : string)
    (d : Brueckner.Decorator X) (k : Z) :
  reader_of_writes (Brueckner.Write identifier d) (Brueckner.sigma_filename identifier k)
  = Brueckner.sigmas d !! k.
Proof.
  unfold Brueckner.Write.
  destruct (reader_of_writes_entries identifier
              (Brueckner.entries_in_order (Brueckner.sigmas d)) k
              (entries_in_order_NoDup _)) as [Hin Hout].
  destruct (Brueckner.sigmas d !! k) as [v|] eqn:Hk.
  - apply Hin. now apply entries_in_order_elem.
  - apply Hout. rewrite in_map_iff. intros [[k' v] [Hk' Hin']]. simpl in Hk'. subst k'.
    apply entries_in_order_elem in Hin'. congruence.
Qed.

Lemma Read_all_lookup {X : Brueckner.Collaborators} (reader : Brueckner.FileReader X)
    (identifier : string) (kappas : list Z) (d : Brueckner.Decorator X) (k : Z) :
  Brueckner.sigmas (Read_all reader identifier kappas d) !! k
  = match (if bool_decide (k ∈ kappas)
           then reader (Brueckner.sigma_filename identifier k) else None) with
    | Some sigma => Some sigma
    | None => Brueckner.sigmas d !! k
    end.
Proof.
  revert d. induction kappas as [|x kappas IH]; intros d; [reflexivity|].
  change (Read_all reader identifier (x :: kappas) d)
    with (Read_all reader identifier kappas (Brueckner.Read reader identifier x d).1).
  rewrite IH.
  assert (Hx : Brueckner.sigmas (Brueckner.Read reader identifier x d).1 !! k
               = if decide (x = k)
                 then match reader (Brueckner.sigma_filename identifier k) with
                      | Some sigma => Some sigma
                      | None => Brueckner.sigmas d !! k
                      end
                 else Brueckner.sigmas d !! k).
  { unfold Brueckner.Read.
    destruct (decide (x = k)) as [->|Hne].
    - destruct (reader (Brueckner.sigma_filename identifier k)); simpl;
        [apply lookup_insert_eq | reflexivity].
    - destruct (reader (Brueckner.sigma_filename identifier x)); simpl;
        [now apply lookup_insert_ne | reflexivity]. }
  rewrite Hx.
  destruct (decide (x = k)) as [->|Hne].
  - rewrite (bool_decide_eq_true_2 (k ∈ k :: kappas)) by left.
    destruct (bool_decide (k ∈ kappas)),
      (reader (Brueckner.sigma_filename identifier k)); reflexivity.
  - rewrite (bool_decide_ext (k ∈ x :: kappas) (k ∈ kappas)); [reflexivity|].
    rewrite elem_of_cons. split; [intros [?|?]; [congruence | assumption] | now right].
Qed.

(** X10.  Round trip through the files.  When the files hold what
    [Write(identifier)] wrote, a decorator that calls [Read(identifier,
    kappa)] for the channels written gets every written sigma back: its
    sigma map becomes that of the writer, completed by the entries it
    already had for other channels (so a decorator without sigmas ends with
    exactly the map of the writer). *)
Theorem sigma_round_trip (X : Brueckner.Collaborators) (identifier : string)
    (d d0 : Brueckner.Decorator X) :
  let kappas := List.map fst (Brueckner.entries_in_order (Brueckner.sigmas d)) in
  let d1 := Read_all (reader_of_writes (Brueckner.Write identifier d)) identifier kappas d0 in
  Brueckner.sigmas d1 = Brueckner.sigmas d ∪ Brueckner.sigmas d0.
Proof.
  cbv zeta.
  apply map_eq. intros k. rewrite Read_all_lookup, reader_of_writes_Write, lookup_union.
  destruct (Brueckner.sigmas d !! k) as [v|] eqn:Hk.
  - rewrite bool_decide_eq_true_2.
    + now destruct (Brueckner.sigmas d0 !! k).
    + apply list_elem_of_In. rewrite in_map_iff. exists (k, v). split; [reflexivity|].
      now apply entries_in_order_elem.
  - destruct (bool_decide _); now destruct (Brueckner.sigmas d0 !! k).
Qed.

(** ** How the operations of the decorator compose *)

(** X11.  Calculating the sigmas of two different channels gives the same
    decorator in either order. *)
Theorem CalculateSigma_commute (X : Brueckner.Collaborators) (k1 k2 : Z)
    (calc1 calc2 : Brueckner.BruecknerSigmaCalculator X) (d : Brueckner.Decorator X) :
  k1 <> k2 ->
  (Brueckner.CalculateSigma k2 calc2 (Brueckner.CalculateSigma k1 calc1 d).1).1
  = (Brueckner.CalculateSigma k1 calc1 (Brueckner.CalculateSigma k2 calc2 d).1).1.
Proof.
  intros Hne. unfold Brueckner.CalculateSigma.
  destruct (Brueckner.sigmas d !! k1) as [s1|] eqn:H1;
    destruct (Brueckner.sigmas d !! k2) as [s2|] eqn:H2; simpl;
    rewrite ?H1, ?H2, ?lookup_insert_ne, ?H1, ?H2 by congruence; simpl; try reflexivity.
  unfold Brueckner.set_sigmas. simpl. f_equal. apply insert_insert_ne. congruence.
Qed.

Lemma CalculateSigma_commute_witness :
  (Brueckner.CalculateSigma (X := Examples.toy_collaborators) 1 tt (Brueckner.CalculateSigma (X := Examples.toy_collaborators) (-1) tt Examples.toy_decorator).1).1
  = (Brueckner.CalculateSigma (X := Examples.toy_collaborators) (-1) tt (Brueckner.CalculateSigma (X := Examples.toy_collaborators) 1 tt Examples.toy_decorator).1).1.
Proof. apply (CalculateSigma_commute Examples.toy_collaborators). lia. Defined.

(** X12.  A sigma that was read from a file wins over a calculated one in
    either order: after a successful [Read] of a channel, [CalculateSigma]
    for it changes nothing and calculates nothing; and a successful [Read]
    after [CalculateSigma] leaves the decorator that [Read] alone would. *)
Theorem Read_and_CalculateSigma (X : Brueckner.Collaborators)
    (reader : Brueckner.FileReader X) (identifier : string) (kappa : Z)
    (calc : Brueckner.BruecknerSigmaCalculator X) (d : Brueckner.Decorator X) :
  is_Some (reader (Brueckner.sigma_filename identifier kappa)) ->
  Brueckner.CalculateSigma kappa calc (Brueckner.Read reader identifier kappa d).1
  = ((Brueckner.Read reader identifier kappa d).1, []) /\
  (Brueckner.Read reader identifier kappa (Brueckner.CalculateSigma kappa calc d).1).1
  = (Brueckner.Read reader identifier kappa d).1.
Proof.
  intros [sigma Hr]. split.
  - apply CalculateSigma_present. unfold Brueckner.Read. rewrite Hr. simpl.
    rewrite lookup_insert_eq. eauto.
  - unfold Brueckner.Read, Brueckner.CalculateSigma. rewrite Hr.
    destruct (Brueckner.sigmas d !! kappa); simpl; [reflexivity|].
    unfold Brueckner.set_sigmas. simpl. f_equal. apply insert_insert_eq.
Qed.

Lemma Read_and_CalculateSigma_witness :
  let d := Examples.toy_decorator in
  Brueckner.CalculateSigma (X := Examples.toy_collaborators) (-1) tt (Brueckner.Read Examples.reader_with_file "Cs" (-1) d).1
  = ((Brueckner.Read Examples.reader_with_file "Cs" (-1) d).1, []) /\
  (Brueckner.Read Examples.reader_with_file "Cs" (-1) (Brueckner.CalculateSigma (X := Examples.toy_collaborators) (-1) tt d).1).1
  = (Brueckner.Read Examples.reader_with_file "Cs" (-1) d).1.
Proof.
  apply (Read_and_CalculateSigma Examples.toy_collaborators).
  exists [two; two; two]. reflexivity.
Defined.

(** X13.  [Alert] only ever cuts the stored exchange potential: its [f]
    component becomes the first [lattice->size()] samples it had, its size
    the smaller of the two sizes, and a second [Alert] changes nothing. *)
Theorem Alert_truncates (X : Brueckner.Collaborators) (d : Brueckner.Decorator X) :
  let n := Brueckner.lattice_size (Brueckner.lattice d) in
  let before := Brueckner.currentExchangePotential d in
  let after := Brueckner.currentExchangePotential (Brueckner.Alert d) in
  sf_f after = take n (sf_f before) /\
  sf_size after = Nat.min (sf_size before) n /\
  Brueckner.Alert (Brueckner.Alert d) = Brueckner.Alert d.
Proof.
  cbv zeta. unfold Brueckner.Alert.
  destruct (Nat.ltb_spec (Brueckner.lattice_size (Brueckner.lattice d))
              (sf_size (Brueckner.currentExchangePotential d))) as [Hlt|Hge].
  - unfold sf_size in *. simpl. repeat split.
    + apply resize_le. lia.
    + rewrite length_resize. lia.
    + rewrite length_resize, Nat.ltb_irrefl. reflexivity.
  - unfold sf_size in *. repeat split.
    + symmetry. apply take_ge. lia.
    + lia.
    + destruct (Nat.ltb_spec (Brueckner.lattice_size (Brueckner.lattice d))
                  (length (sf_f (Brueckner.currentExchangePotential d)))); [lia | reflexivity].
Qed.

(** X14.  [SetODEParameters(approximation)] stores the extra non-local term
    that [GetExchange(approximation)] would calculate afresh: when the
    wrapped operator answers [GetExchange()] as it answers
    [GetExchange(approximation)], so does the decorator. *)
Theorem GetExchange_after_SetODEParameters (X : Brueckner.Collaborators)
    (approximation : Brueckner.SingleParticleWavefunction) (d : Brueckner.Decorator X) :
  let d' := Brueckner.SetODEParameters approximation d in
  Brueckner.wrapped_GetExchange X (Brueckner.wrapped d') None
  = Brueckner.wrapped_GetExchange X (Brueckner.wrapped d') (Some approximation) ->
  Brueckner.currentExchangePotential d'
  = Brueckner.CalculateExtraNonlocal d' (Brueckner.spw_spinor approximation) true /\
  Brueckner.GetExchange d' None = Brueckner.GetExchange d' (Some approximation).
Proof.
  intros d' Hw.
  assert (Hc : Brueckner.currentExchangePotential d'
               = Brueckner.CalculateExtraNonlocal d' (Brueckner.spw_spinor approximation) true)
    by reflexivity.
  split; [exact Hc|].
  unfold Brueckner.GetExchange. rewrite Hw, Hc. reflexivity.
Qed.

Lemma GetExchange_after_SetODEParameters_witness :
  let a := {| Brueckner.spw_spinor := Examples.toy_spinor (-1) [one; one; one];
              Brueckner.spw_pqn := 6; Brueckner.spw_energy := zero |} in
  let d' := Brueckner.SetODEParameters a Examples.toy_decorator_s in
  Brueckner.currentExchangePotential d'
  = Brueckner.CalculateExtraNonlocal d' (Brueckner.spw_spinor a) true /\
  Brueckner.GetExchange d' None = Brueckner.GetExchange d' (Some a).
Proof.
  apply (GetExchange_after_SetODEParameters Examples.toy_collaborators). reflexivity.
Defined.

(** X15.  The decorator adds to the constant term of the ODE only:
    [GetODECoefficients] returns the [w_f] and [w_g] of the wrapped operator
    and [GetODEJacobian] its jacobian, whatever the wrapped operator
    answers.  What it adds to [w] in [GetODEFunction] is what it adds to
    [w_const] in [GetODECoefficients]; so when the wrapped operator gives the
    same pair as [w] and as [w_const], so does the decorator. *)
Theorem ODE_constant_term (X : Brueckner.Collaborators) (d : Brueckner.Decorator X)
    (latticepoint : nat) (fg : SpinorFunction) (w : double * double)
    (c : (double * double) * (double * double) * (double * double))
    (jd : ((double * double) * (double * double)) * (double * double)) :
  let add_nonlocal (p : double * double) : double * double :=
    if Brueckner.injects d latticepoint then
      ((p.1 + Brueckner.GetAlpha X
              * (sf_g (Brueckner.currentExchangePotential d) !!! latticepoint))%D,
       (p.2 - Brueckner.GetAlpha X
              * (sf_f (Brueckner.currentExchangePotential d) !!! latticepoint))%D)
    else p in
  (Brueckner.GetODECoefficients d latticepoint fg c).1
  = (Brueckner.wrapped_GetODECoefficients X (Brueckner.wrapped d) latticepoint fg c).1 /\
  (Brueckner.GetODEJacobian d latticepoint fg jd).1
  = (Brueckner.wrapped_GetODEJacobian X (Brueckner.wrapped d) latticepoint fg jd).1 /\
  Brueckner.GetODEFunction d latticepoint fg w
  = add_nonlocal (Brueckner.wrapped_GetODEFunction X (Brueckner.wrapped d) latticepoint fg w) /\
  (Brueckner.GetODECoefficients d latticepoint fg c).2
  = add_nonlocal
      (Brueckner.wrapped_GetODECoefficients X (Brueckner.wrapped d) latticepoint fg c).2 /\
  (Brueckner.wrapped_GetODEFunction X (Brueckner.wrapped d) latticepoint fg w
   = (Brueckner.wrapped_GetODECoefficients X (Brueckner.wrapped d) latticepoint fg c).2 ->
   Brueckner.GetODEFunction d latticepoint fg w
   = (Brueckner.GetODECoefficients d latticepoint fg c).2).
Proof.
  cbv zeta.
  unfold Brueckner.GetODEFunction, Brueckner.GetODECoefficients, Brueckner.GetODEJacobian.
  destruct (Brueckner.wrapped_GetODECoefficients X _ latticepoint fg c) as [[w_f w_g] w_const].
  destruct (Brueckner.wrapped_GetODEJacobian X _ latticepoint fg jd) as [jacobian dwdr].
  destruct (Brueckner.injects d latticepoint); cbn [fst snd];
    (split; [reflexivity|]; split; [reflexivity|]; split; [reflexivity|];
     split; [reflexivity|]; intros ->; reflexivity).
Qed.

Lemma ODE_constant_term_witness :
  let d := Brueckner.SetODEParameters
             {| Brueckner.spw_spinor := Examples.toy_spinor (-1) [one; one; one];
                Brueckner.spw_pqn := 6; Brueckner.spw_energy := zero |}
             Examples.toy_decorator_s in
  let fg := Examples.toy_spinor (-1) [one; one; one] in
  let w := (one, two) in
  let c := ((zero, zero), (zero, zero), (one, two)) in
  Brueckner.injects d 1 = true /\
  Brueckner.GetODEFunction d 1 fg w = (Brueckner.GetODECoefficients d 1 fg c).2 /\
  (Brueckner.GetODECoefficients d 1 fg c).1 = ((zero, zero), (zero, zero)).
Proof.
  cbv zeta.
  match goal with
  | |- Brueckner.injects ?d 1 = true /\ Brueckner.GetODEFunction _ 1 ?fg ?w = _ /\ _ =>
      pose proof (ODE_constant_term Examples.toy_collaborators d 1 fg w
                    ((zero, zero), (zero, zero), (one, two))
                    (((zero, zero), (zero, zero)), (zero, zero))) as P
  end.
  cbv zeta in P. destruct P as [P1 [_ [_ [_ P5]]]].
  split; [vm_compute; reflexivity|].
  split; [apply P5; reflexivity | rewrite P1; reflexivity].
Defined.

(** ** [Orbital::Norm] *)

Lemma mul_cond_opp_same (b : bool) (x y : double) :
  mul (mul x (cond_opp b y)) (cond_opp b y) = mul (mul x y) y.
Proof.
  rewrite !mul_cond_opp_r, mul_cond_opp_l, cond_opp_cond_opp.
  now destruct b.
Qed.

Lemma mul_cond_opp_square (b : bool) (x : double) :
  mul (cond_opp b x) (cond_opp b x) = mul x x.
Proof.
  rewrite mul_cond_opp_l, mul_cond_opp_r, cond_opp_cond_opp. now destruct b.
Qed.

Lemma Norm_density_sign (s : Orbital) (b1 b2 : bool) (i : nat) :
  OrbitalFunctions.Norm_density
    (OrbitalFunctions.with_samples (cond_opp b1 <$> o_f s) (cond_opp b2 <$> o_g s) s) i
  = OrbitalFunctions.Norm_density s i.
Proof.
  unfold OrbitalFunctions.Norm_density. simpl. rewrite !list_lookup_fmap.
  destruct (o_f s !! i) as [fi|]; [|reflexivity].
  destruct (o_g s !! i) as [gi|]; [|reflexivity].
  simpl. now rewrite !mul_cond_opp_square.
Qed.

Lemma Norm_simpson_ext (s s' : Orbital) (dR : list double) (bound : Z) (fuel i : nat)
    (norm : double) :
  (forall j, OrbitalFunctions.Norm_density s' j = OrbitalFunctions.Norm_density s j) ->
  OrbitalFunctions.Norm_simpson fuel s' dR bound i norm
  = OrbitalFunctions.Norm_simpson fuel s dR bound i norm.
Proof.
  intros Hd. revert i norm. induction fuel as [|fuel IH]; intros i norm; simpl.
  - reflexivity.
  - destruct (Z.of_nat i <? bound); [|reflexivity].
    rewrite !Hd.
    destruct (OrbitalFunctions.Norm_density s i) as [a|]; [|reflexivity]. simpl.
    destruct (dR !! i) as [da|]; [|reflexivity]. simpl.
    destruct (OrbitalFunctions.Norm_density s (Datatypes.S i)) as [b|]; [|reflexivity]. simpl.
    destruct (dR !! Datatypes.S i) as [db|]; [|reflexivity]. simpl.
    apply IH.
Qed.

(** X16.  [Norm] does not see the sign of either component: negating all
    the samples of [f], of [g], or of both gives the same result, bit for
    bit (and the same failure where the source reads outside a vector). *)
Theorem Norm_sign (s : Orbital) (dR : list double) (b1 b2 : bool) :
  OrbitalFunctions.Norm
    (OrbitalFunctions.with_samples (cond_opp b1 <$> o_f s) (cond_opp b2 <$> o_g s) s) dR
  = OrbitalFunctions.Norm s dR.
Proof.
  unfold OrbitalFunctions.Norm.
  set (s' := OrbitalFunctions.with_samples (cond_opp b1 <$> o_f s) (cond_opp b2 <$> o_g s) s).
  assert (Hsize : size s' = size s) by (unfold size, s'; simpl; apply length_fmap).
  rewrite Hsize.
  change (o_f s') with (cond_opp b1 <$> o_f s).
  change (o_g s') with (cond_opp b2 <$> o_g s).
  rewrite !list_lookup_fmap.
  destruct (o_f s !! 0%nat) as [f0|]; [|reflexivity].
  destruct (o_g s !! 0%nat) as [g0|]; [|reflexivity].
  destruct (dR !! 0%nat) as [d0|]; [|reflexivity].
  simpl.
  change (SFmul prec emax) with mul.
  rewrite mul_cond_opp_square, mul_cond_opp_same.
  rewrite (Norm_simpson_ext s s') by (intros j; apply Norm_density_sign).
  destruct (OrbitalFunctions.Norm_simpson _ s dR _ _ _) as [[norm i]|]; [|reflexivity].
  simpl. apply fold_left_opt_ext_in. intros a j _.
  unfold OrbitalFunctions.Norm_tail_step, s'.
  now rewrite (Norm_density_sign s b1 b2 j).
Qed.

Lemma fold_left_opt_is_Some {A B : Type} (f : A -> B -> option A) (l : list B) (a : A) :
  (forall a x, In x l -> is_Some (f a x)) -> is_Some (ValenceDirect.fold_left_opt f l a).
Proof.
  revert a. induction l as [|x l IH]; intros a H; simpl; [eauto|].
  destruct (H a x (or_introl eq_refl)) as [a' ->]. simpl.
  apply IH. intros a'' y Hy. apply H. now right.
Qed.

Lemma Norm_density_is_Some (s : Orbital) (i : nat) :
  length (o_g s) = size s -> (i < size s)%nat -> is_Some (OrbitalFunctions.Norm_density s i).
Proof.
  intros Hg Hi. unfold OrbitalFunctions.Norm_density.
  destruct (lookup_lt_is_Some_2 (o_f s) i Hi) as [fi ->].
  destruct (lookup_lt_is_Some_2 (o_g s) i) as [gi ->]; [lia|].
  simpl. eauto.
Qed.

Lemma Norm_simpson_in_range (s : Orbital) (dR : list double) (fuel i : nat) (norm : double) :
  length (o_g s) = size s -> (size s <= length dR)%nat -> (size s - i <= fuel)%nat ->
  is_Some (OrbitalFunctions.Norm_simpson fuel s dR (Z.of_nat (size s) - 2) i norm).
Proof.
  intros Hg Hd. revert i norm. induction fuel as [|fuel IH]; intros i norm Hfuel; simpl.
  - destruct (Z.ltb_spec (Z.of_nat i) (Z.of_nat (size s) - 2)); [lia | eauto].
  - destruct (Z.ltb_spec (Z.of_nat i) (Z.of_nat (size s) - 2)); [|eauto].
    destruct (Norm_density_is_Some s i Hg) as [a ->]; [lia|]. simpl.
    destruct (lookup_lt_is_Some_2 dR i) as [da ->]; [lia|]. simpl.
    destruct (Norm_density_is_Some s (Datatypes.S i) Hg) as [b ->]; [lia|]. simpl.
    destruct (lookup_lt_is_Some_2 dR (Datatypes.S i)) as [db ->]; [lia|]. simpl.
    apply IH. lia.
Qed.

(** X17.  [Norm] stays inside the vectors exactly when the orbital has at
    least two points: with one point the bound [Size()-2] of the first loop
    wraps around as an [unsigned int] and the loop reads [f[1]]; with none
    [f[0]] is already outside. *)
Theorem Norm_defined (s : Orbital) (dR : list double) :
  length (o_g s) = size s -> (size s <= length dR)%nat -> Z.of_nat (size s) < 2 ^ 32 ->
  (is_Some (OrbitalFunctions.Norm s dR) <-> (2 <= size s)%nat).
Proof.
  intros Hg Hd Hsmall. unfold OrbitalFunctions.Norm. split.
  - intros HS. destruct (o_f s) as [|x [|y l]] eqn:Hf.
    + simpl in HS. destruct HS as [? HS]. discriminate.
    + exfalso. unfold size in *. rewrite Hf in *. simpl in Hg, Hd.
      destruct (o_g s) as [|g0 [|? ?]] eqn:Hgs; try discriminate.
      destruct dR as [|d0 dR']; [simpl in Hd; lia|].
      simpl in HS.
      change (uint32 (1 - 2)) with 4294967295 in HS.
      unfold OrbitalFunctions.Norm_density in HS. rewrite Hf, Hgs in HS. simpl in HS.
      destruct (dR' !! 0%nat); simpl in HS; destruct HS as [? HS]; discriminate.
    + unfold size. rewrite Hf. simpl. lia.
  - intros H2.
    destruct (lookup_lt_is_Some_2 (o_f s) 0) as [f0 ->]; [unfold size in H2; lia|].
    destruct (lookup_lt_is_Some_2 (o_g s) 0) as [g0 ->]; [lia|].
    destruct (lookup_lt_is_Some_2 dR 0) as [d0 ->]; [lia|].
    simpl.
    replace (uint32 (Z.of_nat (size s) - 2)) with (Z.of_nat (size s) - 2)
      by (unfold uint32; symmetry; apply Z.mod_small; lia).
    destruct (Norm_simpson_in_range s dR (size s) 0 (f0 * f0 * g0 * g0 * d0)%D Hg Hd)
      as [[norm i] ->]; [lia|].
    simpl. apply fold_left_opt_is_Some. intros a j Hj.
    apply in_seq in Hj. unfold OrbitalFunctions.Norm_tail_step.
    destruct (Norm_density_is_Some s j Hg) as [b ->]; [lia|]. simpl.
    destruct (lookup_lt_is_Some_2 dR j) as [db ->]; [lia|]. simpl. eauto.
Qed.

Lemma Norm_defined_witness :
  let s := Examples.s_6s in
  is_Some (OrbitalFunctions.Norm s [one; one]) <-> (2 <= size s)%nat.
Proof.
  apply Norm_defined.
  - reflexivity.
  - unfold size. simpl. lia.
  - reflexivity.
Defined.

(** ** [Orbital::NumNodes] *)

Lemma fabs_opp (x : double) : fabs (opp x) = fabs x.
Proof. destruct x; reflexivity. Qed.

Lemma mul_opp_opp (x y : double) : mul (opp x) (opp y) = mul x y.
Proof. now rewrite mul_opp_l, mul_opp_r, opp_involutive. Qed.

Lemma NumNodes_max_opp (f : list double) (st : double * nat * nat) :
  fold_left OrbitalFunctions.NumNodes_max_step (opp <$> f) st
  = fold_left OrbitalFunctions.NumNodes_max_step f st.
Proof.
  revert st. induction f as [|x f IH]; intros st; [reflexivity|].
  rewrite fmap_cons. simpl. rewrite IH. f_equal.
  unfold OrbitalFunctions.NumNodes_max_step. now rewrite fabs_opp.
Qed.

Lemma NumNodes_end_opp (f : list double) (threshold : double) (n : nat) :
  OrbitalFunctions.NumNodes_end (opp <$> f) threshold n
  = OrbitalFunctions.NumNodes_end f threshold n.
Proof.
  induction n as [|n IH]; simpl; rewrite list_lookup_fmap;
    destruct (f !! _) as [x|]; simpl; try reflexivity; rewrite fabs_opp;
    destruct (double_lt (fabs x) threshold); try reflexivity.
  exact IH.
Qed.

Lemma NumNodes_start_opp (rest : list double) (threshold prev : double) (i : nat) :
  OrbitalFunctions.NumNodes_start (opp <$> rest) threshold (opp prev) i
  = (fun p : double * nat => (opp p.1, p.2)) <$> OrbitalFunctions.NumNodes_start rest threshold prev i.
Proof.
  revert prev i. induction rest as [|x rest IH]; intros prev i; simpl;
    rewrite fabs_opp; destruct (double_lt (fabs prev) threshold); try reflexivity.
  apply IH.
Qed.

Lemma NumNodes_count_step_opp (f : list double) (zeros : nat) (prev : double) (j : nat) :
  OrbitalFunctions.NumNodes_count_step (opp <$> f) (zeros, opp prev) j
  = (fun st : nat * double => (st.1, opp st.2))
      <$> OrbitalFunctions.NumNodes_count_step f (zeros, prev) j.
Proof.
  unfold OrbitalFunctions.NumNodes_count_step. rewrite list_lookup_fmap.
  destruct (f !! j) as [x|]; [|reflexivity].
  cbn [fmap option_fmap option_map mbind option_bind fst snd].
  now rewrite mul_opp_opp.
Qed.

Lemma NumNodes_count_opp (f : list double) (l : list nat) (zeros : nat) (prev : double) :
  ValenceDirect.fold_left_opt (OrbitalFunctions.NumNodes_count_step (opp <$> f)) l
    (zeros, opp prev)
  = (fun st : nat * double => (st.1, opp st.2))
      <$> ValenceDirect.fold_left_opt (OrbitalFunctions.NumNodes_count_step f) l (zeros, prev).
Proof.
  revert zeros prev. induction l as [|j l IH]; intros zeros prev; [reflexivity|].
  cbn [ValenceDirect.fold_left_opt]. rewrite NumNodes_count_step_opp.
  destruct (OrbitalFunctions.NumNodes_count_step f (zeros, prev) j) as [[zeros' prev']|];
    [|reflexivity].
  cbn [fmap option_fmap option_map mbind option_bind fst snd]. apply IH.
Qed.

(** X18.  [NumNodes] counts the same nodes for a function and for its
    negative, and does not look at the small component at all. *)
Theorem NumNodes_sign (s : Orbital) (g : list double) :
  OrbitalFunctions.NumNodes (OrbitalFunctions.with_samples (opp <$> o_f s) g s)
  = OrbitalFunctions.NumNodes s.
Proof.
  unfold OrbitalFunctions.NumNodes.
  change (o_f (OrbitalFunctions.with_samples (opp <$> o_f s) g s)) with (opp <$> o_f s).
  cbv zeta. unfold OrbitalFunctions.NumNodes_max.
  rewrite NumNodes_max_opp, length_fmap.
  set (fmax := (fold_left OrbitalFunctions.NumNodes_max_step (o_f s) (zero, 0%nat, 0%nat)).1.1).
  assert (Hend : match length (o_f s) with
                 | O => None
                 | Datatypes.S n =>
                     OrbitalFunctions.NumNodes_end (opp <$> o_f s)
                       (OrbitalFunctions.c_1em2 * fmax)%D n
                 end
                 = match length (o_f s) with
                   | O => None
                   | Datatypes.S n =>
                       OrbitalFunctions.NumNodes_end (o_f s)
                         (OrbitalFunctions.c_1em2 * fmax)%D n
                   end).
  { destruct (length (o_f s)); [reflexivity | apply NumNodes_end_opp]. }
  rewrite Hend. clear Hend.
  destruct (match length (o_f s) with O => None | Datatypes.S n => _ end) as [end_|];
    [|reflexivity].
  cbn [mbind option_bind]. rewrite list_lookup_fmap.
  destruct (o_f s !! 0%nat) as [prev|]; [|reflexivity].
  cbn [fmap option_fmap option_map mbind option_bind].
  rewrite NumNodes_start_opp.
  destruct (OrbitalFunctions.NumNodes_start (o_f s) _ prev 0) as [[prev' i]|]; [|reflexivity].
  cbn [fmap option_fmap option_map mbind option_bind fst snd].
  rewrite NumNodes_count_opp.
  destruct (ValenceDirect.fold_left_opt _ _ _) as [[zeros p]|]; reflexivity.
Qed.

Lemma double_lt_fabs_zero (x : double) : double_lt (fabs x) zero = false.
Proof. destruct x as [[|]|[|]| |[|] m e]; reflexivity. Qed.

(** The maximum found by the first loop is the initial value or the modulus
    of a sample. *)
Lemma NumNodes_max_attained (f : list double) (st : double * nat * nat) :
  (fold_left OrbitalFunctions.NumNodes_max_step f st).1.1 = st.1.1 \/
  exists x, In x f /\ fabs x = (fold_left OrbitalFunctions.NumNodes_max_step f st).1.1.
Proof.
  revert st. induction f as [|x f IH]; intros st; simpl; [now left|].
  destruct (IH (OrbitalFunctions.NumNodes_max_step st x)) as [Heq|[y [Hy Hfy]]].
  - assert (Hstep : (OrbitalFunctions.NumNodes_max_step st x).1.1 = st.1.1 \/
                    (OrbitalFunctions.NumNodes_max_step st x).1.1 = fabs x).
    { destruct st as [[fmax i_fmax] i]. unfold OrbitalFunctions.NumNodes_max_step.
      destruct (double_gt (fabs x) fmax); simpl; [now right | now left]. }
    destruct Hstep as [Hs|Hs].
    + left. congruence.
    + right. exists x. split; [now left | congruence].
  - right. exists y. split; [now right | exact Hfy].
Qed.

(** Some sample is not below the threshold [c * fmax]. *)
Lemma NumNodes_threshold (f : list double) (c : double) :
  f <> [] -> mul c zero = zero ->
  double_lt (OrbitalFunctions.NumNodes_max f).1.1
    (c * (OrbitalFunctions.NumNodes_max f).1.1)%D = false ->
  exists x, In x f /\
    double_lt (fabs x) (c * (OrbitalFunctions.NumNodes_max f).1.1)%D = false.
Proof.
  intros Hne Hc Hlt. unfold OrbitalFunctions.NumNodes_max in *.
  destruct (NumNodes_max_attained f (zero, 0%nat, 0%nat)) as [Heq|[x [Hx Hfx]]].
  - destruct f as [|x f']; [contradiction|]. exists x. split; [now left|].
    rewrite Heq. simpl. rewrite Hc. apply double_lt_fabs_zero.
  - exists x. split; [exact Hx|]. rewrite Hfx. exact Hlt.
Qed.

Lemma NumNodes_end_le (f : list double) (threshold : double) (n e : nat) :
  OrbitalFunctions.NumNodes_end f threshold n = Some e -> (e <= n)%nat /\ (e < length f)%nat.
Proof.
  revert e. induction n as [|n IH]; intros e; simpl.
  - destruct (f !! 0%nat) as [x|] eqn:Hx; [|discriminate].
    destruct (double_lt (fabs x) threshold); [discriminate|].
    intros [= <-]. split; [lia|]. now apply lookup_lt_Some in Hx.
  - destruct (f !! Datatypes.S n) as [x|] eqn:Hx; [|discriminate].
    destruct (double_lt (fabs x) threshold).
    + intros H. destruct (IH e H). split; lia.
    + intros [= <-]. split; [lia|]. now apply lookup_lt_Some in Hx.
Qed.

Lemma NumNodes_end_is_Some (f : list double) (threshold : double) (n : nat) :
  (n < length f)%nat ->
  (exists j x, (j <= n)%nat /\ f !! j = Some x /\ double_lt (fabs x) threshold = false) ->
  is_Some (OrbitalFunctions.NumNodes_end f threshold n).
Proof.
  induction n as [|n IH]; intros Hn [j [x [Hj [Hx Hlt]]]]; simpl.
  - assert (j = 0%nat) by lia. subst j. rewrite Hx, Hlt. eauto.
  - destruct (lookup_lt_is_Some_2 f (Datatypes.S n) Hn) as [y Hy]. rewrite Hy.
    destruct (double_lt (fabs y) threshold) eqn:Hly; [|eauto].
    apply IH; [lia|]. exists j, x. split; [|now split].
    destruct (Nat.eq_dec j (Datatypes.S n)) as [->|]; [|lia]. congruence.
Qed.

Lemma NumNodes_start_is_Some (rest : list double) (threshold prev : double) (i : nat) :
  (exists x, In x (prev :: rest) /\ double_lt (fabs x) threshold = false) ->
  is_Some (OrbitalFunctions.NumNodes_start rest threshold prev i).
Proof.
  revert prev i. induction rest as [|y rest IH]; intros prev i [x [Hx Hlt]]; simpl.
  - destruct Hx as [->|[]]. rewrite Hlt. eauto.
  - destruct (double_lt (fabs prev) threshold) eqn:Hp; [|eauto].
    apply IH. exists x. split; [|exact Hlt].
    destruct Hx as [->|Hx]; [congruence | exact Hx].
Qed.

Lemma NumNodes_count_le (f : list double) (l : list nat) (st st' : nat * double) :
  ValenceDirect.fold_left_opt (OrbitalFunctions.NumNodes_count_step f) l st = Some st' ->
  (st'.1 <= st.1 + length l)%nat.
Proof.
  revert st. induction l as [|j l IH]; intros st; simpl.
  - intros [= <-]. lia.
  - destruct (OrbitalFunctions.NumNodes_count_step f st j) as [st1|] eqn:H1;
      cbn [mbind option_bind]; [|discriminate].
    intros H. apply IH in H.
    unfold OrbitalFunctions.NumNodes_count_step in H1.
    destruct (f !! j) as [x|]; [|discriminate]. cbn [mbind option_bind] in H1.
    injection H1 as <-. destruct (double_lt (x * st.2)%D zero); simpl in H; lia.
Qed.

Lemma NumNodes_lt_size (s : Orbital) (n : nat) :
  OrbitalFunctions.NumNodes s = Some n -> (n < size s)%nat.
Proof.
  unfold OrbitalFunctions.NumNodes, size. cbv zeta.
  destruct (length (o_f s)) as [|m] eqn:Hlen; [discriminate|].
  destruct (OrbitalFunctions.NumNodes_end (o_f s) _ m) as [end_|] eqn:Hend; [|discriminate].
  apply NumNodes_end_le in Hend. destruct Hend as [Hend _].
  cbn [mbind option_bind].
  destruct (o_f s !! 0%nat) as [prev|]; [|discriminate]. cbn [mbind option_bind].
  destruct (OrbitalFunctions.NumNodes_start (o_f s) _ prev 0) as [[prev' i]|]; [|discriminate].
  cbn [mbind option_bind].
  destruct (ValenceDirect.fold_left_opt _ _ _) as [st|] eqn:Hc; [|discriminate].
  cbn [mbind option_bind]. intros [= <-].
  apply NumNodes_count_le in Hc. rewrite length_seq in Hc. simpl in Hc. lia.
Qed.

Lemma NumNodes_is_Some (s : Orbital) :
  let fmax := (OrbitalFunctions.NumNodes_max (o_f s)).1.1 in
  o_f s <> [] ->
  double_lt fmax (OrbitalFunctions.c_1em2 * fmax)%D = false ->
  double_lt fmax (OrbitalFunctions.c_1em7 * fmax)%D = false ->
  is_Some (OrbitalFunctions.NumNodes s).
Proof.
  intros fmax Hne H2 H7.
  unfold OrbitalFunctions.NumNodes. cbv zeta. fold fmax.
  destruct (NumNodes_threshold (o_f s) OrbitalFunctions.c_1em2 Hne eq_refl H2)
    as [x2 [Hx2 Hl2]].
  destruct (NumNodes_threshold (o_f s) OrbitalFunctions.c_1em7 Hne eq_refl H7)
    as [x7 [Hx7 Hl7]].
  fold fmax in Hl2, Hl7.
  destruct (length (o_f s)) as [|m] eqn:Hlen.
  { destruct (o_f s); [contradiction | discriminate]. }
  destruct (NumNodes_end_is_Some (o_f s) (OrbitalFunctions.c_1em2 * fmax)%D m)
    as [end_ Hend]; [lia| |].
  { apply list_elem_of_In, list_elem_of_lookup in Hx2. destruct Hx2 as [j Hj].
    exists j, x2. split; [|now split].
    apply lookup_lt_Some in Hj. lia. }
  rewrite Hend. cbn [mbind option_bind].
  destruct (lookup_lt_is_Some_2 (o_f s) 0) as [prev Hprev]; [lia|].
  rewrite Hprev. cbn [mbind option_bind].
  destruct (NumNodes_start_is_Some (o_f s) (OrbitalFunctions.c_1em7 * fmax)%D prev 0)
    as [[prev' i] Hstart].
  { exists x7. split; [now right | exact Hl7]. }
  rewrite Hstart. cbn [mbind option_bind].
  apply NumNodes_end_le in Hend. destruct Hend as [_ Hend].
  destruct (fold_left_opt_is_Some (OrbitalFunctions.NumNodes_count_step (o_f s))
              (seq i (end_ - i)) (0%nat, prev')) as [st Hst].
  { intros a j Hj. apply in_seq in Hj. unfold OrbitalFunctions.NumNodes_count_step.
    destruct (lookup_lt_is_Some_2 (o_f s) j) as [x ->]; [lia|]. simpl. eauto. }
  rewrite Hst. cbn [mbind option_bind]. eauto.
Qed.

Lemma NumNodes_start_In (rest : list double) (threshold prev : double) (i : nat)
    (p : double) (j : nat) :
  OrbitalFunctions.NumNodes_start rest threshold prev i = Some (p, j) -> In p (prev :: rest).
Proof.
  revert prev i. induction rest as [|y rest IH]; intros prev i; simpl.
  - destruct (double_lt (fabs prev) threshold); [discriminate|]. intros [= <- _]. now left.
  - destruct (double_lt (fabs prev) threshold).
    + intros H. apply IH in H. now right.
    + intros [= <- _]. now left.
Qed.

Lemma NumNodes_count_none (f : list double) (l : list nat) (st st' : nat * double) :
  (forall x y, In x f -> In y f -> double_lt (x * y)%D zero = false) ->
  In st.2 f ->
  ValenceDirect.fold_left_opt (OrbitalFunctions.NumNodes_count_step f) l st = Some st' ->
  st'.1 = st.1.
Proof.
  intros Hsign. revert st. induction l as [|j l IH]; intros st Hin; simpl.
  - now intros [= <-].
  - destruct (OrbitalFunctions.NumNodes_count_step f st j) as [st1|] eqn:H1;
      cbn [mbind option_bind]; [|discriminate].
    unfold OrbitalFunctions.NumNodes_count_step in H1.
    destruct (f !! j) as [x|] eqn:Hx; [|discriminate]. cbn [mbind option_bind] in H1.
    injection H1 as <-.
    assert (Hxin : In x f) by (apply list_elem_of_In; eapply list_elem_of_lookup_2; eauto).
    rewrite (Hsign x st.2 Hxin Hin).
    intros H. apply IH in H; [exact H | exact Hxin].
Qed.

(** X19.  For a non-empty function [NumNodes] stays inside the vector and
    returns fewer nodes than there are points, as long as the maximum
    [fmax] is not below the two thresholds [1.e-2 * fmax] and
    [1.e-7 * fmax] computed from it. *)
Theorem NumNodes_returns (s : Orbital) :
  let fmax := (OrbitalFunctions.NumNodes_max (o_f s)).1.1 in
  o_f s <> [] ->
  double_lt fmax (OrbitalFunctions.c_1em2 * fmax)%D = false ->
  double_lt fmax (OrbitalFunctions.c_1em7 * fmax)%D = false ->
  exists n, OrbitalFunctions.NumNodes s = Some n /\ (n < size s)%nat.
Proof.
  intros fmax Hne H2 H7.
  destruct (NumNodes_is_Some s Hne H2 H7) as [n Hn].
  exists n. split; [exact Hn | now apply NumNodes_lt_size].
Qed.

Lemma NumNodes_returns_witness :
  let s := Examples.orbital 3 (-1) zero (List.map of_Z [0; 1; 2; 1; -1; -2; -1; 1; 3; 1; 0]) in
  exists n, OrbitalFunctions.NumNodes s = Some n /\ (n < size s)%nat.
Proof.
  apply NumNodes_returns.
  - discriminate.
  - vm_compute. reflexivity.
  - vm_compute. reflexivity.
Defined.

(** X20.  A function whose samples never have a negative product (one that
    does not change sign) has no node: under the conditions under which
    [NumNodes] returns, it returns 0. *)
Theorem NumNodes_constant_sign (s : Orbital) :
  let fmax := (OrbitalFunctions.NumNodes_max (o_f s)).1.1 in
  o_f s <> [] ->
  double_lt fmax (OrbitalFunctions.c_1em2 * fmax)%D = false ->
  double_lt fmax (OrbitalFunctions.c_1em7 * fmax)%D = false ->
  (forall x y, In x (o_f s) -> In y (o_f s) -> double_lt (x * y)%D zero = false) ->
  OrbitalFunctions.NumNodes s = Some 0%nat.
Proof.
  intros fmax Hne H2 H7 Hsign.
  destruct (NumNodes_is_Some s Hne H2 H7) as [n Hn]. rewrite Hn. f_equal.
  revert Hn. unfold OrbitalFunctions.NumNodes. cbv zeta.
  destruct (match length (o_f s) with O => None | Datatypes.S m => _ end) as [end_|];
    [|discriminate].
  cbn [mbind option_bind].
  destruct (o_f s !! 0%nat) as [prev|] eqn:Hprev; [|discriminate]. cbn [mbind option_bind].
  destruct (OrbitalFunctions.NumNodes_start (o_f s) _ prev 0) as [[prev' i]|] eqn:Hstart;
    [|discriminate].
  cbn [mbind option_bind].
  destruct (ValenceDirect.fold_left_opt _ _ _) as [st|] eqn:Hc; [|discriminate].
  cbn [mbind option_bind]. intros [= <-].
  apply NumNodes_count_none in Hc; [exact Hc | exact Hsign |].
  apply NumNodes_start_In in Hstart. simpl. destruct Hstart as [<-|Hin]; [|exact Hin].
  apply list_elem_of_In. eapply list_elem_of_lookup_2; eauto.
Qed.

Lemma NumNodes_constant_sign_witness :
  OrbitalFunctions.NumNodes (Examples.orbital 3 (-1) zero [one; two; one]) = Some 0%nat.
Proof.
  apply NumNodes_constant_sign.
  - discriminate.
  - vm_compute. reflexivity.
  - vm_compute. reflexivity.
  - intros x y Hx Hy. simpl in Hx, Hy.
    destruct Hx as [<-|[<-|[<-|[]]]]; destruct Hy as [<-|[<-|[<-|[]]]]; reflexivity.
Defined.

(** ** The exponential lattice *)

Section ExpLatticeFacts.

Variable exp : double -> double.

Lemma ExpLattice_new_loop (l : list nat) (lat : ExpLattice.ExpLattice) :
  let point i := (ExpLattice.rmin lat * exp (ExpLattice.h lat * of_Z (Z.of_nat i)))%D in
  fold_left
    (fun lat i =>
       let r_i := ExpLattice.lattice_to_real exp lat i in
       ExpLattice.set_point i r_i (ExpLattice.calculate_dr lat r_i) lat) l lat
  = {| ExpLattice.beta := ExpLattice.beta lat;
       ExpLattice.NumPoints := ExpLattice.NumPoints lat;
       ExpLattice.rmin := ExpLattice.rmin lat;
       ExpLattice.h := ExpLattice.h lat;
       ExpLattice.r := fold_left (fun d i => <[i := point i]> d) l (ExpLattice.r lat);
       ExpLattice.dr := fold_left (fun d i => <[i := (point i * ExpLattice.h lat)%D]> d) l
                          (ExpLattice.dr lat) |}.
Proof.
  cbv zeta. revert lat. induction l as [|i l IH]; intros lat; simpl.
  - now destruct lat.
  - rewrite IH. reflexivity.
Qed.

Lemma fold_insert_seq_replicate (g : nat -> double) (n : nat) :
  fold_left (fun d i => <[i := g i]> d) (seq 0 n) (replicate n zero) = List.map g (seq 0 n).
Proof.
  apply list_eq. intros i.
  rewrite fold_insert_seq, length_replicate.
  change (List.map g (seq 0 n)) with (g <$> seq 0 n).
  rewrite list_lookup_fmap. cbn [Nat.add Nat.leb andb].
  destruct (Nat.ltb_spec i n) as [Hlt|Hge].
  - rewrite (lookup_seq_lt 0 n i Hlt). reflexivity.
  - rewrite (lookup_seq_ge 0 n i Hge). cbn [andb fmap option_fmap option_map].
    apply lookup_replicate_None. lia.
Qed.

Lemma ExpLattice_new_closed (numpoints : nat) (r_min H : double) :
  ExpLattice.ExpLattice_new exp numpoints r_min H
  = {| ExpLattice.beta := zero;
       ExpLattice.NumPoints := numpoints;
       ExpLattice.rmin := r_min;
       ExpLattice.h := H;
       ExpLattice.r :=
         List.map (fun i => (r_min * exp (H * of_Z (Z.of_nat i)))%D) (seq 0 numpoints);
       ExpLattice.dr :=
         List.map (fun i => (r_min * exp (H * of_Z (Z.of_nat i)) * H)%D) (seq 0 numpoints) |}.
Proof.
  unfold ExpLattice.ExpLattice_new. cbv zeta. rewrite ExpLattice_new_loop. simpl.
  now rewrite !fold_insert_seq_replicate.
Qed.

(** X21.  The lattice built by [ExpLattice(numpoints, r_min, H)] has
    [beta = 0], the point [r[i] = r_min * exp(H * i)] and the step
    [dr[i] = r[i] * H] at every index below [numpoints], and nothing else;
    its copy by the copy constructor is the same lattice. *)
Theorem ExpLattice_new_points (numpoints : nat) (r_min H : double) :
  let lat := ExpLattice.ExpLattice_new exp numpoints r_min H in
  lat = {| ExpLattice.beta := zero;
           ExpLattice.NumPoints := numpoints;
           ExpLattice.rmin := r_min;
           ExpLattice.h := H;
           ExpLattice.r :=
             List.map (fun i => (r_min * exp (H * of_Z (Z.of_nat i)))%D) (seq 0 numpoints);
           ExpLattice.dr :=
             List.map (fun i => (r_min * exp (H * of_Z (Z.of_nat i)) * H)%D) (seq 0 numpoints) |}
  /\ ExpLattice.dr lat = List.map (fun r_i => (r_i * H)%D) (ExpLattice.r lat)
  /\ ExpLattice.ExpLattice_copy lat = lat.
Proof.
  cbv zeta. rewrite ExpLattice_new_closed. split; [reflexivity|]. split.
  - simpl. now rewrite List.map_map.
  - unfold ExpLattice.ExpLattice_copy. simpl.
    set (rs := List.map _ (seq 0 numpoints)).
    set (drs := List.map _ (seq 0 numpoints)).
    assert (Hloop : forall l lat,
               fold_left (fun lat i => ExpLattice.set_point i (rs !!! i) (drs !!! i) lat) l lat
               = {| ExpLattice.beta := ExpLattice.beta lat;
                    ExpLattice.NumPoints := ExpLattice.NumPoints lat;
                    ExpLattice.rmin := ExpLattice.rmin lat;
                    ExpLattice.h := ExpLattice.h lat;
                    ExpLattice.r := fold_left (fun d i => <[i := rs !!! i]> d) l
                                      (ExpLattice.r lat);
                    ExpLattice.dr := fold_left (fun d i => <[i := drs !!! i]> d) l
                                       (ExpLattice.dr lat) |}).
    { induction l as [|i l IH]; intros lat; simpl; [now destruct lat | now rewrite IH]. }
    rewrite Hloop. simpl. rewrite !fold_insert_seq_replicate.
    assert (Hsame : forall l : list double, length l = numpoints ->
               List.map (fun i => l !!! i) (seq 0 numpoints) = l).
    { intros l Hl. apply list_eq. intros i.
      change (List.map (fun i => l !!! i) (seq 0 numpoints))
        with ((fun i => l !!! i) <$> seq 0 numpoints).
      rewrite list_lookup_fmap.
      destruct (Nat.ltb_spec i numpoints) as [Hlt|Hge].
      - rewrite (lookup_seq_lt 0 numpoints i Hlt). simpl.
        symmetry. apply list_lookup_lookup_total_lt. lia.
      - rewrite (lookup_seq_ge 0 numpoints i Hge). simpl.
        symmetry. apply lookup_ge_None_2. lia. }
    rewrite !Hsame; [reflexivity | |]; unfold rs, drs; now rewrite length_map, length_seq.
Qed.

End ExpLatticeFacts.

(** ** Comparisons of doubles *)

Ltac compare_cases :=
  repeat match goal with
  | H : context [Pos.compare_cont Eq ?a ?b] |- _ =>
      change (Pos.compare_cont Eq a b) with (Pos.compare a b) in H
  | |- context [Pos.compare_cont Eq ?a ?b] =>
      change (Pos.compare_cont Eq a b) with (Pos.compare a b)
  end;
  repeat match goal with
  | H : context [Z.compare ?a ?b] |- _ => destruct (Z.compare_spec a b); simpl in H
  | |- context [Z.compare ?a ?b] => destruct (Z.compare_spec a b); simpl
  | H : context [Pos.compare ?a ?b] |- _ => destruct (Pos.compare_spec a b); simpl in H
  | |- context [Pos.compare ?a ?b] => destruct (Pos.compare_spec a b); simpl
  end.

Ltac double_order :=
  unfold double_lt, double_gt, double_eq, SFltb, SFeqb;
  repeat match goal with
  | x : double |- _ => destruct x as [[|]|[|]| |[|] ? ?]
  end;
  simpl; try discriminate; try reflexivity; intros;
  compare_cases; subst; try discriminate; try reflexivity; try lia.

Lemma double_eq_refl (x : double) : double_eq x x = negb (is_nan x).
Proof. double_order. Qed.

Lemma double_eq_sym (x y : double) : double_eq x y = double_eq y x.
Proof. double_order. Qed.

Lemma double_eq_eq (x y : double) : double_eq x y = true -> is_zero x = false -> x = y.
Proof. revert x y. intros x y. double_order. Qed.

Lemma double_lt_irrefl (x : double) : double_lt x x = false.
Proof. double_order. Qed.

Lemma double_lt_asym (x y : double) : double_lt x y = true -> double_lt y x = false.
Proof. double_order. Qed.

Lemma double_lt_not_eq (x y : double) : double_lt x y = true -> double_eq x y = false.
Proof. double_order. Qed.

Lemma double_lt_trans (x y z : double) :
  double_lt x y = true -> double_lt y z = true -> double_lt x z = true.
Proof. double_order. Qed.

Lemma double_lt_eq_trans (x y z : double) :
  double_lt x y = true -> double_eq y z = true -> double_lt x z = true.
Proof. double_order. Qed.

Lemma double_eq_lt_trans (x y z : double) :
  double_eq x y = true -> double_lt y z = true -> double_lt x z = true.
Proof. double_order. Qed.

Lemma double_eq_trans (x y z : double) :
  double_eq x y = true -> double_eq y z = true -> double_eq x z = true.
Proof. double_order. Qed.

Lemma double_total (x y : double) :
  is_nan x = false -> is_nan y = false ->
  double_lt x y = false -> double_lt y x = false -> double_eq x y = true.
Proof. double_order. Qed.

Lemma double_nan_unordered (x y : double) :
  is_nan x = true ->
  double_lt x y = false /\ double_lt y x = false /\ double_eq x y = false.
Proof. destruct x; try discriminate. intros _. destruct y; repeat split. Qed.

(** ** Equality of lattices *)

(** X22.  [operator==] of [ExpLattice] compares [h] and [rmin] only.  Two
    lattices built from the same [r_min] and [H] compare equal whatever
    their numbers of points, unless [r_min] or [H] is a NaN, in which case
    a lattice is not even equal to itself.  Two lattices that compare equal
    and whose [r_min] and [H] are not zero have the same points and steps
    at the indices they share. *)
Theorem ExpLattice_operator_eq (exp : double -> double) (n1 n2 : nat)
    (r1 r2 H1 H2 : double) :
  ExpLattice.operator_eq (ExpLattice.ExpLattice_new exp n1 r1 H1)
    (ExpLattice.ExpLattice_new exp n2 r1 H1)
  = negb (is_nan H1) && negb (is_nan r1) /\
  (ExpLattice.operator_eq (ExpLattice.ExpLattice_new exp n1 r1 H1)
     (ExpLattice.ExpLattice_new exp n2 r2 H2) = true ->
   is_zero r1 = false -> is_zero H1 = false ->
   take (Nat.min n1 n2) (ExpLattice.r (ExpLattice.ExpLattice_new exp n1 r1 H1))
   = take (Nat.min n1 n2) (ExpLattice.r (ExpLattice.ExpLattice_new exp n2 r2 H2)) /\
   take (Nat.min n1 n2) (ExpLattice.dr (ExpLattice.ExpLattice_new exp n1 r1 H1))
   = take (Nat.min n1 n2) (ExpLattice.dr (ExpLattice.ExpLattice_new exp n2 r2 H2))).
Proof.
  rewrite !ExpLattice_new_closed. unfold ExpLattice.operator_eq.
  cbn [ExpLattice.h ExpLattice.rmin ExpLattice.r ExpLattice.dr]. split.
  - rewrite !double_eq_refl. reflexivity.
  - intros Heq Hr HH. apply andb_true_iff in Heq. destruct Heq as [HeH Her].
    apply double_eq_eq in HeH; [|exact HH]. apply double_eq_eq in Her; [|exact Hr].
    subst r2 H2.
    assert (Htake : forall (g : nat -> double) n k, (k <= n)%nat ->
               take k (List.map g (seq 0 n)) = List.map g (seq 0 k)).
    { intros g n k Hk. change (List.map g (seq 0 n)) with (g <$> seq 0 n).
      rewrite <- fmap_take, take_seq. f_equal. f_equal. lia. }
    rewrite !Htake by lia. split; reflexivity.
Qed.

Lemma ExpLattice_operator_eq_witness :
  let exp := fun x : double => one in
  let a := ExpLattice.ExpLattice_new exp 2 one half in
  let b := ExpLattice.ExpLattice_new exp 3 one half in
  ExpLattice.operator_eq a b = true /\
  take 2 (ExpLattice.r a) = take 2 (ExpLattice.r b) /\
  take 2 (ExpLattice.dr a) = take 2 (ExpLattice.dr b).
Proof.
  cbv zeta.
  destruct (ExpLattice_operator_eq (fun _ => one) 2 3 one one half half) as [Hsame Hpoints].
  split; [exact Hsame|].
  apply Hpoints; [exact Hsame | reflexivity | reflexivity].
Defined.

(** ** The order of solution identifiers *)

(** X23.  [SolutionID::operator<] is a strict order: no identifier is below
    itself, two identifiers are never below each other, and the relation is
    transitive. *)
Theorem SolutionID_strict_order (a b c : Solution.SolutionID) :
  Solution.operator_lt a a = false /\
  (Solution.operator_lt a b = true -> Solution.operator_lt b a = false) /\
  (Solution.operator_lt a b = true -> Solution.operator_lt b c = true ->
   Solution.operator_lt a c = true).
Proof.
  unfold Solution.operator_lt. split; [|split].
  - rewrite double_lt_irrefl, !Z.ltb_irrefl.
    destruct (double_eq _ _); [|reflexivity].
    rewrite Z.eqb_refl. reflexivity.
  - destruct (double_lt (Solution.mJ a) (Solution.mJ b)) eqn:Hab.
    + intros _. rewrite (double_lt_asym _ _ Hab).
      now rewrite double_eq_sym, (double_lt_not_eq _ _ Hab).
    + destruct (double_eq (Solution.mJ a) (Solution.mJ b)) eqn:Heq; [|discriminate].
      rewrite (double_eq_sym (Solution.mJ b)), Heq.
      destruct (double_lt (Solution.mJ b) (Solution.mJ a)) eqn:Hba.
      { apply double_lt_not_eq in Hba. rewrite double_eq_sym in Hba. congruence. }
      destruct (Z.ltb_spec (Solution.mParity a) (Solution.mParity b)),
        (Z.ltb_spec (Solution.mParity b) (Solution.mParity a)),
        (Z.eqb_spec (Solution.mParity a) (Solution.mParity b)),
        (Z.eqb_spec (Solution.mParity b) (Solution.mParity a)),
        (Z.ltb_spec (Solution.mID a) (Solution.mID b)),
        (Z.ltb_spec (Solution.mID b) (Solution.mID a));
        intros; try reflexivity; try discriminate; lia.
  - destruct (double_lt (Solution.mJ a) (Solution.mJ b)) eqn:Hab.
    + intros _.
      destruct (double_lt (Solution.mJ b) (Solution.mJ c)) eqn:Hbc.
      * intros _. now rewrite (double_lt_trans _ _ _ Hab Hbc).
      * destruct (double_eq (Solution.mJ b) (Solution.mJ c)) eqn:Hebc; [|discriminate].
        intros _. now rewrite (double_lt_eq_trans _ _ _ Hab Hebc).
    + destruct (double_eq (Solution.mJ a) (Solution.mJ b)) eqn:Heab; [|discriminate].
      destruct (double_lt (Solution.mJ b) (Solution.mJ c)) eqn:Hbc.
      * intros _ _. now rewrite (double_eq_lt_trans _ _ _ Heab Hbc).
      * destruct (double_eq (Solution.mJ b) (Solution.mJ c)) eqn:Hebc;
          [|intros _; discriminate].
        rewrite (double_eq_trans _ _ _ Heab Hebc).
        destruct (double_lt (Solution.mJ a) (Solution.mJ c)); [reflexivity|].
        destruct (Z.ltb_spec (Solution.mParity a) (Solution.mParity b)),
          (Z.ltb_spec (Solution.mParity b) (Solution.mParity c)),
          (Z.ltb_spec (Solution.mParity a) (Solution.mParity c)),
          (Z.eqb_spec (Solution.mParity a) (Solution.mParity b)),
          (Z.eqb_spec (Solution.mParity b) (Solution.mParity c)),
          (Z.eqb_spec (Solution.mParity a) (Solution.mParity c)),
          (Z.ltb_spec (Solution.mID a) (Solution.mID b)),
          (Z.ltb_spec (Solution.mID b) (Solution.mID c)),
          (Z.ltb_spec (Solution.mID a) (Solution.mID c));
          intros; try reflexivity; try discriminate; lia.
Qed.

Lemma SolutionID_strict_order_witness :
  let a := {| Solution.mJ := half; Solution.mParity := 0; Solution.mID := 0 |} in
  let b := {| Solution.mJ := half; Solution.mParity := 1; Solution.mID := 0 |} in
  let c := {| Solution.mJ := one; Solution.mParity := 0; Solution.mID := 0 |} in
  Solution.operator_lt a b = true /\ Solution.operator_lt b c = true /\
  Solution.operator_lt b a = false /\ Solution.operator_lt a c = true.
Proof.
  cbv zeta.
  match goal with
  | |- Solution.operator_lt ?a ?b = true /\ Solution.operator_lt ?b ?c = true /\ _ =>
      destruct (SolutionID_strict_order a b c) as [_ [Hasym Htrans]]
  end.
  split; [reflexivity|]. split; [reflexivity|]. split.
  - apply Hasym. reflexivity.
  - apply Htrans; reflexivity.
Defined.

(** X24.  Two identifiers whose [J] is not a NaN and of which neither is
    below the other have equal [J], parity and number; an identifier whose
    [J] is a NaN is neither below nor above any identifier. *)
Theorem SolutionID_unordered (a b : Solution.SolutionID) :
  Solution.operator_lt a b = false -> Solution.operator_lt b a = false ->
  (is_nan (Solution.mJ a) || is_nan (Solution.mJ b) = true) \/
  (double_eq (Solution.mJ a) (Solution.mJ b) = true /\
   Solution.mParity a = Solution.mParity b /\ Solution.mID a = Solution.mID b).
Proof.
  unfold Solution.operator_lt.
  destruct (is_nan (Solution.mJ a)) eqn:Hna; [now left|].
  destruct (is_nan (Solution.mJ b)) eqn:Hnb; [now left|].
  destruct (double_lt (Solution.mJ a) (Solution.mJ b)) eqn:Hab; [discriminate|].
  destruct (double_lt (Solution.mJ b) (Solution.mJ a)) eqn:Hba;
    [intros _; discriminate|].
  rewrite (double_eq_sym (Solution.mJ b)), (double_total _ _ Hna Hnb Hab Hba).
  intros H1 H2. right. split; [reflexivity|].
  destruct (Z.ltb_spec (Solution.mParity a) (Solution.mParity b)),
    (Z.ltb_spec (Solution.mParity b) (Solution.mParity a)),
    (Z.eqb_spec (Solution.mParity a) (Solution.mParity b)),
    (Z.eqb_spec (Solution.mParity b) (Solution.mParity a)),
    (Z.ltb_spec (Solution.mID a) (Solution.mID b)),
    (Z.ltb_spec (Solution.mID b) (Solution.mID a));
    try discriminate; lia.
Qed.

Lemma SolutionID_unordered_witness :
  let a := {| Solution.mJ := half; Solution.mParity := 1; Solution.mID := 3 |} in
  (is_nan (Solution.mJ a) || is_nan (Solution.mJ a) = true) \/
  (double_eq (Solution.mJ a) (Solution.mJ a) = true /\
   Solution.mParity a = Solution.mParity a /\ Solution.mID a = Solution.mID a).
Proof. apply SolutionID_unordered; reflexivity. Defined.

(** ** Stacks of decorators *)

(** X25.  Through any number of nested [SpinorODEDecorator]s,
    [IncludeExchange(b)] sets the flag of every decorator to [b] and reaches
    the wrapped object once; [SetODEParameters] reaches the wrapped object
    and leaves the flags alone; [GetODEFunction] and [GetExchange] answer
    what the wrapped object answers. *)
Theorem SpinorODEDecorator_forwards (X : SpinorODEDecorator.Undecorated)
    (o : SpinorODEDecorator.SpinorODE X) (b : bool) (approximation : Orbital)
    (a : option Orbital) (latticepoint : nat) (fg : SpinorFunction) (w : double * double) :
  SpinorODEDecorator.flags (SpinorODEDecorator.IncludeExchange b o)
  = replicate (length (SpinorODEDecorator.flags o)) b /\
  SpinorODEDecorator.innermost (SpinorODEDecorator.IncludeExchange b o)
  = SpinorODEDecorator.ODE_IncludeExchange X b (SpinorODEDecorator.innermost o) /\
  SpinorODEDecorator.flags (SpinorODEDecorator.SetODEParameters approximation o)
  = SpinorODEDecorator.flags o /\
  SpinorODEDecorator.innermost (SpinorODEDecorator.SetODEParameters approximation o)
  = SpinorODEDecorator.ODE_SetODEParameters X approximation (SpinorODEDecorator.innermost o) /\
  SpinorODEDecorator.GetODEFunction o latticepoint fg w
  = SpinorODEDecorator.ODE_GetODEFunction X (SpinorODEDecorator.innermost o) latticepoint fg w /\
  SpinorODEDecorator.GetExchange o a
  = SpinorODEDecorator.ODE_GetExchange X (SpinorODEDecorator.innermost o) a.
Proof.
  induction o as [object|flag wrapped IH]; simpl.
  - repeat split.
  - destruct IH as [H1 [H2 [H3 [H4 [H5 H6]]]]].
    rewrite H1, H3. repeat split; assumption.
Qed.

(** ** Padding before the sigma potential is applied *)

(** X26.  A wavefunction shorter than the sigma potential of its channel is
    padded with zeros before the potential is applied, so that it makes no
    difference whether the caller has already padded it to that size. *)
Theorem CalculateExtraNonlocal_padding (X : Brueckner.Collaborators)
    (d : Brueckner.Decorator X) (s : SpinorFunction) (sigma : Brueckner.SigmaPotential X)
    (include_derivative : bool) :
  Brueckner.sigmas d !! sf_kappa s = Some sigma ->
  (sf_size s < Brueckner.SigmaPotential_size X sigma)%nat ->
  Brueckner.CalculateExtraNonlocal d (sf_resize (Brueckner.SigmaPotential_size X sigma) s)
    include_derivative
  = Brueckner.CalculateExtraNonlocal d s include_derivative.
Proof.
  intros Hs Hlt. unfold Brueckner.CalculateExtraNonlocal.
  change (sf_kappa (sf_resize (Brueckner.SigmaPotential_size X sigma) s)) with (sf_kappa s).
  rewrite Hs.
  assert (Hsize : sf_size (sf_resize (Brueckner.SigmaPotential_size X sigma) s)
                  = Brueckner.SigmaPotential_size X sigma).
  { unfold sf_size, sf_resize. simpl. apply length_resize. }
  rewrite Hsize, Nat.ltb_irrefl.
  apply Nat.ltb_lt in Hlt. rewrite Hlt. reflexivity.
Qed.

Lemma CalculateExtraNonlocal_padding_witness :
  let d := Examples.toy_decorator_s in
  let s := Examples.toy_spinor (-1) [one] in
  Brueckner.CalculateExtraNonlocal d (sf_resize 3 s) true
  = Brueckner.CalculateExtraNonlocal d s true.
Proof.
  apply (CalculateExtraNonlocal_padding Examples.toy_collaborators
           Examples.toy_decorator_s (Examples.toy_spinor (-1) [one]) [two; two; two] true).
  - reflexivity.
  - unfold sf_size. simpl. lia.
Defined.
